(** * The type system of go-graphql, embedded in Rocq

    A shallow embedding of the type-definition layer of
    [github.com/evenco/go-graphql] (the file that declares [Scalar],
    [Object], [Interface], [Union], [Enum], [InputObject], [List] and
    [NonNull], their constructors and the abstract-type resolution), and of
    the part of package [gqlerrors] its constructors call.

    Conventions of the embedding:
    - a Go [string] is a Rocq [string] (a sequence of bytes);
    - a nilable Go value (pointer, interface, function, slice where the code
      tests it against [nil]) is an [option], [None] being [nil];
    - a Go [map] that the code ranges over is an association list whose
      order is the order in which that [range] visits the entries (Go leaves
      this order unspecified, so statements quantify over every such list);
      a map that the code builds and looks string keys up in is a [gmap];
      a map keyed by [interface{}] is a list of entries under Go's own
      key equality and hashing (module [gomap]);
    - a [panic] of the runtime is the outcome [Panics];
    - the error a constructor records on the value it returns is the
      [err] field of that value, read back by [GetError];
    - the [*Interface] that an object lists is an address, and the
      interfaces live in a heap that the constructor of objects writes to:
      the same interface listed twice is written twice; elsewhere a
      pointer is only read, and stands for the struct it points at;
    - host functions ([Serialize], [IsTypeOf], [ResolveType], ...) are total
      pure functions. *)

From Stdlib Require Import Ascii String ZArith List Bool Lia Permutation.
From Stdlib Require Import SpecFloat.
From stdpp Require Import gmap strings list sorting.

Set Implicit Arguments.
Set Warnings "-register-all".

(** ** Go values held in an [interface{}]

    The dynamic values that the code stores, compares and uses as map keys
    (enum internal values, default values, resolver arguments): nil,
    booleans, integers of each integer type, floating-point numbers of
    each size (an IEEE number, [S754_nan] being NaN), strings, and the
    slice [[]int], which stands for the dynamic types that Go cannot hash
    (slices, maps, functions).  As a map key a value is of one of three
    sorts, and each has its representatives here: it cannot be hashed, or
    it can and equals itself, or it can and does not equal itself (NaN).
    An integer is kept as a [Z]: the code does no arithmetic on these
    values. *)

Inductive IntKind : Type :=
  | KInt | KInt8 | KInt16 | KInt32 | KInt64
  | KUint | KUint8 | KUint16 | KUint32 | KUint64 | KUintptr.

Inductive FloatKind : Type := KFloat32 | KFloat64.

Inductive GoValue : Type :=
  | GoNil
  | GoBool (b : bool)
  | GoInteger (kind : IntKind) (n : Z)
  | GoFloat (kind : FloatKind) (f : spec_float)
  | GoString (s : string)
  | GoSlice (elems : list Z).

(** A value of type [int]. *)
Abbreviation GoInt := (GoInteger KInt).

#[global] Instance IntKind_eq_dec : EqDecision IntKind.
Proof. solve_decision. Defined.

#[global] Instance FloatKind_eq_dec : EqDecision FloatKind.
Proof. solve_decision. Defined.

#[global] Instance spec_float_eq_dec : EqDecision spec_float.
Proof. solve_decision. Defined.

#[global] Instance GoValue_eq_dec : EqDecision GoValue.
Proof. solve_decision. Defined.

(** What a call does: it returns a value, or the runtime panics. *)
Inductive outcome (A : Type) : Type :=
  | Returns (a : A)
  | Panics.

Arguments Panics {A}.

(** ** Maps keyed by [interface{}]

    A [map[interface{}]V] as the list of its entries.  Two keys are the
    same key when they have the same dynamic type and Go's [==] holds of
    them: so NaN is never the same key as anything, itself included, and
    the two zeros of a floating-point type are one key.  Indexing or
    assigning with a key whose dynamic type cannot be hashed panics. *)

Module gomap.

Definition hashable (key : GoValue) : bool :=
  match key with
  | GoSlice _ => false
  | _ => true
  end.

(** [==] on two interface values whose dynamic types can be hashed. *)
Definition key_eq (a b : GoValue) : bool :=
  match a, b with
  | GoNil, GoNil => true
  | GoBool x, GoBool y => Bool.eqb x y
  | GoInteger k x, GoInteger l y => bool_decide (k = l) && Z.eqb x y
  | GoFloat k x, GoFloat l y => bool_decide (k = l) && SFeqb x y
  | GoString x, GoString y => String.eqb x y
  | _, _ => false
  end.

Definition t (V : Type) : Type := list (GoValue * V).

(** The entry of a hashable key, if there is one. *)
Fixpoint lookup {V : Type} (key : GoValue) (m : t V) : option V :=
  match m with
  | [] => None
  | (key', v) :: rest => if key_eq key key' then Some v else lookup key rest
  end.

(** The map with [key] bound to [v]: the entry of the key is overwritten,
    key and value, or a new entry is added. *)
Fixpoint assign {V : Type} (key : GoValue) (v : V) (m : t V) : t V :=
  match m with
  | [] => [(key, v)]
  | (key', v') :: rest =>
      if key_eq key key' then (key, v) :: rest
      else (key', v') :: assign key v rest
  end.

(** [v, ok := m[key]] *)
Definition index {V : Type} (m : t V) (key : GoValue) : outcome (option V) :=
  if hashable key then Returns (lookup key m) else Panics.

(** [m[key] = v] *)
Definition store {V : Type} (m : t V) (key : GoValue) (v : V) : outcome (t V) :=
  if hashable key then Returns (assign key v m) else Panics.

End gomap.

(** The double quote character, and the way [fmt] prints a nil value under
    the verb [%v]. *)
Definition dquote : string := String "034" "".
Definition fmt_nil : string := "<nil>".

(** [s] occurs in [m] as a contiguous substring. *)
Fixpoint is_infix (s m : string) : bool :=
  if String.prefix s m then true
  else match m with
       | EmptyString => false
       | String _ m' => is_infix s m'
       end.

(** ** Package gqlerrors *)

Module gqlerrors.

(** [location.SourceLocation]: a line and a column. *)
Record SourceLocation : Type := {
  Line : Z;
  Column : Z }.

Record FormattedError : Type := {
  Message : string;
  Locations : list SourceLocation;
  Details : GoValue }.

(** The values of Go's [error] interface that this layer produces: a
    [FormattedError], or the plain error of [errors.New]. *)
Inductive error : Type :=
  | Formatted (g : FormattedError)
  | errorString (s : string).

(** [func (g FormattedError) Error() string], and [Error] of a plain
    error. *)
Definition Error (err : error) : string :=
  match err with
  | Formatted g => Message g
  | errorString s => s
  end.

(** [type ErrorFormatterFunc func(ctx context.Context, err error)
    FormattedError], without the context. *)
Definition ErrorFormatterFunc : Type := error -> FormattedError.

(** [var Formatter ErrorFormatterFunc]: a hook for the host, nil as the
    package declares it; nothing in these sources assigns it. *)
Definition Formatter : option ErrorFormatterFunc := None.

(** [FormatError].  A [FormattedError] is returned as it is; the cases of
    the package's own [Error] type, which is declared outside these
    sources and which no error built here has, are left out; any other
    error goes to [Formatter] when there is one, and is otherwise wrapped
    with its message and an empty location list. *)
Definition FormatError (err : error) : FormattedError :=
  match err with
  | Formatted g => g
  | errorString _ =>
      match Formatter with
      | Some formatter => formatter err
      | None => {| Message := Error err; Locations := []; Details := GoNil |}
      end
  end.

(** [NewFormattedError(ctx, message)]. *)
Definition NewFormattedError (message : string) : error :=
  Formatted (FormatError (errorString message)).

End gqlerrors.

Import gqlerrors.

(** ** Package regexp, as far as [NAME_REGEXP] needs it

    A pattern is an expression over byte classes, optionally anchored at the
    start ([^]) and at the end ([$]) of the text.  Matching is by
    derivatives.  Go matches runes of the UTF-8 decoding; a class made of
    ASCII ranges accepts no byte of a multi-byte rune, so matching bytes
    gives the same answer. *)

Module regexp.

Inductive expr : Type :=
  | NoMatch
  | EmptyMatch
  | CharClass (ranges : list (ascii * ascii))
  | Concat (r1 r2 : expr)
  | Alternate (r1 r2 : expr)
  | Star (r : expr).

Definition in_class (ranges : list (ascii * ascii)) (c : ascii) : bool :=
  existsb (fun r => Ascii.leb (fst r) c && Ascii.leb c (snd r)) ranges.

Fixpoint nullable (r : expr) : bool :=
  match r with
  | NoMatch => false
  | EmptyMatch => true
  | CharClass _ => false
  | Concat r1 r2 => nullable r1 && nullable r2
  | Alternate r1 r2 => nullable r1 || nullable r2
  | Star _ => true
  end.

Fixpoint deriv (c : ascii) (r : expr) : expr :=
  match r with
  | NoMatch => NoMatch
  | EmptyMatch => NoMatch
  | CharClass ranges => if in_class ranges c then EmptyMatch else NoMatch
  | Concat r1 r2 =>
      if nullable r1
      then Alternate (Concat (deriv c r1) r2) (deriv c r2)
      else Concat (deriv c r1) r2
  | Alternate r1 r2 => Alternate (deriv c r1) (deriv c r2)
  | Star r1 => Concat (deriv c r1) (Star r1)
  end.

(** The whole of [s] matches [r]. *)
Fixpoint matchWhole (r : expr) (s : string) : bool :=
  match s with
  | EmptyString => nullable r
  | String c s' => matchWhole (deriv c r) s'
  end.

(** Some prefix of [s] matches [r]. *)
Fixpoint matchPrefix (r : expr) (s : string) : bool :=
  nullable r ||
  match s with
  | EmptyString => false
  | String c s' => matchPrefix (deriv c r) s'
  end.

Record Regexp : Type := {
  beginText : bool;
  body : expr;
  endText : bool }.

Definition matchHere (re : Regexp) (s : string) : bool :=
  if endText re then matchWhole (body re) s else matchPrefix (body re) s.

Fixpoint matchAnywhere (re : Regexp) (s : string) : bool :=
  matchHere re s ||
  match s with
  | EmptyString => false
  | String _ s' => matchAnywhere re s'
  end.

(** [func (re *Regexp) MatchString(s string) bool]: does [s] contain a
    match of the pattern. *)
Definition MatchString (re : Regexp) (s : string) : bool :=
  if beginText re then matchHere re s else matchAnywhere re s.

(** The language of an expression, as a relation. *)
Inductive lang : expr -> string -> Prop :=
  | lang_empty : lang EmptyMatch ""
  | lang_class ranges c :
      in_class ranges c = true -> lang (CharClass ranges) (String c "")
  | lang_concat r1 r2 s1 s2 :
      lang r1 s1 -> lang r2 s2 -> lang (Concat r1 r2) (s1 +:+ s2)
  | lang_alt_l r1 r2 s : lang r1 s -> lang (Alternate r1 r2) s
  | lang_alt_r r1 r2 s : lang r2 s -> lang (Alternate r1 r2) s
  | lang_star_nil r : lang (Star r) ""
  | lang_star_app r s1 s2 :
      lang r s1 -> lang (Star r) s2 -> lang (Star r) (s1 +:+ s2).

End regexp.

(** ** Name validation *)

(** [var NAME_REGEXP, _ = regexp.Compile("^[_a-zA-Z][_a-zA-Z0-9]*$")] *)
Definition NAME_REGEXP : regexp.Regexp :=
  {| regexp.beginText := true;
     regexp.body :=
       regexp.Concat
         (regexp.CharClass [("_", "_"); ("a", "z"); ("A", "Z")]%char)
         (regexp.Star
            (regexp.CharClass
               [("_", "_"); ("a", "z"); ("A", "Z"); ("0", "9")]%char));
     regexp.endText := true |}.

Definition assertValidName_message (name : string) : string :=
  "Names must match /^[_a-zA-Z][_a-zA-Z0-9]*$/ but " +:+ dquote +:+ name
  +:+ dquote +:+ " does not.".

(** [func assertValidName(name string) error] *)
Definition assertValidName (name : string) : option error :=
  if negb (regexp.MatchString NAME_REGEXP name)
  then Some (NewFormattedError (assertValidName_message name))
  else None.

(** The identifier rule in the words of the specification: one or more
    characters, the first a letter or an underscore, the others letters,
    digits or underscores. *)
Module NameRule.

Definition code (c : ascii) : N := N_of_ascii c.

Definition is_upper (c : ascii) : bool := (65 <=? code c)%N && (code c <=? 90)%N.
Definition is_lower (c : ascii) : bool := (97 <=? code c)%N && (code c <=? 122)%N.
Definition is_digit (c : ascii) : bool := (48 <=? code c)%N && (code c <=? 57)%N.
Definition is_underscore (c : ascii) : bool := (code c =? 95)%N.

Definition first_ok (c : ascii) : bool :=
  is_upper c || is_lower c || is_underscore c.
Definition rest_ok (c : ascii) : bool :=
  is_upper c || is_lower c || is_digit c || is_underscore c.

Fixpoint all_rest_ok (s : string) : bool :=
  match s with
  | EmptyString => true
  | String c s' => rest_ok c && all_rest_ok s'
  end.

Definition valid (name : string) : bool :=
  match name with
  | EmptyString => false
  | String c rest => first_ok c && all_rest_ok rest
  end.

End NameRule.


(** ** Package ast and the records handed to host functions *)

Module ast.

(** Modelled from the spec: package [language/ast] is not among the sources;
    the layer only tells an enum-literal node, which carries the literal's
    name, from every other value node. *)
Inductive Value : Type :=
  | EnumValue (Value : string)
  | OtherValue (Kind : string).

End ast.

(** [ResolveInfo] and [GQLFRParams] are built by the executor and handed to
    host functions; no function of this layer reads them.  The fields whose
    types are declared outside these sources or point back into the schema
    ([FieldASTs], [ReturnType], [ParentType], [Schema], [Fragments],
    [Operation]) are left out. *)
Record ResolveInfo : Type := {
  ResolveInfo_FieldName : string;
  ResolveInfo_RootValue : GoValue;
  ResolveInfo_VariableValues : gmap string GoValue }.

Record GQLFRParams : Type := {
  GQLFRParams_Source : GoValue;
  GQLFRParams_Args : gmap string GoValue;
  GQLFRParams_Info : ResolveInfo }.

Definition SerializeFn : Type := GoValue -> GoValue.
Definition ParseValueFn : Type := GoValue -> GoValue.
Definition ParseLiteralFn : Type := ast.Value -> GoValue.
Definition IsTypeOfFn : Type := GoValue -> ResolveInfo -> bool.
Definition FieldResolveFn : Type := GQLFRParams -> GoValue.

(** ** The data model

    Go's structs point at each other ([FieldConfig.Type] holds any type, an
    [Object] lists its interfaces, an [Interface] its implementations).  The
    records are declared over the type [T] of types (and [O] of objects,
    [I] of interfaces); [Type_] then closes the recursion.  A pointer to a
    struct is modelled by the struct it points at. *)

Record ScalarConfig : Type := {
  ScalarConfig_Name : string;
  ScalarConfig_Description : string;
  ScalarConfig_Serialize : option SerializeFn;
  ScalarConfig_ParseValue : option ParseValueFn;
  ScalarConfig_ParseLiteral : option ParseLiteralFn }.

Record Scalar : Type := {
  Scalar_Name : string;
  Scalar_Description : string;
  Scalar_scalarConfig : ScalarConfig;
  Scalar_err : option error }.

Record EnumValueConfig : Type := {
  EnumValueConfig_Value : GoValue;
  EnumValueConfig_DeprecationReason : string;
  EnumValueConfig_Description : string }.

Definition EnumValueConfigMap : Type := list (string * option EnumValueConfig).

Record EnumConfig : Type := {
  EnumConfig_Name : string;
  EnumConfig_Values : EnumValueConfigMap;
  EnumConfig_Description : string }.

Record EnumValueDefinition : Type := {
  EnumValueDefinition_Name : string;
  EnumValueDefinition_Value : GoValue;
  EnumValueDefinition_DeprecationReason : string;
  EnumValueDefinition_Description : string }.

Record Enum : Type := {
  Enum_Name : string;
  Enum_Description : string;
  Enum_enumConfig : EnumConfig;
  Enum_values : list EnumValueDefinition;
  Enum_valuesLookup : gomap.t EnumValueDefinition;
  Enum_nameLookup : gmap string EnumValueDefinition;
  Enum_err : option error }.

Record ArgumentConfig (T : Type) : Type := {
  ArgumentConfig_Type : option T;
  ArgumentConfig_DefaultValue : GoValue;
  ArgumentConfig_Description : string }.

Definition FieldConfigArgument (T : Type) : Type :=
  list (string * option (ArgumentConfig T)).

Record FieldConfig (T : Type) : Type := {
  FieldConfig_Name : string;
  FieldConfig_Type : option T;
  FieldConfig_Args : FieldConfigArgument T;
  FieldConfig_Resolve : option FieldResolveFn;
  FieldConfig_DeprecationReason : string;
  FieldConfig_Description : string }.

Definition FieldConfigMap (T : Type) : Type :=
  list (string * option (FieldConfig T)).

Record Argument (T : Type) : Type := {
  Argument_Name : string;
  Argument_Type : option T;
  Argument_DefaultValue : GoValue;
  Argument_Description : string }.

Record FieldDefinition (T : Type) : Type := {
  FieldDefinition_Name : string;
  FieldDefinition_Description : string;
  FieldDefinition_Type : option T;
  FieldDefinition_Args : list (Argument T);
  FieldDefinition_Resolve : option FieldResolveFn;
  FieldDefinition_DeprecationReason : string }.

Definition ResolveTypeFn (O : Type) : Type := GoValue -> ResolveInfo -> option O.

Record InterfaceConfig_ (T O : Type) : Type := {
  InterfaceConfig_Name : string;
  InterfaceConfig_Fields : FieldConfigMap T;
  InterfaceConfig_ResolveType : option (ResolveTypeFn O);
  InterfaceConfig_Description : string }.

Record Interface_ (T O : Type) : Type := {
  Interface_Name : string;
  Interface_Description : string;
  Interface_ResolveType : option (ResolveTypeFn O);
  Interface_typeConfig : InterfaceConfig_ T O;
  Interface_fields : gmap string (FieldDefinition T);
  Interface_implementations : list O;
  Interface_possibleTypes : gmap string bool;
  Interface_err : option error }.

(** A [*Interface] in the slice of interfaces of an object: the address of
    an interface in the heap ([None] of [option InterfacePtr] being the
    nil pointer). *)
Definition InterfacePtr : Type := nat.

(** [ObjectConfig.Interfaces] is an [interface{}]: an [InterfacesThunk], a
    [[]*Interface], nil, or a value of some other dynamic type (kept by the
    name [reflect.TypeOf] prints for it).  A thunk returns pointers to
    interfaces that are in the heap when it is called. *)
Inductive InterfacesField (I : Type) : Type :=
  | InterfacesThunk (thunk : unit -> list (option I))
  | InterfacesSlice (l : list (option I))
  | InterfacesNil
  | InterfacesOther (typeName : string).

Arguments InterfacesNil {I}.
Arguments InterfacesOther {I} typeName.

Record ObjectConfig_ (T I : Type) : Type := {
  ObjectConfig_Name : string;
  ObjectConfig_Interfaces : InterfacesField I;
  ObjectConfig_Fields : FieldConfigMap T;
  ObjectConfig_IsTypeOf : option IsTypeOfFn;
  ObjectConfig_Description : string }.

Inductive Object_ (T : Type) : Type := Build_Object {
  Object_Name : string;
  Object_Description : string;
  Object_IsTypeOf : option IsTypeOfFn;
  Object_typeConfig : ObjectConfig_ T InterfacePtr;
  Object_fields : gmap string (FieldDefinition T);
  Object_interfaces : option (list InterfacePtr);
  Object_err : option error }.

Record UnionConfig_ (T : Type) : Type := {
  UnionConfig_Name : string;
  UnionConfig_Types : list (option (Object_ T));
  UnionConfig_ResolveType : option (ResolveTypeFn (Object_ T));
  UnionConfig_Description : string }.

Record Union_ (T : Type) : Type := {
  Union_Name : string;
  Union_Description : string;
  Union_ResolveType : option (ResolveTypeFn (Object_ T));
  Union_typeConfig : UnionConfig_ T;
  Union_types : list (option (Object_ T));
  Union_possibleTypes : gmap string bool;
  Union_err : option error }.

Record InputObjectFieldConfig (T : Type) : Type := {
  InputObjectFieldConfig_Type : option T;
  InputObjectFieldConfig_DefaultValue : GoValue;
  InputObjectFieldConfig_Description : string }.

Record InputObjectField (T : Type) : Type := {
  InputObjectField_Name : string;
  InputObjectField_Type : option T;
  InputObjectField_DefaultValue : GoValue;
  InputObjectField_Description : string }.

Definition InputObjectConfigFieldMap (T : Type) : Type :=
  list (string * option (InputObjectFieldConfig T)).

(** [InputObjectConfig.Fields] is an [interface{}]: a field map, a thunk
    that returns one, or anything else (nil included). *)
Inductive InputObjectFieldsField (T : Type) : Type :=
  | FieldsMap (m : InputObjectConfigFieldMap T)
  | FieldsThunk (thunk : unit -> InputObjectConfigFieldMap T)
  | FieldsOther.

Arguments FieldsOther {T}.

Record InputObjectConfig_ (T : Type) : Type := {
  InputObjectConfig_Name : string;
  InputObjectConfig_Fields : InputObjectFieldsField T;
  InputObjectConfig_Description : string }.

Record InputObject_ (T : Type) : Type := {
  InputObject_Name : string;
  InputObject_Description : string;
  InputObject_typeConfig : InputObjectConfig_ T;
  InputObject_fields : gmap string (InputObjectField T);
  InputObject_err : option error }.

Record List_ (T : Type) : Type := {
  List_OfType : option T;
  List_err : option error }.

Record NonNull_ (T : Type) : Type := {
  NonNull_Name : string;
  NonNull_OfType : option T;
  NonNull_err : option error }.

(** The values of the Go interface [Type] (and of [Input], [Output],
    [Named], which have the same dynamic values): a pointer to one of the
    eight type structs.  The nil interface is [None] of [option Type_]; an
    interface that wraps a nil pointer is not represented. *)
Inductive Type_ : Type :=
  | TScalar (st : Scalar)
  | TObject (gt : Object_ Type_)
  | TInterface (it : Interface_ Type_ (Object_ Type_))
  | TUnion (ut : Union_ Type_)
  | TEnum (gt : Enum)
  | TInputObject (gt : InputObject_ Type_)
  | TList (gl : List_ Type_)
  | TNonNull (gl : NonNull_ Type_).

Abbreviation Object := (Object_ Type_).
Abbreviation Interface := (Interface_ Type_ Object).
Abbreviation ObjectConfig := (ObjectConfig_ Type_ InterfacePtr).
Abbreviation InterfaceConfig := (InterfaceConfig_ Type_ Object).
Abbreviation Union := (Union_ Type_).
Abbreviation UnionConfig := (UnionConfig_ Type_).
Abbreviation InputObject := (InputObject_ Type_).
Abbreviation InputObjectConfig := (InputObjectConfig_ Type_).
Abbreviation List := (List_ Type_).
Abbreviation NonNull := (NonNull_ Type_).
Abbreviation FieldDefinitionMap := (gmap string (FieldDefinition Type_)).
Abbreviation InputObjectFieldMap := (gmap string (InputObjectField Type_)).

(** [Named] has the dynamic values of [Type]. *)
Definition Named : Type := Type_.

(** The interfaces that have been allocated, by address.  A pointer that
    is not nil always points at an interface, so the heap is total. *)
Definition InterfaceHeap : Type := InterfacePtr -> Interface.

(** ** Methods of the [Type] interface *)

(** [String()], dispatched on the dynamic type.  The named types print
    their [Name]; [List] prints as [[inner]] and [NonNull] as [inner!] when
    they wrap a type, and as the empty string otherwise. *)
Fixpoint Type_String (ttype : Type_) : string :=
  match ttype with
  | TScalar st => Scalar_Name st
  | TObject gt => Object_Name gt
  | TInterface it => Interface_Name it
  | TUnion ut => Union_Name ut
  | TEnum gt => Enum_Name gt
  | TInputObject gt => InputObject_Name gt
  | TList gl =>
      match List_OfType gl with
      | Some ofType => "[" +:+ Type_String ofType +:+ "]"
      | None => ""
      end
  | TNonNull gl =>
      match NonNull_OfType gl with
      | Some ofType => Type_String ofType +:+ "!"
      | None => ""
      end
  end.

(** What [fmt] prints for a [Type] under [%v]: its [String()], or [<nil>]
    for the nil interface. *)
Definition fmt_v (ttype : option Type_) : string :=
  match ttype with
  | Some t => Type_String t
  | None => fmt_nil
  end.

Definition Scalar_GetName (st : Scalar) : string := Scalar_Name st.
Definition Scalar_GetDescription (st : Scalar) : string := Scalar_Description st.
Definition Scalar_String (st : Scalar) : string := Scalar_Name st.
Definition Scalar_GetError (st : Scalar) : option error := Scalar_err st.

Definition Object_GetName (gt : Object) : string := Object_Name gt.
Definition Object_GetDescription (gt : Object) : string := "".
Definition Object_String (gt : Object) : string := Object_Name gt.
Definition Object_GetError (gt : Object) : option error := Object_err gt.

Definition Interface_GetName (it : Interface) : string := Interface_Name it.
Definition Interface_GetDescription (it : Interface) : string :=
  Interface_Description it.
Definition Interface_String (it : Interface) : string := Interface_Name it.
Definition Interface_GetError (it : Interface) : option error := Interface_err it.

Definition Union_String (ut : Union) : string := Union_Name ut.
Definition Union_GetName (ut : Union) : string := Union_Name ut.
Definition Union_GetDescription (ut : Union) : string := Union_Description ut.
Definition Union_GetError (ut : Union) : option error := Union_err ut.

Definition Enum_GetName (gt : Enum) : string := Enum_Name gt.
Definition Enum_GetDescription (gt : Enum) : string := "".
Definition Enum_String (gt : Enum) : string := Enum_Name gt.
Definition Enum_GetError (gt : Enum) : option error := Enum_err gt.

Definition InputObject_GetName (gt : InputObject) : string := InputObject_Name gt.
Definition InputObject_GetDescription (gt : InputObject) : string :=
  InputObject_Description gt.
Definition InputObject_String (gt : InputObject) : string := InputObject_Name gt.
Definition InputObject_GetError (gt : InputObject) : option error :=
  InputObject_err gt.

Definition List_GetName (gl : List) : string := fmt_v (List_OfType gl).
Definition List_GetDescription (gl : List) : string := "".
Definition List_String (gl : List) : string :=
  match List_OfType gl with
  | Some _ => "[" +:+ fmt_v (List_OfType gl) +:+ "]"
  | None => ""
  end.
Definition List_GetError (gl : List) : option error := List_err gl.

Definition NonNull_GetName (gl : NonNull) : string :=
  fmt_v (NonNull_OfType gl) +:+ "!".
Definition NonNull_GetDescription (gl : NonNull) : string := "".
Definition NonNull_String (gl : NonNull) : string :=
  match NonNull_OfType gl with
  | Some _ => NonNull_GetName gl
  | None => ""
  end.
Definition NonNull_GetError (gl : NonNull) : option error := NonNull_err gl.

(** [GetError()] and [GetDescription()] through the interface. *)
Definition Type_GetError (ttype : Type_) : option error :=
  match ttype with
  | TScalar st => Scalar_GetError st
  | TObject gt => Object_GetError gt
  | TInterface it => Interface_GetError it
  | TUnion ut => Union_GetError ut
  | TEnum gt => Enum_GetError gt
  | TInputObject gt => InputObject_GetError gt
  | TList gl => List_GetError gl
  | TNonNull gl => NonNull_GetError gl
  end.

Definition Type_GetDescription (ttype : Type_) : string :=
  match ttype with
  | TScalar st => Scalar_GetDescription st
  | TObject gt => Object_GetDescription gt
  | TInterface it => Interface_GetDescription it
  | TUnion ut => Union_GetDescription ut
  | TEnum gt => Enum_GetDescription gt
  | TInputObject gt => InputObject_GetDescription gt
  | TList gl => List_GetDescription gl
  | TNonNull gl => NonNull_GetDescription gl
  end.

(** ** GetNamed *)

(** One turn of the loop of [GetNamed] on the current [unmodifiedType]:
    [inl] the type to continue with, or [inr] the value the loop breaks
    with. *)
Definition GetNamed_body (unmodifiedType : option Type_)
  : option Type_ + option Type_ :=
  match unmodifiedType with
  | Some (TList ttype) => inl (List_OfType ttype)
  | Some (TNonNull ttype) => inl (NonNull_OfType ttype)
  | _ => inr unmodifiedType
  end.

(** The loop run for at most [fuel] turns; [None] when the fuel does not
    suffice. *)
Fixpoint GetNamed_loop (fuel : nat) (unmodifiedType : option Type_)
  : option (option Type_) :=
  match fuel with
  | O => None
  | S fuel' =>
      match GetNamed_body unmodifiedType with
      | inl next => GetNamed_loop fuel' next
      | inr result => Some result
      end
  end.

(** The loop by recursion on the type: every turn moves to the wrapped
    type. *)
Fixpoint GetNamed_from (unmodifiedType : Type_) : option Named :=
  match unmodifiedType with
  | TList ttype =>
      match List_OfType ttype with
      | Some ofType => GetNamed_from ofType
      | None => None
      end
  | TNonNull ttype =>
      match NonNull_OfType ttype with
      | Some ofType => GetNamed_from ofType
      | None => None
      end
  | _ => Some unmodifiedType
  end.

(** [func GetNamed(ttype Type) Named] *)
Definition GetNamed (ttype : option Type_) : option Named :=
  match ttype with
  | Some t => GetNamed_from t
  | None => None
  end.

(** [func IsInputType(ttype Type) bool] *)
Definition IsInputType (ttype : option Type_) : bool :=
  match GetNamed ttype with
  | Some (TScalar _) => true
  | Some (TEnum _) => true
  | Some (TInputObject _) => true
  | _ => false
  end.

(** [func IsOutputType(ttype Type) bool] *)
Definition IsOutputType (ttype : option Type_) : bool :=
  match GetNamed ttype with
  | Some (TScalar _) => true
  | Some (TObject _) => true
  | Some (TInterface _) => true
  | Some (TUnion _) => true
  | Some (TEnum _) => true
  | _ => false
  end.

(** ** Scalar *)

Definition ScalarConfig_zero : ScalarConfig :=
  {| ScalarConfig_Name := ""; ScalarConfig_Description := "";
     ScalarConfig_Serialize := None; ScalarConfig_ParseValue := None;
     ScalarConfig_ParseLiteral := None |}.

Definition NewScalar_serialize_message (st : string) : string :=
  st +:+ " must provide " +:+ dquote +:+ "serialize" +:+ dquote
  +:+ " function. If this custom Scalar is also used as an input type, ensure "
  +:+ dquote +:+ "parseValue" +:+ dquote +:+ " and " +:+ dquote
  +:+ "parseLiteral" +:+ dquote +:+ " functions are also provided.".

Definition NewScalar_parse_message (st : string) : string :=
  st +:+ " must provide both " +:+ dquote +:+ "parseValue" +:+ dquote
  +:+ " and " +:+ dquote +:+ "parseLiteral" +:+ dquote +:+ " functions.".

(** [func NewScalar(config ScalarConfig) *Scalar] *)
Definition NewScalar (config : ScalarConfig) : Scalar :=
  if decide (ScalarConfig_Name config = "") then
    {| Scalar_Name := ""; Scalar_Description := "";
       Scalar_scalarConfig := ScalarConfig_zero;
       Scalar_err := Some (NewFormattedError "Type must be named.") |}
  else
  match assertValidName (ScalarConfig_Name config) with
  | Some err =>
      {| Scalar_Name := ""; Scalar_Description := "";
         Scalar_scalarConfig := ScalarConfig_zero;
         Scalar_err := Some err |}
  | None =>
      let Name := ScalarConfig_Name config in
      let Description := ScalarConfig_Description config in
      match ScalarConfig_Serialize config with
      | None =>
          {| Scalar_Name := Name; Scalar_Description := Description;
             Scalar_scalarConfig := ScalarConfig_zero;
             Scalar_err :=
               Some (NewFormattedError (NewScalar_serialize_message Name)) |}
      | Some _ =>
          match ScalarConfig_ParseValue config, ScalarConfig_ParseLiteral config with
          | Some _, Some _ =>
              {| Scalar_Name := Name; Scalar_Description := Description;
                 Scalar_scalarConfig := config;
                 Scalar_err := None |}
          | _, _ =>
              {| Scalar_Name := Name; Scalar_Description := Description;
                 Scalar_scalarConfig := ScalarConfig_zero;
                 Scalar_err :=
                   Some (NewFormattedError (NewScalar_parse_message Name)) |}
          end
      end
  end.

Definition Scalar_Serialize (st : Scalar) (value : GoValue) : GoValue :=
  match ScalarConfig_Serialize (Scalar_scalarConfig st) with
  | None => value
  | Some f => f value
  end.

Definition Scalar_ParseValue (st : Scalar) (value : GoValue) : GoValue :=
  match ScalarConfig_ParseValue (Scalar_scalarConfig st) with
  | None => value
  | Some f => f value
  end.

Definition Scalar_ParseLiteral (st : Scalar) (valueAST : ast.Value) : GoValue :=
  match ScalarConfig_ParseLiteral (Scalar_scalarConfig st) with
  | None => GoNil
  | Some f => f valueAST
  end.

(** ** List and NonNull *)

(** [func NewList(ofType Type) *List] *)
Definition NewList (ofType : option Type_) : List :=
  match ofType with
  | None =>
      {| List_OfType := None;
         List_err :=
           Some (NewFormattedError
                   ("Can only create List of a Type but got: "
                    +:+ fmt_v ofType +:+ ".")) |}
  | Some _ => {| List_OfType := ofType; List_err := None |}
  end.

(** The type assertion of [ofType] to a pointer to [NonNull]: does the
    interface hold one. *)
Definition isNonNull (ofType : option Type_) : bool :=
  match ofType with
  | Some (TNonNull _) => true
  | _ => false
  end.

(** [func NewNonNull(ofType Type) *NonNull] *)
Definition NewNonNull (ofType : option Type_) : NonNull :=
  let isOfTypeNonNull := isNonNull ofType in
  if (if ofType is None then true else false) || isOfTypeNonNull then
    {| NonNull_Name := ""; NonNull_OfType := None;
       NonNull_err :=
         Some (NewFormattedError
                 ("Can only create NonNull of a Nullable Type but got: "
                  +:+ fmt_v ofType +:+ ".")) |}
  else
    {| NonNull_Name := ""; NonNull_OfType := ofType; NonNull_err := None |}.

(** ** Package sort

    [sort.Sort] on the slices of this layer, whose [Less] compares the
    [Name] of two elements as strings.  The names come from the keys of one
    map, so they differ pairwise and every sorting algorithm returns the
    same slice; insertion stands for the one Go uses. *)

Module sort.

Fixpoint insert {A : Type} (name : A -> string) (x : A) (l : list A) : list A :=
  match l with
  | [] => [x]
  | y :: l' =>
      if String.ltb (name x) (name y) then x :: y :: l'
      else y :: insert name x l'
  end.

Definition Sort {A : Type} (name : A -> string) (l : list A) : list A :=
  fold_right (insert name) [] l.

End sort.

(** ** Object: interfaces and fields *)

Definition defineInterfaces_nil_message (ttype : string) : string :=
  ttype +:+ " may only implement Interface types, it cannot implement: "
  +:+ fmt_nil +:+ ".".

Definition defineInterfaces_resolveType_message (iface ttype : string) : string :=
  "Interface Type " +:+ iface +:+ " does not provide a " +:+ dquote
  +:+ "resolveType" +:+ dquote +:+ " function and implementing Type "
  +:+ ttype +:+ " does not provide a " +:+ dquote +:+ "isTypeOf" +:+ dquote
  +:+ " function. There is no way to resolve this implementing type during execution.".

(** The [range] loop of [defineInterfaces]; [ifaces] is the slice built so
    far.  The interfaces are read through their pointers. *)
Fixpoint defineInterfaces_range (heap : InterfaceHeap) (ttype : Object)
    (interfaces : list (option InterfacePtr)) (ifaces : list InterfacePtr)
  : list InterfacePtr * option error :=
  match interfaces with
  | [] => (ifaces, None)
  | None :: _ =>
      (ifaces,
       Some (NewFormattedError (defineInterfaces_nil_message (Object_String ttype))))
  | Some iface :: rest =>
      match Interface_ResolveType (heap iface) with
      | None =>
          (ifaces,
           Some (NewFormattedError
                   (defineInterfaces_resolveType_message
                      (Interface_String (heap iface)) (Object_String ttype))))
      | Some _ => defineInterfaces_range heap ttype rest (ifaces ++ [iface])
      end
  end.

(** [func defineInterfaces(ttype *Object, interfaces []*Interface)
    ([]*Interface, error)] *)
Definition defineInterfaces (heap : InterfaceHeap) (ttype : Object)
    (interfaces : list (option InterfacePtr))
  : list InterfacePtr * option error :=
  if decide (length interfaces = 0) then ([], None)
  else defineInterfaces_range heap ttype interfaces [].

Definition Object_with_interfaces (gt : Object)
    (interfaces : option (list InterfacePtr)) (err : option error) : Object :=
  {| Object_Name := Object_Name gt;
     Object_Description := Object_Description gt;
     Object_IsTypeOf := Object_IsTypeOf gt;
     Object_typeConfig := Object_typeConfig gt;
     Object_fields := Object_fields gt;
     Object_interfaces := interfaces;
     Object_err := err |}.

(** [func (gt *Object) GetInterfaces() []*Interface]: the slice returned
    (nil when [Interfaces] has an unknown dynamic type) and the object as
    the call leaves it. *)
Definition Object_GetInterfaces (heap : InterfaceHeap) (gt : Object)
  : option (list InterfacePtr) * Object :=
  let run (configInterfaces : list (option InterfacePtr)) :=
    let '(interfaces, err) := defineInterfaces heap gt configInterfaces in
    (Some interfaces, Object_with_interfaces gt (Some interfaces) err) in
  match ObjectConfig_Interfaces (Object_typeConfig gt) with
  | InterfacesThunk thunk => run (thunk tt)
  | InterfacesSlice l => run l
  | InterfacesNil => run []
  | InterfacesOther typeName =>
      (None,
       Object_with_interfaces gt (Object_interfaces gt)
         (Some (errorString ("Unknown Object.Interfaces type: " +:+ typeName))))
  end.

Definition ObjectConfig_zero : ObjectConfig :=
  {| ObjectConfig_Name := ""; ObjectConfig_Interfaces := InterfacesNil;
     ObjectConfig_Fields := []; ObjectConfig_IsTypeOf := None;
     ObjectConfig_Description := "" |}.

Definition Object_zero (err : option error) : Object :=
  {| Object_Name := ""; Object_Description := ""; Object_IsTypeOf := None;
     Object_typeConfig := ObjectConfig_zero; Object_fields := ∅;
     Object_interfaces := None; Object_err := err |}.

(** [iface.implementations = append(iface.implementations, objectType)] *)
Definition Interface_register (objectType : Object) (iface : Interface)
  : Interface :=
  {| Interface_Name := Interface_Name iface;
     Interface_Description := Interface_Description iface;
     Interface_ResolveType := Interface_ResolveType iface;
     Interface_typeConfig := Interface_typeConfig iface;
     Interface_fields := Interface_fields iface;
     Interface_implementations := Interface_implementations iface ++ [objectType];
     Interface_possibleTypes := Interface_possibleTypes iface;
     Interface_err := Interface_err iface |}.

(** The heap after a write through the pointer [iface]: the interface it
    points at becomes [update] of what it was. *)
Definition InterfaceHeap_write (update : Interface -> Interface)
    (iface : InterfacePtr) (heap : InterfaceHeap) : InterfaceHeap :=
  fun p => if decide (p = iface) then update (heap p) else heap p.

(** The loop that ends [NewObject]: [objectType] is appended to the
    implementations of each interface of the slice in turn, through its
    pointer. *)
Definition NewObject_range (objectType : Object)
    (interfaces : list InterfacePtr) (heap : InterfaceHeap) : InterfaceHeap :=
  fold_left
    (fun (heap : InterfaceHeap) iface =>
       InterfaceHeap_write (Interface_register objectType) iface heap)
    interfaces heap.

(** [func NewObject(config ObjectConfig) *Object]: the object returned, and
    the heap as the constructor leaves it.  The constructor appends the
    new object to the [implementations] of every interface that
    [GetInterfaces] returned.  The object is appended as it is when the
    constructor returns. *)
Definition NewObject (heap : InterfaceHeap) (config : ObjectConfig)
  : Object * InterfaceHeap :=
  if decide (ObjectConfig_Name config = "") then
    (Object_zero (Some (NewFormattedError "Type must be named.")), heap)
  else
  match assertValidName (ObjectConfig_Name config) with
  | Some err => (Object_zero (Some err), heap)
  | None =>
      let objectType :=
        {| Object_Name := ObjectConfig_Name config;
           Object_Description := ObjectConfig_Description config;
           Object_IsTypeOf := ObjectConfig_IsTypeOf config;
           Object_typeConfig := config;
           Object_fields := ∅;
           Object_interfaces := None;
           Object_err := None |} in
      let '(interfaces, objectType) := Object_GetInterfaces heap objectType in
      match interfaces with
      | None => (objectType, heap)
      | Some interfaces =>
          (objectType, NewObject_range objectType interfaces heap)
      end
  end.

Definition defineFieldMap_empty_message (ttype : string) : string :=
  ttype +:+ " fields must be an object with field names as keys or a function which return such an object.".

Definition defineFieldMap_type_message (ttype fieldName : string) : string :=
  ttype +:+ "." +:+ fieldName +:+ " field type must be Output Type but got: "
  +:+ fmt_nil +:+ ".".

Definition defineFieldMap_args_message (ttype fieldName : string) : string :=
  ttype +:+ "." +:+ fieldName
  +:+ " args must be an object with argument names as keys.".

Definition defineFieldMap_argType_message (ttype fieldName argName : string)
  : string :=
  ttype +:+ "." +:+ fieldName +:+ "(" +:+ argName
  +:+ ":) argument type must be Input Type but got: " +:+ fmt_nil +:+ ".".

(** The [range] loop of [defineFieldMap] over the arguments of one field:
    the argument slice, or the error the function returns with. *)
Fixpoint defineFieldMap_args (ttype : Named) (fieldName : string)
    (Args : FieldConfigArgument Type_) (fieldArgs : list (Argument Type_))
  : list (Argument Type_) + error :=
  match Args with
  | [] => inl fieldArgs
  | (argName, arg) :: rest =>
      match assertValidName argName with
      | Some err => inr err
      | None =>
          match arg with
          | None =>
              inr (NewFormattedError
                     (defineFieldMap_args_message (Type_String ttype) fieldName))
          | Some arg =>
              match ArgumentConfig_Type arg with
              | None =>
                  inr (NewFormattedError
                         (defineFieldMap_argType_message
                            (Type_String ttype) fieldName argName))
              | Some _ =>
                  let fieldArg :=
                    {| Argument_Name := argName;
                       Argument_Description := ArgumentConfig_Description arg;
                       Argument_Type := ArgumentConfig_Type arg;
                       Argument_DefaultValue := ArgumentConfig_DefaultValue arg |} in
                  defineFieldMap_args ttype fieldName rest (fieldArgs ++ [fieldArg])
              end
          end
      end
  end.

(** The [range] loop of [defineFieldMap] over the fields. *)
Fixpoint defineFieldMap_range (ttype : Named) (fields : FieldConfigMap Type_)
    (resultFieldMap : FieldDefinitionMap)
  : FieldDefinitionMap * option error :=
  match fields with
  | [] => (resultFieldMap, None)
  | (fieldName, None) :: rest => defineFieldMap_range ttype rest resultFieldMap
  | (fieldName, Some field) :: rest =>
      match FieldConfig_Type field with
      | None =>
          (resultFieldMap,
           Some (NewFormattedError
                   (defineFieldMap_type_message (Type_String ttype) fieldName)))
      | Some fieldType =>
          match Type_GetError fieldType with
          | Some err => (resultFieldMap, Some err)
          | None =>
              match assertValidName fieldName with
              | Some err => (resultFieldMap, Some err)
              | None =>
                  match defineFieldMap_args ttype fieldName
                          (FieldConfig_Args field) [] with
                  | inr err => (resultFieldMap, Some err)
                  | inl fieldArgs =>
                      let fieldDef :=
                        {| FieldDefinition_Name := fieldName;
                           FieldDefinition_Description := FieldConfig_Description field;
                           FieldDefinition_Type := FieldConfig_Type field;
                           FieldDefinition_Args :=
                             sort.Sort (@Argument_Name Type_) fieldArgs;
                           FieldDefinition_Resolve := FieldConfig_Resolve field;
                           FieldDefinition_DeprecationReason :=
                             FieldConfig_DeprecationReason field |} in
                      defineFieldMap_range ttype rest
                        (<[fieldName := fieldDef]> resultFieldMap)
                  end
              end
          end
      end
  end.

(** [func defineFieldMap(ttype Named, fields FieldConfigMap)
    (FieldDefinitionMap, error)] *)
Definition defineFieldMap (ttype : Named) (fields : FieldConfigMap Type_)
  : FieldDefinitionMap * option error :=
  if decide (length fields = 0) then
    (∅, Some (NewFormattedError
                (defineFieldMap_empty_message (Type_String ttype))))
  else defineFieldMap_range ttype fields ∅.

(** [func (gt *Object) GetFields() FieldDefinitionMap]: the map returned
    and the object as the call leaves it. *)
Definition Object_GetFields (gt : Object) : FieldDefinitionMap * Object :=
  let '(fields, err) :=
    defineFieldMap (TObject gt) (ObjectConfig_Fields (Object_typeConfig gt)) in
  (fields,
   {| Object_Name := Object_Name gt;
      Object_Description := Object_Description gt;
      Object_IsTypeOf := Object_IsTypeOf gt;
      Object_typeConfig := Object_typeConfig gt;
      Object_fields := fields;
      Object_interfaces := Object_interfaces gt;
      Object_err := err |}).

(** ** Interface *)

Definition InterfaceConfig_zero : InterfaceConfig :=
  {| InterfaceConfig_Name := ""; InterfaceConfig_Fields := [];
     InterfaceConfig_ResolveType := None; InterfaceConfig_Description := "" |}.

Definition Interface_zero (err : option error) : Interface :=
  {| Interface_Name := ""; Interface_Description := "";
     Interface_ResolveType := None; Interface_typeConfig := InterfaceConfig_zero;
     Interface_fields := ∅; Interface_implementations := [];
     Interface_possibleTypes := ∅; Interface_err := err |}.

(** [func NewInterface(config InterfaceConfig) *Interface] *)
Definition NewInterface (config : InterfaceConfig) : Interface :=
  if decide (InterfaceConfig_Name config = "") then
    Interface_zero (Some (NewFormattedError "Type must be named."))
  else
  match assertValidName (InterfaceConfig_Name config) with
  | Some err => Interface_zero (Some err)
  | None =>
      {| Interface_Name := InterfaceConfig_Name config;
         Interface_Description := InterfaceConfig_Description config;
         Interface_ResolveType := InterfaceConfig_ResolveType config;
         Interface_typeConfig := config;
         Interface_fields := ∅;
         Interface_implementations := [];
         Interface_possibleTypes := ∅;
         Interface_err := None |}
  end.

(** [func (it *Interface) GetFields() (fields FieldDefinitionMap)] *)
Definition Interface_GetFields (it : Interface)
  : FieldDefinitionMap * Interface :=
  let '(fields, err) :=
    defineFieldMap (TInterface it)
      (InterfaceConfig_Fields (Interface_typeConfig it)) in
  (fields,
   {| Interface_Name := Interface_Name it;
      Interface_Description := Interface_Description it;
      Interface_ResolveType := Interface_ResolveType it;
      Interface_typeConfig := Interface_typeConfig it;
      Interface_fields := fields;
      Interface_implementations := Interface_implementations it;
      Interface_possibleTypes := Interface_possibleTypes it;
      Interface_err := err |}).

(** [func (it *Interface) GetPossibleTypes() []*Object].  The only writes
    to [implementations] are the empty slice of [NewInterface] and the
    append of the object under construction in [NewObject], so its
    elements are never nil; as elements of a [[]*Object] they are wrapped
    in [Some]. *)
Definition Interface_GetPossibleTypes (it : Interface) : list (option Object) :=
  map Some (Interface_implementations it).

(** ** Union *)

Definition UnionConfig_zero : UnionConfig :=
  {| UnionConfig_Name := ""; UnionConfig_Types := [];
     UnionConfig_ResolveType := None; UnionConfig_Description := "" |}.

Definition NewUnion_types_message (name : string) : string :=
  "Must provide Array of types for Union " +:+ name +:+ ".".

Definition NewUnion_nil_message (objectType : string) : string :=
  objectType +:+ " may only contain Object types, it cannot contain: "
  +:+ fmt_nil +:+ ".".

Definition NewUnion_isTypeOf_message (objectType ttype : string) : string :=
  "Union Type " +:+ objectType +:+ " does not provide a " +:+ dquote
  +:+ "resolveType" +:+ dquote +:+ " function and possible Type " +:+ ttype
  +:+ " does not provide a " +:+ dquote +:+ "isTypeOf" +:+ dquote
  +:+ " function. There is no way to resolve this possible type during execution.".

(** The [range] loop of [NewUnion] over [config.Types]: the error it
    records, if any.  [name] is the union's name, [resolveType] whether the
    union has a [ResolveType]. *)
Fixpoint NewUnion_range (name : string) (resolveType : bool)
    (Types : list (option Object)) : option error :=
  match Types with
  | [] => None
  | None :: _ => Some (NewFormattedError (NewUnion_nil_message name))
  | Some ttype :: rest =>
      if negb resolveType && (if Object_IsTypeOf ttype is None then true else false)
      then Some (NewFormattedError
                   (NewUnion_isTypeOf_message name (Object_String ttype)))
      else NewUnion_range name resolveType rest
  end.

(** [func NewUnion(config UnionConfig) *Union] *)
Definition NewUnion (config : UnionConfig) : Union :=
  let failed (Name Description : string) (ResolveType : option (ResolveTypeFn Object))
             (err : error) : Union :=
    {| Union_Name := Name; Union_Description := Description;
       Union_ResolveType := ResolveType; Union_typeConfig := UnionConfig_zero;
       Union_types := []; Union_possibleTypes := ∅; Union_err := Some err |} in
  if decide (UnionConfig_Name config = "") then
    failed "" "" None (NewFormattedError "Type must be named.")
  else
  match assertValidName (UnionConfig_Name config) with
  | Some err => failed "" "" None err
  | None =>
      let Name := UnionConfig_Name config in
      let Description := UnionConfig_Description config in
      let ResolveType := UnionConfig_ResolveType config in
      if decide (length (UnionConfig_Types config) = 0) then
        failed Name Description ResolveType
          (NewFormattedError (NewUnion_types_message Name))
      else
      match NewUnion_range Name (if ResolveType is Some _ then true else false)
              (UnionConfig_Types config) with
      | Some err => failed Name Description ResolveType err
      | None =>
          {| Union_Name := Name; Union_Description := Description;
             Union_ResolveType := ResolveType; Union_typeConfig := config;
             Union_types := UnionConfig_Types config;
             Union_possibleTypes := ∅; Union_err := None |}
      end
  end.

(** [func (ut *Union) GetPossibleTypes() []*Object] *)
Definition Union_GetPossibleTypes (ut : Union) : list (option Object) :=
  Union_types ut.

(** ** Abstract types and their resolution *)

(** The values of the Go interface [Abstract]. *)
Inductive Abstract : Type :=
  | AbstractInterface (it : Interface)
  | AbstractUnion (ut : Union).

Definition Abstract_GetPossibleTypes (abstractType : Abstract)
  : list (option Object) :=
  match abstractType with
  | AbstractInterface it => Interface_GetPossibleTypes it
  | AbstractUnion ut => Union_GetPossibleTypes ut
  end.


(** The [range] loop of [getTypeOf]. *)
Fixpoint getTypeOf_range (value : GoValue) (info : ResolveInfo)
    (possibleTypes : list (option Object)) : outcome (option Object) :=
  match possibleTypes with
  | [] => Returns None
  | None :: _ => Panics
  | Some possibleType :: rest =>
      match Object_IsTypeOf possibleType with
      | None => getTypeOf_range value info rest
      | Some isTypeOf =>
          if isTypeOf value info then Returns (Some possibleType)
          else getTypeOf_range value info rest
      end
  end.

(** [func getTypeOf(value interface{}, info ResolveInfo, abstractType
    Abstract) *Object] *)
Definition getTypeOf (value : GoValue) (info : ResolveInfo)
    (abstractType : Abstract) : outcome (option Object) :=
  getTypeOf_range value info (Abstract_GetPossibleTypes abstractType).

(** [func (it *Interface) GetObjectType(value interface{}, info
    ResolveInfo) *Object] *)
Definition Interface_GetObjectType (it : Interface) (value : GoValue)
    (info : ResolveInfo) : outcome (option Object) :=
  match Interface_ResolveType it with
  | Some resolveType => Returns (resolveType value info)
  | None => getTypeOf value info (AbstractInterface it)
  end.

(** [func (ut *Union) GetObjectType(value interface{}, info ResolveInfo)
    *Object] *)
Definition Union_GetObjectType (ut : Union) (value : GoValue)
    (info : ResolveInfo) : outcome (option Object) :=
  match Union_ResolveType ut with
  | Some resolveType => Returns (resolveType value info)
  | None => getTypeOf value info (AbstractUnion ut)
  end.

(** ** Enum *)

Definition defineEnumValues_empty_message (gt : string) : string :=
  gt +:+ " values must be an object with value names as keys.".

Definition defineEnumValues_nil_message (gt valueName : string) : string :=
  gt +:+ "." +:+ valueName +:+ " must refer to an object with a " +:+ dquote
  +:+ "value" +:+ dquote
  +:+ " key representing an internal value but got: " +:+ fmt_nil +:+ ".".

(** The [range] loop of [defineEnumValues]: the slice built when the loop
    ends or returns, and the error it returns with. *)
Fixpoint defineEnumValues_range (gt : string) (valueMap : EnumValueConfigMap)
    (values : list EnumValueDefinition)
  : list EnumValueDefinition * option error :=
  match valueMap with
  | [] => (values, None)
  | (valueName, None) :: _ =>
      (values,
       Some (NewFormattedError (defineEnumValues_nil_message gt valueName)))
  | (valueName, Some valueConfig) :: rest =>
      match assertValidName valueName with
      | Some err => (values, Some err)
      | None =>
          let value :=
            {| EnumValueDefinition_Name := valueName;
               EnumValueDefinition_Value :=
                 match EnumValueConfig_Value valueConfig with
                 | GoNil => GoString valueName
                 | v => v
                 end;
               EnumValueDefinition_DeprecationReason :=
                 EnumValueConfig_DeprecationReason valueConfig;
               EnumValueDefinition_Description :=
                 EnumValueConfig_Description valueConfig |} in
          defineEnumValues_range gt rest (values ++ [value])
      end
  end.

(** [func (gt *Enum) defineEnumValues(valueMap EnumValueConfigMap)
    ([]*EnumValueDefinition, error)]; [gt] is read for its name only. *)
Definition Enum_defineEnumValues (gt : string) (valueMap : EnumValueConfigMap)
  : list EnumValueDefinition * option error :=
  if decide (length valueMap = 0) then
    ([], Some (NewFormattedError (defineEnumValues_empty_message gt)))
  else
    match defineEnumValues_range gt valueMap [] with
    | (values, Some err) => (values, Some err)
    | (values, None) => (sort.Sort EnumValueDefinition_Name values, None)
    end.

(** [func NewEnum(config EnumConfig) *Enum] *)
Definition NewEnum (config : EnumConfig) : Enum :=
  match assertValidName (EnumConfig_Name config) with
  | Some err =>
      {| Enum_Name := ""; Enum_Description := ""; Enum_enumConfig := config;
         Enum_values := []; Enum_valuesLookup := []; Enum_nameLookup := ∅;
         Enum_err := Some err |}
  | None =>
      let '(values, err) :=
        Enum_defineEnumValues (EnumConfig_Name config) (EnumConfig_Values config) in
      {| Enum_Name := EnumConfig_Name config;
         Enum_Description := EnumConfig_Description config;
         Enum_enumConfig := config;
         Enum_values := values; Enum_valuesLookup := []; Enum_nameLookup := ∅;
         Enum_err := err |}
  end.

(** [func (gt *Enum) GetValues() []*EnumValueDefinition] *)
Definition Enum_GetValues (gt : Enum) : list EnumValueDefinition :=
  Enum_values gt.

(** The [range] loop of [getValueLookup]: the map built, unless the
    internal value of some value cannot be hashed. *)
Fixpoint getValueLookup_range (values : list EnumValueDefinition)
    (valuesLookup : gomap.t EnumValueDefinition)
  : outcome (gomap.t EnumValueDefinition) :=
  match values with
  | [] => Returns valuesLookup
  | value :: rest =>
      match gomap.store valuesLookup (EnumValueDefinition_Value value) value with
      | Returns valuesLookup => getValueLookup_range rest valuesLookup
      | Panics => Panics
      end
  end.

(** [func (gt *Enum) getValueLookup() map[interface{}]*EnumValueDefinition]:
    the map returned and the enum as the call leaves it (the map is kept on
    the enum once it is not empty).  When the loop panics the enum is as it
    was. *)
Definition Enum_getValueLookup (gt : Enum)
  : outcome (gomap.t EnumValueDefinition * Enum) :=
  if decide (0 < length (Enum_valuesLookup gt))
  then Returns (Enum_valuesLookup gt, gt)
  else
    match getValueLookup_range (Enum_GetValues gt) [] with
    | Returns valuesLookup =>
        Returns
          (valuesLookup,
           {| Enum_Name := Enum_Name gt; Enum_Description := Enum_Description gt;
              Enum_enumConfig := Enum_enumConfig gt; Enum_values := Enum_values gt;
              Enum_valuesLookup := valuesLookup;
              Enum_nameLookup := Enum_nameLookup gt; Enum_err := Enum_err gt |})
    | Panics => Panics
    end.

(** [func (gt *Enum) getNameLookup() map[string]*EnumValueDefinition] *)
Definition Enum_getNameLookup (gt : Enum)
  : gmap string EnumValueDefinition * Enum :=
  if decide (0 < size (Enum_nameLookup gt)) then (Enum_nameLookup gt, gt)
  else
    let nameLookup :=
      fold_left
        (fun (m : gmap string EnumValueDefinition) value =>
           <[EnumValueDefinition_Name value := value]> m)
        (Enum_GetValues gt) ∅ in
    (nameLookup,
     {| Enum_Name := Enum_Name gt; Enum_Description := Enum_Description gt;
        Enum_enumConfig := Enum_enumConfig gt; Enum_values := Enum_values gt;
        Enum_valuesLookup := Enum_valuesLookup gt;
        Enum_nameLookup := nameLookup; Enum_err := Enum_err gt |}).

(** [func (gt *Enum) Serialize(value interface{}) interface{}]: the value
    returned and the enum as the call leaves it. *)
Definition Enum_Serialize (gt : Enum) (value : GoValue)
  : outcome (GoValue * Enum) :=
  match Enum_getValueLookup gt with
  | Returns (valueLookup, gt) =>
      match gomap.index valueLookup value with
      | Returns (Some enumValue) =>
          Returns (GoString (EnumValueDefinition_Name enumValue), gt)
      | Returns None => Returns (GoNil, gt)
      | Panics => Panics
      end
  | Panics => Panics
  end.

(** [func (gt *Enum) ParseValue(value interface{}) interface{}] *)
Definition Enum_ParseValue (gt : Enum) (value : GoValue) : GoValue * Enum :=
  match value with
  | GoString valueStr =>
      let '(nameLookup, gt) := Enum_getNameLookup gt in
      match nameLookup !! valueStr with
      | Some enumValue => (EnumValueDefinition_Value enumValue, gt)
      | None => (GoNil, gt)
      end
  | _ => (GoNil, gt)
  end.

(** [func (gt *Enum) ParseLiteral(valueAST ast.Value) interface{}] *)
Definition Enum_ParseLiteral (gt : Enum) (valueAST : ast.Value)
  : GoValue * Enum :=
  match valueAST with
  | ast.EnumValue Value =>
      let '(nameLookup, gt) := Enum_getNameLookup gt in
      match nameLookup !! Value with
      | Some enumValue => (EnumValueDefinition_Value enumValue, gt)
      | None => (GoNil, gt)
      end
  | _ => (GoNil, gt)
  end.

(** ** InputObject *)

Definition InputObject_type_message (gt fieldName : string) : string :=
  gt +:+ "." +:+ fieldName +:+ " field type must be Input Type but got: "
  +:+ fmt_nil +:+ ".".

(** The [range] loop of the method [defineFieldMap] of [InputObject]: the map built
    when the loop ends or returns, and the error the loop records on the
    input object, if any. *)
Fixpoint InputObject_defineFieldMap_range (gt : string)
    (fieldMap : InputObjectConfigFieldMap Type_)
    (resultFieldMap : InputObjectFieldMap)
  : InputObjectFieldMap * option error :=
  match fieldMap with
  | [] => (resultFieldMap, None)
  | (fieldName, None) :: rest =>
      InputObject_defineFieldMap_range gt rest resultFieldMap
  | (fieldName, Some fieldConfig) :: rest =>
      match assertValidName fieldName with
      | Some _ => InputObject_defineFieldMap_range gt rest resultFieldMap
      | None =>
          match InputObjectFieldConfig_Type fieldConfig with
          | None =>
              (resultFieldMap,
               Some (NewFormattedError (InputObject_type_message gt fieldName)))
          | Some _ =>
              let field :=
                {| InputObjectField_Name := fieldName;
                   InputObjectField_Type := InputObjectFieldConfig_Type fieldConfig;
                   InputObjectField_Description :=
                     InputObjectFieldConfig_Description fieldConfig;
                   InputObjectField_DefaultValue :=
                     InputObjectFieldConfig_DefaultValue fieldConfig |} in
              InputObject_defineFieldMap_range gt rest
                (<[fieldName := field]> resultFieldMap)
          end
      end
  end.

Definition InputObject_with_err (gt : InputObject) (err : option error)
  : InputObject :=
  {| InputObject_Name := InputObject_Name gt;
     InputObject_Description := InputObject_Description gt;
     InputObject_typeConfig := InputObject_typeConfig gt;
     InputObject_fields := InputObject_fields gt;
     InputObject_err := err |}.

(** [func (gt *InputObject) defineFieldMap() InputObjectFieldMap]: the map
    returned and the input object as the call leaves it. *)
Definition InputObject_defineFieldMap (gt : InputObject)
  : InputObjectFieldMap * InputObject :=
  let fieldMap :=
    match InputObjectConfig_Fields (InputObject_typeConfig gt) with
    | FieldsMap m => m
    | FieldsThunk thunk => thunk tt
    | FieldsOther => []
    end in
  if decide (length fieldMap = 0) then
    (∅,
     InputObject_with_err gt
       (Some (NewFormattedError
                (defineFieldMap_empty_message (InputObject_String gt)))))
  else
    match InputObject_defineFieldMap_range (InputObject_String gt) fieldMap ∅ with
    | (resultFieldMap, Some err) =>
        (resultFieldMap, InputObject_with_err gt (Some err))
    | (resultFieldMap, None) => (resultFieldMap, gt)
    end.

Definition InputObjectConfig_zero : InputObjectConfig :=
  {| InputObjectConfig_Name := ""; InputObjectConfig_Fields := FieldsOther;
     InputObjectConfig_Description := "" |}.

(** [func NewInputObject(config InputObjectConfig) *InputObject] *)
Definition NewInputObject (config : InputObjectConfig) : InputObject :=
  if decide (InputObjectConfig_Name config = "") then
    {| InputObject_Name := ""; InputObject_Description := "";
       InputObject_typeConfig := InputObjectConfig_zero;
       InputObject_fields := ∅;
       InputObject_err := Some (NewFormattedError "Type must be named.") |}
  else
    let gt :=
      {| InputObject_Name := InputObjectConfig_Name config;
         InputObject_Description := InputObjectConfig_Description config;
         InputObject_typeConfig := config;
         InputObject_fields := ∅;
         InputObject_err := None |} in
    let '(fields, gt) := InputObject_defineFieldMap gt in
    {| InputObject_Name := InputObject_Name gt;
       InputObject_Description := InputObject_Description gt;
       InputObject_typeConfig := InputObject_typeConfig gt;
       InputObject_fields := fields;
       InputObject_err := InputObject_err gt |}.

(** [func (gt *InputObject) GetFields() InputObjectFieldMap] *)
Definition InputObject_GetFields (gt : InputObject) : InputObjectFieldMap :=
  InputObject_fields gt.

(** ** Notions used to state the properties *)

(** [msg] names [s]: the text [s] occurs in the message. *)
Definition names (msg s : string) : Prop := is_infix s msg = true.

(** A wrapper is a [List] or a [NonNull]. *)
Definition isWrapper (ttype : Type_) : bool :=
  match ttype with
  | TList _ => true
  | TNonNull _ => true
  | _ => false
  end.

(** [nesting leaf ttype n]: [ttype] is [leaf] under [n] wrappers, each a
    [List] or a [NonNull] whose [OfType] is the next one, and [leaf] is not
    a wrapper. *)
Inductive nesting (leaf : Type_) : Type_ -> nat -> Prop :=
  | nesting_leaf : isWrapper leaf = false -> nesting leaf leaf 0
  | nesting_List gl ofType n :
      List_OfType gl = Some ofType -> nesting leaf ofType n ->
      nesting leaf (TList gl) (S n)
  | nesting_NonNull gl ofType n :
      NonNull_OfType gl = Some ofType -> nesting leaf ofType n ->
      nesting leaf (TNonNull gl) (S n).

(** A possible type that the resolution passes over for [value]: it has no
    [IsTypeOf], or its [IsTypeOf] answers false. *)
Definition passedOver (value : GoValue) (info : ResolveInfo)
    (possibleType : option Object) : Prop :=
  match possibleType with
  | None => False
  | Some o =>
      match Object_IsTypeOf o with
      | None => True
      | Some isTypeOf => isTypeOf value info = false
      end
  end.

(** [result] is the first of [possibleTypes], in their order, whose
    [IsTypeOf] exists and answers true for [value]; nil when every possible
    type is passed over. *)
Definition firstTypeOf (value : GoValue) (info : ResolveInfo)
    (possibleTypes : list (option Object)) (result : option Object) : Prop :=
  match result with
  | Some o =>
      exists before after isTypeOf,
        possibleTypes = before ++ Some o :: after /\
        Object_IsTypeOf o = Some isTypeOf /\
        isTypeOf value info = true /\
        Forall (passedOver value info) before
  | None => Forall (passedOver value info) possibleTypes
  end.

(** The language of a starred class: the strings made of its characters. *)
Fixpoint all_in_class (ranges : list (ascii * ascii)) (s : string) : bool :=
  match s with
  | EmptyString => true
  | String c s' => regexp.in_class ranges c && all_in_class ranges s'
  end.

(** The number of wrappers around the innermost type of [ttype]. *)
Fixpoint wrappers (ttype : Type_) : nat :=
  match ttype with
  | TList gl =>
      match List_OfType gl with
      | Some ofType => S (wrappers ofType)
      | None => 1
      end
  | TNonNull gl =>
      match NonNull_OfType gl with
      | Some ofType => S (wrappers ofType)
      | None => 1
      end
  | _ => 0
  end.

(** The states of an enum that the program can reach from its
    construction: the lookups fill in their tables on the way. *)
Inductive Enum_reachable (config : EnumConfig) : Enum -> Prop :=
  | Enum_reachable_New : Enum_reachable config (NewEnum config)
  | Enum_reachable_Serialize gt value result gt' :
      Enum_reachable config gt ->
      Enum_Serialize gt value = Returns (result, gt') ->
      Enum_reachable config gt'
  | Enum_reachable_ParseValue gt value :
      Enum_reachable config gt ->
      Enum_reachable config (snd (Enum_ParseValue gt value))
  | Enum_reachable_ParseLiteral gt valueAST :
      Enum_reachable config gt ->
      Enum_reachable config (snd (Enum_ParseLiteral gt valueAST)).

(** The tables that [getValueLookup] and [getNameLookup] build from a
    slice of values. *)
Definition valueTable (values : list EnumValueDefinition)
  : outcome (gomap.t EnumValueDefinition) :=
  getValueLookup_range values [].

Definition nameTable (values : list EnumValueDefinition)
  : gmap string EnumValueDefinition :=
  fold_left
    (fun (m : gmap string EnumValueDefinition) value =>
       <[EnumValueDefinition_Name value := value]> m)
    values ∅.

(** The tables kept on an enum are empty or the ones built from its
    values. *)
Definition Enum_tables_ok (gt : Enum) : Prop :=
  (Enum_valuesLookup gt = [] \/
   valueTable (Enum_values gt) = Returns (Enum_valuesLookup gt))
  /\
  (Enum_nameLookup gt = ∅ \/ Enum_nameLookup gt = nameTable (Enum_values gt)).

(** The definition that [defineEnumValues] makes of an entry. *)
Definition EnumValueDefinition_of (valueName : string)
    (valueConfig : EnumValueConfig) : EnumValueDefinition :=
  {| EnumValueDefinition_Name := valueName;
     EnumValueDefinition_Value :=
       match EnumValueConfig_Value valueConfig with
       | GoNil => GoString valueName
       | v => v
       end;
     EnumValueDefinition_DeprecationReason :=
       EnumValueConfig_DeprecationReason valueConfig;
     EnumValueDefinition_Description :=
       EnumValueConfig_Description valueConfig |}.

(** The values that a config declares: the definition of each entry that
    has a config. *)
Definition Enum_declared (config : EnumConfig) : list EnumValueDefinition :=
  omap (fun entry => EnumValueDefinition_of (fst entry) <$> snd entry)
    (EnumConfig_Values config).

(** The message of a recorded error names [s]. *)
Definition error_names (err : option error) (s : string) : bool :=
  match err with
  | Some e => is_infix s (Error e)
  | None => false
  end.

(** The slice of interfaces that [GetInterfaces] validates for a config:
    the configured slice, the value of the thunk, the nil slice; nothing
    when [Interfaces] holds a value of another dynamic type. *)
Definition ObjectConfig_interfaces (config : ObjectConfig)
  : option (list (option InterfacePtr)) :=
  match ObjectConfig_Interfaces config with
  | InterfacesThunk thunk => Some (thunk tt)
  | InterfacesSlice l => Some l
  | InterfacesNil => Some []
  | InterfacesOther _ => None
  end.

(** The field map that [NewInputObject] ranges over for a config. *)
Definition InputObjectConfig_fieldMap (config : InputObjectConfig)
  : InputObjectConfigFieldMap Type_ :=
  match InputObjectConfig_Fields config with
  | FieldsMap m => m
  | FieldsThunk thunk => thunk tt
  | FieldsOther => []
  end.

(** The field that the input-object builder makes of an entry. *)
Definition InputObjectField_of (fieldName : string)
    (fieldConfig : InputObjectFieldConfig Type_) : InputObjectField Type_ :=
  {| InputObjectField_Name := fieldName;
     InputObjectField_Type := InputObjectFieldConfig_Type fieldConfig;
     InputObjectField_Description := InputObjectFieldConfig_Description fieldConfig;
     InputObjectField_DefaultValue := InputObjectFieldConfig_DefaultValue fieldConfig |}.

(** An argument entry that the field-map builder accepts: a valid name,
    a config that is not nil, a type that is not nil. *)
Definition argument_ok (entry : string * option (ArgumentConfig Type_)) : bool :=
  match entry with
  | (argName, Some arg) =>
      (if assertValidName argName is None then true else false)
      && (if ArgumentConfig_Type arg is Some _ then true else false)
  | (_, None) => false
  end.

(** A field entry (with a config) that the field-map builder of [Object]
    and [Interface] accepts: a type that is not nil and carries no error, a
    valid name, and arguments that are all accepted. *)
Definition field_ok (fieldName : string) (field : FieldConfig Type_) : bool :=
  match FieldConfig_Type field with
  | Some fieldType =>
      (if Type_GetError fieldType is None then true else false)
      && (if assertValidName fieldName is None then true else false)
      && forallb argument_ok (FieldConfig_Args field)
  | None => false
  end.

(** An entry that does not stop the field-map builder of [Object]: its
    config is nil, or it is accepted. *)
Definition field_entry_passes (entry : string * option (FieldConfig Type_)) : bool :=
  match entry with
  | (_, None) => true
  | (fieldName, Some field) => field_ok fieldName field
  end.

(** An entry that does not stop the builder of [InputObject]: its config is
    nil, its name is invalid, or its type is not nil. *)
Definition inputField_entry_passes
    (entry : string * option (InputObjectFieldConfig Type_)) : bool :=
  match entry with
  | (_, None) => true
  | (fieldName, Some fieldConfig) =>
      (if assertValidName fieldName is None then false else true)
      || (if InputObjectFieldConfig_Type fieldConfig is Some _ then true else false)
  end.

(** ** Sample schemas

    Concrete configurations on which the properties below are exercised. *)

Module Sample.

(** The scalar of the documentation of [Scalar]: it serializes odd
    integers and has no parsing functions. *)
Definition OddConfig : ScalarConfig :=
  {| ScalarConfig_Name := "Odd";
     ScalarConfig_Description := "odd integers";
     ScalarConfig_Serialize :=
       Some (fun value =>
               match value with
               | GoInt n => if (Z.rem n 2 =? 1)%Z then value else GoNil
               | _ => GoNil
               end);
     ScalarConfig_ParseValue := None;
     ScalarConfig_ParseLiteral := None |}.

(** A scalar with the three functions. *)
Definition StringConfig : ScalarConfig :=
  {| ScalarConfig_Name := "String";
     ScalarConfig_Description := "text";
     ScalarConfig_Serialize := Some (fun value => value);
     ScalarConfig_ParseValue := Some (fun value => value);
     ScalarConfig_ParseLiteral := Some (fun _ => GoNil) |}.

Definition StringType : Type_ := TScalar (NewScalar StringConfig).

(** [NonNull(List(NonNull(String)))] *)
Definition NonNullListNonNullString : Type_ :=
  TNonNull (NewNonNull (Some (TList (NewList (Some
    (TNonNull (NewNonNull (Some StringType)))))))).

(** A field of type [ttype], with no argument and no resolver. *)
Definition field (ttype : Type_) : FieldConfig Type_ :=
  {| FieldConfig_Name := ""; FieldConfig_Type := Some ttype;
     FieldConfig_Args := []; FieldConfig_Resolve := None;
     FieldConfig_DeprecationReason := ""; FieldConfig_Description := "" |}.

(** An [IsTypeOf] that recognises the string [kind]. *)
Definition isKind (kind : string) : IsTypeOfFn :=
  fun value _ =>
    match value with
    | GoString s => bool_decide (s = kind)
    | _ => false
    end.

(** An interface without [ResolveType]. *)
Definition NodeConfig : InterfaceConfig :=
  {| InterfaceConfig_Name := "Node";
     InterfaceConfig_Fields := [("id", Some (field StringType))];
     InterfaceConfig_ResolveType := None;
     InterfaceConfig_Description := "a node" |}.

Definition Node : Interface := NewInterface NodeConfig.

(** An interface with a [ResolveType]. *)
Definition LabelledConfig : InterfaceConfig :=
  {| InterfaceConfig_Name := "Labelled";
     InterfaceConfig_Fields := [("name", Some (field StringType))];
     InterfaceConfig_ResolveType := Some (fun _ _ => None);
     InterfaceConfig_Description := "" |}.

Definition Labelled : Interface := NewInterface LabelledConfig.

(** The heap of the samples: [Labelled] at address 0, [Node] at every
    other address. *)
Definition LabelledPtr : InterfacePtr := 0.
Definition NodePtr : InterfacePtr := 1.

Definition heap : InterfaceHeap :=
  fun iface => if decide (iface = LabelledPtr) then Labelled else Node.

Definition DogConfig : ObjectConfig :=
  {| ObjectConfig_Name := "Dog"; ObjectConfig_Interfaces := InterfacesNil;
     ObjectConfig_Fields := [("name", Some (field StringType))];
     ObjectConfig_IsTypeOf := Some (isKind "dog");
     ObjectConfig_Description := "a dog" |}.

Definition CatConfig : ObjectConfig :=
  {| ObjectConfig_Name := "Cat"; ObjectConfig_Interfaces := InterfacesNil;
     ObjectConfig_Fields := [("name", Some (field StringType))];
     ObjectConfig_IsTypeOf := Some (isKind "cat");
     ObjectConfig_Description := "a cat" |}.

Definition Dog : Object := fst (NewObject heap DogConfig).
Definition Cat : Object := fst (NewObject heap CatConfig).

(** A union without [ResolveType]. *)
Definition PetConfig : UnionConfig :=
  {| UnionConfig_Name := "Pet"; UnionConfig_Types := [Some Dog; Some Cat];
     UnionConfig_ResolveType := None; UnionConfig_Description := "a pet" |}.

Definition RGBConfig : EnumConfig :=
  {| EnumConfig_Name := "RGB";
     EnumConfig_Values :=
       [("RED", Some {| EnumValueConfig_Value := GoInt 0;
                        EnumValueConfig_DeprecationReason := "";
                        EnumValueConfig_Description := "" |});
        ("GREEN", Some {| EnumValueConfig_Value := GoInt 1;
                          EnumValueConfig_DeprecationReason := "";
                          EnumValueConfig_Description := "" |});
        ("BLUE", Some {| EnumValueConfig_Value := GoNil;
                         EnumValueConfig_DeprecationReason := "";
                         EnumValueConfig_Description := "" |})];
     EnumConfig_Description := "a colour" |}.

Definition inputField (ttype : option Type_) : InputObjectFieldConfig Type_ :=
  {| InputObjectFieldConfig_Type := ttype;
     InputObjectFieldConfig_DefaultValue := GoNil;
     InputObjectFieldConfig_Description := "" |}.

Definition GeoPointConfig : InputObjectConfig :=
  {| InputObjectConfig_Name := "GeoPoint";
     InputObjectConfig_Fields :=
       FieldsMap [("lat", Some (inputField (Some StringType)));
                  ("lon", Some (inputField (Some StringType)))];
     InputObjectConfig_Description := "a point" |}.

(** An input object whose name starts with a digit. *)
Definition BadNameInputConfig : InputObjectConfig :=
  {| InputObjectConfig_Name := "1bad";
     InputObjectConfig_Fields :=
       FieldsMap [("lat", Some (inputField (Some StringType)))];
     InputObjectConfig_Description := "" |}.

Definition info : ResolveInfo :=
  {| ResolveInfo_FieldName := "pet"; ResolveInfo_RootValue := GoNil;
     ResolveInfo_VariableValues := ∅ |}.

(** An input object with two valid fields, an entry whose name is invalid
    and an entry whose config is nil. *)
Definition MixedInputConfig : InputObjectConfig :=
  {| InputObjectConfig_Name := "Mixed";
     InputObjectConfig_Fields :=
       FieldsMap [("lat", Some (inputField (Some StringType)));
                  ("not-a-name", Some (inputField (Some StringType)));
                  ("gone", None);
                  ("lon", Some (inputField (Some StringType)))];
     InputObjectConfig_Description := "" |}.

(** An input object whose first entry has a nil type and whose second
    entry is valid, and the same with the entries visited the other way
    round. *)
Definition NilTypeInputConfig : InputObjectConfig :=
  {| InputObjectConfig_Name := "NilType";
     InputObjectConfig_Fields :=
       FieldsMap [("lat", Some (inputField None));
                  ("lon", Some (inputField (Some StringType)))];
     InputObjectConfig_Description := "" |}.

Definition NilTypeInputConfig' : InputObjectConfig :=
  {| InputObjectConfig_Name := "NilType";
     InputObjectConfig_Fields :=
       FieldsMap [("lon", Some (inputField (Some StringType)));
                  ("lat", Some (inputField None))];
     InputObjectConfig_Description := "" |}.

(** A field map for an object, with an entry whose config is nil. *)
Definition NilEntryFields : FieldConfigMap Type_ :=
  [("gone", None); ("name", Some (field StringType))].

(** A field map for an object whose first entry has an invalid name. *)
Definition BadEntryFields : FieldConfigMap Type_ :=
  [("not-a-name", Some (field StringType)); ("name", Some (field StringType))].

(** Objects that list [Node], which has no [ResolveType]: one with a valid
    name and an [IsTypeOf], one whose name is invalid, one whose slice has
    a nil entry first. *)
Definition HumanConfig : ObjectConfig :=
  {| ObjectConfig_Name := "Human";
     ObjectConfig_Interfaces := InterfacesSlice [Some LabelledPtr; Some NodePtr];
     ObjectConfig_Fields := [("name", Some (field StringType))];
     ObjectConfig_IsTypeOf := Some (isKind "human");
     ObjectConfig_Description := "" |}.

Definition BadNameObjectConfig : ObjectConfig :=
  {| ObjectConfig_Name := "1x";
     ObjectConfig_Interfaces := InterfacesSlice [Some NodePtr];
     ObjectConfig_Fields := [("name", Some (field StringType))];
     ObjectConfig_IsTypeOf := None;
     ObjectConfig_Description := "" |}.

Definition NilFirstObjectConfig : ObjectConfig :=
  {| ObjectConfig_Name := "Droid";
     ObjectConfig_Interfaces := InterfacesSlice [None; Some NodePtr];
     ObjectConfig_Fields := [("name", Some (field StringType))];
     ObjectConfig_IsTypeOf := None;
     ObjectConfig_Description := "" |}.

End Sample.

(** * More of the layer

    The functions that the statements above leave aside. *)


(** The name-keyed set that [IsPossibleType] builds from the possible
    types, nil ones being passed over. *)
Definition IsPossibleType_table (possibleTypes : list (option Object))
  : gmap string bool :=
  fold_left
    (fun (m : gmap string bool) possibleType =>
       match possibleType with
       | None => m
       | Some possibleType => <[Object_Name possibleType := true]> m
       end)
    possibleTypes ∅.

Definition Interface_with_possibleTypes (it : Interface)
    (possibleTypes : gmap string bool) : Interface :=
  {| Interface_Name := Interface_Name it;
     Interface_Description := Interface_Description it;
     Interface_ResolveType := Interface_ResolveType it;
     Interface_typeConfig := Interface_typeConfig it;
     Interface_fields := Interface_fields it;
     Interface_implementations := Interface_implementations it;
     Interface_possibleTypes := possibleTypes;
     Interface_err := Interface_err it |}.

(** [func (it *Interface) IsPossibleType(ttype *Object) bool]: the answer
    and the interface as the call leaves it (the set is built when the one
    kept on the interface is empty, and kept). *)
Definition Interface_IsPossibleType (it : Interface) (ttype : option Object)
  : bool * Interface :=
  match ttype with
  | None => (false, it)
  | Some ttype =>
      let it :=
        if decide (size (Interface_possibleTypes it) = 0)
        then Interface_with_possibleTypes it
               (IsPossibleType_table (Interface_GetPossibleTypes it))
        else it in
      match Interface_possibleTypes it !! Object_Name ttype with
      | Some val => (val, it)
      | None => (false, it)
      end
  end.

Definition Union_with_possibleTypes (ut : Union)
    (possibleTypes : gmap string bool) : Union :=
  {| Union_Name := Union_Name ut;
     Union_Description := Union_Description ut;
     Union_ResolveType := Union_ResolveType ut;
     Union_typeConfig := Union_typeConfig ut;
     Union_types := Union_types ut;
     Union_possibleTypes := possibleTypes;
     Union_err := Union_err ut |}.

(** [func (ut *Union) IsPossibleType(ttype *Object) bool] *)
Definition Union_IsPossibleType (ut : Union) (ttype : option Object)
  : bool * Union :=
  match ttype with
  | None => (false, ut)
  | Some ttype =>
      let ut :=
        if decide (size (Union_possibleTypes ut) = 0)
        then Union_with_possibleTypes ut
               (IsPossibleType_table (Union_GetPossibleTypes ut))
        else ut in
      match Union_possibleTypes ut !! Object_Name ttype with
      | Some val => (val, ut)
      | None => (false, ut)
      end
  end.

(** ** Notions used to state the further properties *)

(** The states of a union that the program can reach from its
    construction: [IsPossibleType] fills in its set on the way. *)
Inductive Union_reachable (config : UnionConfig) : Union -> Prop :=
  | Union_reachable_New : Union_reachable config (NewUnion config)
  | Union_reachable_IsPossibleType ut ttype :
      Union_reachable config ut ->
      Union_reachable config (snd (Union_IsPossibleType ut ttype)).

(** An entry of an interface slice that [defineInterfaces] accepts: not
    nil, and pointing at an interface with a [ResolveType]. *)
Definition interface_ok (heap : InterfaceHeap) (entry : option InterfacePtr)
  : bool :=
  match entry with
  | Some iface =>
      if Interface_ResolveType (heap iface) is Some _ then true else false
  | None => false
  end.

(** The pointers at the head of a slice that [defineInterfaces] accepts,
    up to the first entry it does not accept. *)
Fixpoint acceptedInterfaces (heap : InterfaceHeap)
    (interfaces : list (option InterfacePtr)) : list InterfacePtr :=
  match interfaces with
  | Some iface :: rest =>
      if Interface_ResolveType (heap iface) is Some _
      then iface :: acceptedInterfaces heap rest
      else []
  | _ => []
  end.

(** How many times a pointer occurs in a slice. *)
Definition occurrences (iface : InterfacePtr) (interfaces : list InterfacePtr)
  : nat :=
  length (filter (fun p => p = iface) interfaces).

(** A member that [NewUnion] accepts: not nil, and with an [IsTypeOf] when
    the union has no [ResolveType]. *)
Definition member_ok (resolveType : bool) (member : option Object) : bool :=
  match member with
  | Some ttype =>
      resolveType || (if Object_IsTypeOf ttype is Some _ then true else false)
  | None => false
  end.

(** An entry of an enum config that [defineEnumValues] accepts: a config
    that is not nil, under a valid name. *)
Definition enumValue_ok (entry : string * option EnumValueConfig) : bool :=
  match entry with
  | (valueName, Some _) =>
      if assertValidName valueName is None then true else false
  | (_, None) => false
  end.

(** The argument that the field-map builder makes of an entry. *)
Definition Argument_of (entry : string * option (ArgumentConfig Type_))
  : option (Argument Type_) :=
  match entry with
  | (argName, Some arg) =>
      Some {| Argument_Name := argName;
              Argument_Description := ArgumentConfig_Description arg;
              Argument_Type := ArgumentConfig_Type arg;
              Argument_DefaultValue := ArgumentConfig_DefaultValue arg |}
  | (_, None) => None
  end.

(** The definition that the field-map builder makes of an accepted
    field: its arguments are those of the config, sorted by name. *)
Definition FieldDefinition_of (fieldName : string) (field : FieldConfig Type_)
  : FieldDefinition Type_ :=
  {| FieldDefinition_Name := fieldName;
     FieldDefinition_Description := FieldConfig_Description field;
     FieldDefinition_Type := FieldConfig_Type field;
     FieldDefinition_Args :=
       sort.Sort (@Argument_Name Type_)
         (omap Argument_of (FieldConfig_Args field));
     FieldDefinition_Resolve := FieldConfig_Resolve field;
     FieldDefinition_DeprecationReason := FieldConfig_DeprecationReason field |}.

(** [a] comes before [b] in the order of [Less]: the name of [a] is
    smaller. *)
Definition nameLess {A : Type} (name : A -> string) (a b : A) : Prop :=
  String.ltb (name a) (name b) = true.

(** The kinds of the named types. *)
Definition isInputKind (ttype : Type_) : bool :=
  match ttype with
  | TScalar _ | TEnum _ | TInputObject _ => true
  | _ => false
  end.

Definition isOutputKind (ttype : Type_) : bool :=
  match ttype with
  | TScalar _ | TObject _ | TInterface _ | TUnion _ | TEnum _ => true
  | _ => false
  end.

(** ** More samples *)

Module MoreSample.

(** An interface with a [ResolveType] that has two implementations and a
    third object that is not one of them. *)
Definition Bird : Object :=
  fst (NewObject Sample.heap
         {| ObjectConfig_Name := "Bird"; ObjectConfig_Interfaces := InterfacesNil;
            ObjectConfig_Fields := [("name", Some (Sample.field Sample.StringType))];
            ObjectConfig_IsTypeOf := None; ObjectConfig_Description := "" |}).

Definition LabelledDogConfig : ObjectConfig :=
  {| ObjectConfig_Name := "Dog";
     ObjectConfig_Interfaces := InterfacesSlice [Some Sample.LabelledPtr];
     ObjectConfig_Fields := [("name", Some (Sample.field Sample.StringType))];
     ObjectConfig_IsTypeOf := Some (Sample.isKind "dog");
     ObjectConfig_Description := "" |}.

(** [Labelled] once a dog has registered. *)
Definition LabelledWithDog : Interface :=
  snd (NewObject Sample.heap LabelledDogConfig) Sample.LabelledPtr.

(** An object that lists [Labelled] twice. *)
Definition TwiceConfig : ObjectConfig :=
  {| ObjectConfig_Name := "Twice";
     ObjectConfig_Interfaces :=
       InterfacesSlice [Some Sample.LabelledPtr; Some Sample.LabelledPtr];
     ObjectConfig_Fields := [("name", Some (Sample.field Sample.StringType))];
     ObjectConfig_IsTypeOf := None;
     ObjectConfig_Description := "" |}.

(** An object config with a valid name, no interface and no field. *)
Definition EmptyConfig : ObjectConfig :=
  {| ObjectConfig_Name := "Empty"; ObjectConfig_Interfaces := InterfacesNil;
     ObjectConfig_Fields := []; ObjectConfig_IsTypeOf := None;
     ObjectConfig_Description := "" |}.

(** An input object config with a name and no field. *)
Definition EmptyInputConfig : InputObjectConfig :=
  {| InputObjectConfig_Name := "EmptyInput";
     InputObjectConfig_Fields := FieldsOther;
     InputObjectConfig_Description := "" |}.

(** A field with two arguments, given in descending order of name. *)
Definition userField : FieldConfig Type_ :=
  {| FieldConfig_Name := ""; FieldConfig_Type := Some Sample.StringType;
     FieldConfig_Args :=
       [("name", Some {| ArgumentConfig_Type := Some Sample.StringType;
                         ArgumentConfig_DefaultValue := GoNil;
                         ArgumentConfig_Description := "" |});
        ("id", Some {| ArgumentConfig_Type := Some Sample.StringType;
                       ArgumentConfig_DefaultValue := GoNil;
                       ArgumentConfig_Description := "" |})];
     FieldConfig_Resolve := None;
     FieldConfig_DeprecationReason := ""; FieldConfig_Description := "" |}.

Definition QueryFields : FieldConfigMap Type_ :=
  [("user", Some userField); ("gone", None)].

(** An enum two of whose values share an internal value. *)
Definition ToggleConfig : EnumConfig :=
  {| EnumConfig_Name := "Toggle";
     EnumConfig_Values :=
       [("ON", Some {| EnumValueConfig_Value := GoInt 1;
                       EnumValueConfig_DeprecationReason := "";
                       EnumValueConfig_Description := "" |});
        ("YES", Some {| EnumValueConfig_Value := GoInt 1;
                        EnumValueConfig_DeprecationReason := "";
                        EnumValueConfig_Description := "" |});
        ("OFF", Some {| EnumValueConfig_Value := GoInt 0;
                        EnumValueConfig_DeprecationReason := "";
                        EnumValueConfig_Description := "" |})];
     EnumConfig_Description := "" |}.

(** The number one half as a [float64]. *)
Definition half : spec_float := S754_finite false 4503599627370496 (-53).

(** An enum one of whose internal values is NaN, and one with a slice as
    an internal value. *)
Definition RatioConfig : EnumConfig :=
  {| EnumConfig_Name := "Ratio";
     EnumConfig_Values :=
       [("NAN", Some {| EnumValueConfig_Value := GoFloat KFloat64 S754_nan;
                        EnumValueConfig_DeprecationReason := "";
                        EnumValueConfig_Description := "" |});
        ("HALF", Some {| EnumValueConfig_Value := GoFloat KFloat64 half;
                         EnumValueConfig_DeprecationReason := "";
                         EnumValueConfig_Description := "" |})];
     EnumConfig_Description := "" |}.

Definition PathConfig : EnumConfig :=
  {| EnumConfig_Name := "Path";
     EnumConfig_Values :=
       [("ROOT", Some {| EnumValueConfig_Value := GoSlice [1%Z];
                         EnumValueConfig_DeprecationReason := "";
                         EnumValueConfig_Description := "" |})];
     EnumConfig_Description := "" |}.

End MoreSample.

(** * Properties *)

Unset Implicit Arguments.

(** ** Substrings *)

Lemma append_nil (s : string) : "" +:+ s = s.
Proof. reflexivity. Qed.

Lemma append_cons (c : ascii) (s t : string) :
  String c s +:+ t = String c (s +:+ t).
Proof. reflexivity. Qed.

Lemma prefix_append (s t : string) : String.prefix s (s +:+ t) = true.
Proof.
  induction s as [|c s IH]; simpl.
  - destruct t; reflexivity.
  - destruct (ascii_dec c c) as [_|Hc]; [exact IH | contradiction].
Qed.

Lemma is_infix_here (s m : string) :
  String.prefix s m = true -> is_infix s m = true.
Proof. intros H. destruct m; cbn [is_infix]; rewrite H; reflexivity. Qed.

Lemma is_infix_append (pre s post : string) :
  is_infix s (pre +:+ s +:+ post) = true.
Proof.
  induction pre as [|c pre IH].
  - apply is_infix_here. exact (prefix_append s post).
  - change (String c pre +:+ s +:+ post) with (String c (pre +:+ s +:+ post)).
    cbn [is_infix]. rewrite IH. destruct (String.prefix s _); reflexivity.
Qed.

Lemma names_append (pre s post : string) : names (pre +:+ s +:+ post) s.
Proof. apply is_infix_append. Qed.

Lemma names_append_l (s post : string) : names (s +:+ post) s.
Proof. exact (names_append "" s post). Qed.

Lemma names_skip (pre m s : string) : names m s -> names (pre +:+ m) s.
Proof.
  unfold names. intros H. induction pre as [|c pre IH]; [exact H|].
  rewrite append_cons. cbn [is_infix]. rewrite IH.
  destruct (String.prefix s _); reflexivity.
Qed.

Lemma Error_NewFormattedError (message : string) :
  Error (NewFormattedError message) = message.
Proof. reflexivity. Qed.

(** A message built by appending pieces names each of its pieces. *)
Ltac names_piece :=
  first [ apply names_append_l | apply names_skip; names_piece ].

(** ** Regular expressions: the matcher decides the language *)

Lemma append_eq_nil (s t : string) : s +:+ t = "" -> s = "" /\ t = "".
Proof.
  destruct s; [rewrite append_nil; auto | rewrite append_cons; discriminate].
Qed.

Lemma append_eq_cons (s t : string) (c : ascii) (u : string) :
  s +:+ t = String c u ->
  (s = "" /\ t = String c u) \/ (exists s', s = String c s' /\ u = s' +:+ t).
Proof.
  destruct s as [|d s].
  - rewrite append_nil. auto.
  - rewrite append_cons. intros H. injection H as -> <-. right. eauto.
Qed.

Lemma nullable_lang (r : regexp.expr) :
  regexp.nullable r = true <-> regexp.lang r "".
Proof.
  split.
  - induction r; simpl; intros H; try discriminate.
    + constructor.
    + apply andb_true_iff in H as [H1 H2].
      apply (@regexp.lang_concat r1 r2 "" ""); auto.
    + apply orb_true_iff in H as [H|H];
        [apply regexp.lang_alt_l | apply regexp.lang_alt_r]; auto.
    + constructor.
  - intros H. remember "" as s eqn:Hs.
    induction H; simpl; auto; try discriminate.
    + apply append_eq_nil in Hs as [-> ->].
      rewrite IHlang1, IHlang2; auto.
    + rewrite IHlang; auto.
    + rewrite IHlang; auto using orb_true_r.
Qed.

Lemma deriv_sound (c : ascii) (r : regexp.expr) (s : string) :
  regexp.lang (regexp.deriv c r) s -> regexp.lang r (String c s).
Proof.
  revert s. induction r; simpl; intros s H.
  - inversion H.
  - inversion H.
  - destruct (regexp.in_class ranges c) eqn:Hc; inversion H; subst.
    constructor; assumption.
  - destruct (regexp.nullable r1) eqn:Hn.
    + inversion H; subst.
      * match goal with
        | Hc : regexp.lang (regexp.Concat _ _) _ |- _ => inversion Hc; subst
        end.
        rewrite <- append_cons. constructor; auto.
      * rewrite <- (append_nil (String c s)). constructor; auto.
        apply nullable_lang; assumption.
    + inversion H; subst. rewrite <- append_cons. constructor; auto.
  - inversion H; subst;
      [apply regexp.lang_alt_l | apply regexp.lang_alt_r]; auto.
  - inversion H; subst. rewrite <- append_cons.
    apply regexp.lang_star_app; auto.
Qed.

Lemma deriv_complete (r : regexp.expr) (s0 : string) :
  regexp.lang r s0 ->
  forall c s, s0 = String c s -> regexp.lang (regexp.deriv c r) s.
Proof.
  induction 1 as [ | ranges d Hd | r1 r2 s1 s2 H1 IH1 H2 IH2
                 | r1 r2 s H IH | r1 r2 s H IH | r
                 | r s1 s2 H1 IH1 H2 IH2 ];
    intros c u Hu; simpl.
  - discriminate.
  - injection Hu as -> <-. rewrite Hd. constructor.
  - apply append_eq_cons in Hu as [[-> ->] | (s1' & -> & ->)].
    + assert (Hn : regexp.nullable r1 = true) by (apply nullable_lang; assumption).
      rewrite Hn. apply regexp.lang_alt_r. eapply IH2; reflexivity.
    + destruct (regexp.nullable r1).
      * apply regexp.lang_alt_l. constructor; auto.
      * constructor; auto.
  - apply regexp.lang_alt_l; auto.
  - apply regexp.lang_alt_r; auto.
  - discriminate.
  - apply append_eq_cons in Hu as [[-> ->] | (s1' & -> & ->)].
    + eapply IH2; reflexivity.
    + constructor; auto.
Qed.

Lemma matchWhole_lang (r : regexp.expr) (s : string) :
  regexp.matchWhole r s = true <-> regexp.lang r s.
Proof.
  revert r. induction s as [|c s IH]; intros r; simpl.
  - apply nullable_lang.
  - rewrite IH. split.
    + apply deriv_sound.
    + intros H. eapply deriv_complete; [exact H | reflexivity].
Qed.

Lemma lang_class_inv (ranges : list (ascii * ascii)) (s : string) :
  regexp.lang (regexp.CharClass ranges) s ->
  exists c, s = String c "" /\ regexp.in_class ranges c = true.
Proof. inversion 1; subst; eauto. Qed.

Lemma lang_star_class (ranges : list (ascii * ascii)) (s : string) :
  regexp.lang (regexp.Star (regexp.CharClass ranges)) s <->
  all_in_class ranges s = true.
Proof.
  split.
  - intros H. remember (regexp.Star (regexp.CharClass ranges)) as r eqn:Hr.
    induction H; try discriminate; [reflexivity|].
    injection Hr as ->.
    apply lang_class_inv in H as (c & -> & Hc).
    rewrite append_cons, append_nil. simpl. rewrite Hc. auto.
  - induction s as [|c s IH]; simpl; intros H.
    + constructor.
    + apply andb_true_iff in H as [Hc Hs].
      change (String c s) with (String c "" +:+ s).
      apply regexp.lang_star_app; [constructor; assumption | auto].
Qed.

Lemma lang_class_then_star (first rest : list (ascii * ascii)) (s : string) :
  regexp.lang
    (regexp.Concat (regexp.CharClass first)
       (regexp.Star (regexp.CharClass rest))) s <->
  match s with
  | EmptyString => False
  | String c s' => regexp.in_class first c = true /\ all_in_class rest s' = true
  end.
Proof.
  split.
  - inversion 1 as [ | | r1 r2 s1 s2 H1 H2 | | | | ]; subst.
    apply lang_class_inv in H1 as (c & -> & Hc).
    rewrite append_cons, append_nil. split; [assumption|].
    apply lang_star_class; assumption.
  - destruct s as [|c s']; [contradiction|]. intros [Hc Hs].
    change (String c s') with (String c "" +:+ s').
    constructor; [constructor; assumption | apply lang_star_class; assumption].
Qed.

(** The classes of [NAME_REGEXP] are the character sets of the rule. *)
Lemma name_first_class (c : ascii) :
  regexp.in_class [("_", "_"); ("a", "z"); ("A", "Z")]%char c
  = NameRule.first_ok c.
Proof. destruct c as [[] [] [] [] [] [] [] []]; reflexivity. Qed.

Lemma name_rest_class (c : ascii) :
  regexp.in_class [("_", "_"); ("a", "z"); ("A", "Z"); ("0", "9")]%char c
  = NameRule.rest_ok c.
Proof. destruct c as [[] [] [] [] [] [] [] []]; reflexivity. Qed.

Lemma name_rest_all (s : string) :
  all_in_class [("_", "_"); ("a", "z"); ("A", "Z"); ("0", "9")]%char s
  = NameRule.all_rest_ok s.
Proof.
  induction s as [|c s IH]; [reflexivity|].
  cbn [all_in_class NameRule.all_rest_ok]. rewrite name_rest_class, IH.
  reflexivity.
Qed.

(** [NAME_REGEXP] matches exactly the names the rule accepts. *)
Lemma NAME_REGEXP_valid (name : string) :
  regexp.MatchString NAME_REGEXP name = NameRule.valid name.
Proof.
  unfold regexp.MatchString, regexp.matchHere, NAME_REGEXP.
  cbn [regexp.beginText regexp.endText regexp.body].
  apply eq_true_iff_eq. rewrite matchWhole_lang, lang_class_then_star.
  destruct name as [|c rest]; cbn [NameRule.valid].
  - split; [contradiction | discriminate].
  - rewrite name_first_class, name_rest_all, andb_true_iff. reflexivity.
Qed.

Lemma assertValidName_valid (name : string) :
  assertValidName name = None <-> NameRule.valid name = true.
Proof.
  unfold assertValidName. rewrite NAME_REGEXP_valid.
  destruct (NameRule.valid name); simpl; split;
    solve [reflexivity | discriminate].
Qed.

(** C7.  [assertValidName] returns nil exactly for the names that match the
    identifier rule (one or more characters, the first a letter or an
    underscore, the others letters, digits or underscores); for every other
    string it returns an error whose message quotes the offending name.  It
    is a total function: it returns on every string. *)
Theorem assertValidName_spec (name : string) :
  (assertValidName name = None <-> NameRule.valid name = true) /\
  (NameRule.valid name = false ->
   exists err,
     assertValidName name = Some err /\
     Error err = assertValidName_message name /\
     names (Error err) name).
Proof.
  split; [apply assertValidName_valid|].
  unfold assertValidName. rewrite NAME_REGEXP_valid.
  intros ->. cbn [negb].
  - eexists. split; [reflexivity|]. split; [reflexivity|].
    simpl. unfold assertValidName_message.
    apply (names_append
             ("Names must match /^[_a-zA-Z][_a-zA-Z0-9]*$/ but " +:+ dquote)
             name (dquote +:+ " does not.")).
Qed.

(** The three kinds of violating names the specification lists, and two
    valid names. *)
Example assertValidName_examples :
  assertValidName "" <> None /\
  assertValidName "1abc" <> None /\
  assertValidName "a-b" <> None /\
  assertValidName "_id" = None /\
  assertValidName "Person2" = None.
Proof. repeat split; solve [discriminate | reflexivity]. Qed.

(** ** Valid names are not empty *)

Lemma assertValidName_nonempty (name : string) :
  assertValidName name = None -> name <> "".
Proof. intros H ->. discriminate H. Qed.

(** ** List and NonNull *)

(** C8.  [NewNonNull] applied to the result of [NewNonNull], whatever that
    one wraps, records an error; so do [NewNonNull] and [NewList] applied
    to nil. *)
Theorem NewNonNull_NewList_errors (T : option Type_) :
  NonNull_GetError (NewNonNull (Some (TNonNull (NewNonNull T)))) <> None /\
  NonNull_GetError (NewNonNull None) <> None /\
  List_GetError (NewList None) <> None.
Proof. repeat split; discriminate. Qed.

(** The messages of these errors. *)
Lemma NewNonNull_nil_message :
  Error <$> NonNull_GetError (NewNonNull None)
  = Some "Can only create NonNull of a Nullable Type but got: <nil>.".
Proof. reflexivity. Qed.

Lemma NewList_nil_message :
  Error <$> List_GetError (NewList None)
  = Some "Can only create List of a Type but got: <nil>.".
Proof. reflexivity. Qed.

(** A nullable type is accepted by both constructors. *)
Lemma NewNonNull_ok (T : Type_) :
  isNonNull (Some T) = false ->
  NonNull_GetError (NewNonNull (Some T)) = None /\
  NonNull_OfType (NewNonNull (Some T)) = Some T.
Proof. unfold NewNonNull. intros ->. split; reflexivity. Qed.

Lemma NewList_ok (T : Type_) :
  List_GetError (NewList (Some T)) = None /\
  List_OfType (NewList (Some T)) = Some T.
Proof. split; reflexivity. Qed.

(** ** GetNamed *)

Lemma GetNamed_nesting (leaf ttype : Type_) (n : nat) :
  nesting leaf ttype n -> GetNamed_from ttype = Some leaf.
Proof.
  induction 1 as [Hleaf | gl ofType n HofType _ IH | gl ofType n HofType _ IH].
  - destruct leaf; try discriminate Hleaf; reflexivity.
  - cbn [GetNamed_from]. rewrite HofType. exact IH.
  - cbn [GetNamed_from]. rewrite HofType. exact IH.
Qed.

Lemma nesting_wrappers (leaf ttype : Type_) (n : nat) :
  nesting leaf ttype n -> wrappers ttype = n.
Proof.
  induction 1 as [Hleaf | gl ofType n HofType _ IH | gl ofType n HofType _ IH].
  - destruct leaf; try discriminate Hleaf; reflexivity.
  - cbn [wrappers]. rewrite HofType, IH. reflexivity.
  - cbn [wrappers]. rewrite HofType, IH. reflexivity.
Qed.

(** The loop of [GetNamed] ends on every type: one turn per wrapper and one
    more to break, with the value the recursive reading gives. *)
Lemma GetNamed_loop_terminates (fuel : nat) (ttype : Type_) :
  wrappers ttype < fuel ->
  GetNamed_loop fuel (Some ttype) = Some (GetNamed (Some ttype)).
Proof.
  revert ttype. induction fuel as [|fuel IH]; intros ttype Hfuel; [lia|].
  destruct ttype as [ | | | | | | gl | gl ]; try reflexivity.
  - cbn [GetNamed_loop GetNamed_body GetNamed GetNamed_from wrappers] in *.
    destruct (List_OfType gl) as [ofType|].
    + apply IH. lia.
    + destruct fuel; [lia | reflexivity].
  - cbn [GetNamed_loop GetNamed_body GetNamed GetNamed_from wrappers] in *.
    destruct (NonNull_OfType gl) as [ofType|].
    + apply IH. lia.
    + destruct fuel; [lia | reflexivity].
Qed.

Lemma GetNamed_loop_nil (fuel : nat) :
  0 < fuel -> GetNamed_loop fuel None = Some (GetNamed None).
Proof. destruct fuel; [lia | reflexivity]. Qed.

(** C6.  On a type that is [n] wrappers ([List] or [NonNull]) around a type
    [leaf] that is not a wrapper, [GetNamed] returns [leaf], whatever [n]
    is; its loop ends after [n] turns through the wrappers and one to
    break. *)
Theorem GetNamed_innermost (leaf ttype : Type_) (n : nat) :
  nesting leaf ttype n ->
  GetNamed (Some ttype) = Some leaf /\
  forall fuel, n < fuel -> GetNamed_loop fuel (Some ttype) = Some (Some leaf).
Proof.
  intros H. pose proof (GetNamed_nesting _ _ _ H) as Hnamed.
  split; [exact Hnamed|].
  intros fuel Hfuel. rewrite GetNamed_loop_terminates.
  - cbn [GetNamed]. rewrite Hnamed. reflexivity.
  - rewrite (nesting_wrappers _ _ _ H). exact Hfuel.
Qed.

Lemma GetNamed_innermost_witness :
  GetNamed (Some Sample.NonNullListNonNullString) = Some Sample.StringType /\
  forall fuel, 3 < fuel ->
    GetNamed_loop fuel (Some Sample.NonNullListNonNullString)
    = Some (Some Sample.StringType).
Proof.
  apply (GetNamed_innermost Sample.StringType Sample.NonNullListNonNullString 3).
  eapply nesting_NonNull; [reflexivity|].
  eapply nesting_List; [reflexivity|].
  eapply nesting_NonNull; [reflexivity|].
  apply nesting_leaf. reflexivity.
Defined.

(** ** Descriptions *)

(** C10.  [GetDescription] of an [Object] and of an [Enum] is the empty
    string on every instance.  The constructors do store the configured
    description in the [Description] field (once they have accepted the
    name), and [GetDescription] of a [Scalar], an [Interface], a [Union]
    and an [InputObject] returns it. *)
Theorem GetDescription_Object_Enum_empty :
  (forall gt : Object, Object_GetDescription gt = "") /\
  (forall gt : Enum, Enum_GetDescription gt = "") /\
  (forall (heap : InterfaceHeap) (oc : ObjectConfig),
     assertValidName (ObjectConfig_Name oc) = None ->
     Object_Description (fst (NewObject heap oc)) = ObjectConfig_Description oc) /\
  (forall ec : EnumConfig,
     assertValidName (EnumConfig_Name ec) = None ->
     Enum_Description (NewEnum ec) = EnumConfig_Description ec) /\
  (forall sc : ScalarConfig,
     assertValidName (ScalarConfig_Name sc) = None ->
     Scalar_GetDescription (NewScalar sc) = ScalarConfig_Description sc) /\
  (forall ic : InterfaceConfig,
     assertValidName (InterfaceConfig_Name ic) = None ->
     Interface_GetDescription (NewInterface ic)
     = InterfaceConfig_Description ic) /\
  (forall uc : UnionConfig,
     assertValidName (UnionConfig_Name uc) = None ->
     Union_GetDescription (NewUnion uc) = UnionConfig_Description uc) /\
  (forall ioc : InputObjectConfig,
     InputObjectConfig_Name ioc <> "" ->
     InputObject_GetDescription (NewInputObject ioc)
     = InputObjectConfig_Description ioc).
Proof.
  split; [reflexivity|]. split; [reflexivity|].
  repeat split.
  - intros heap oc Ho. unfold NewObject. rewrite Ho.
    destruct (decide _) as [E|_];
      [apply assertValidName_nonempty in Ho; contradiction|].
    unfold Object_GetInterfaces. cbn [Object_typeConfig].
    destruct (ObjectConfig_Interfaces oc); cbn;
      try destruct (defineInterfaces _ _ _); reflexivity.
  - intros ec He. unfold NewEnum. rewrite He.
    destruct (Enum_defineEnumValues _ _). reflexivity.
  - intros sc Hs. unfold NewScalar. rewrite Hs.
    destruct (decide _) as [E|_];
      [apply assertValidName_nonempty in Hs; contradiction|].
    destruct (ScalarConfig_Serialize sc); [|reflexivity].
    destruct (ScalarConfig_ParseValue sc), (ScalarConfig_ParseLiteral sc);
      reflexivity.
  - intros ic Hi. unfold NewInterface. rewrite Hi.
    destruct (decide _) as [E|_];
      [apply assertValidName_nonempty in Hi; contradiction|].
    reflexivity.
  - intros uc Hu. unfold NewUnion. rewrite Hu.
    destruct (decide _) as [E|_];
      [apply assertValidName_nonempty in Hu; contradiction|].
    destruct (decide _); [reflexivity|].
    destruct (NewUnion_range _ _ _); reflexivity.
  - intros ioc Hio. unfold NewInputObject.
    destruct (decide _) as [E|_]; [contradiction|].
    unfold InputObject_defineFieldMap. cbn [InputObject_typeConfig].
    destruct (decide _); [reflexivity|].
    destruct (InputObject_defineFieldMap_range _ _ _) as [m [e|]]; reflexivity.
Qed.

(** On the samples: the descriptions are stored, and [Object] and [Enum]
    do not return them. *)
Lemma GetDescription_Object_Enum_empty_witness :
  Object_Description (fst (NewObject Sample.heap Sample.DogConfig)) = "a dog" /\
  Object_GetDescription (fst (NewObject Sample.heap Sample.DogConfig)) = "" /\
  Enum_Description (NewEnum Sample.RGBConfig) = "a colour" /\
  Enum_GetDescription (NewEnum Sample.RGBConfig) = "" /\
  Scalar_GetDescription (NewScalar Sample.StringConfig) = "text" /\
  Interface_GetDescription (NewInterface Sample.NodeConfig) = "a node" /\
  Union_GetDescription (NewUnion Sample.PetConfig) = "a pet" /\
  InputObject_GetDescription (NewInputObject Sample.GeoPointConfig) = "a point".
Proof.
  destruct GetDescription_Object_Enum_empty
    as (HObject & HEnum & Ho & He & Hs & Hi & Hu & Hio).
  split; [apply (Ho Sample.heap Sample.DogConfig); reflexivity|].
  split; [apply HObject|].
  split; [apply (He Sample.RGBConfig); reflexivity|].
  split; [apply HEnum|].
  split; [apply (Hs Sample.StringConfig); reflexivity|].
  split; [apply (Hi Sample.NodeConfig); reflexivity|].
  split; [apply (Hu Sample.PetConfig); reflexivity|].
  apply (Hio Sample.GeoPointConfig); discriminate.
Defined.

(** ** Construction errors of the named types *)

(** C1 does not hold of the code.  A [Scalar] with a valid name and a
    [Serialize] function but neither [ParseValue] nor [ParseLiteral] is
    built with an error, where C1 expects none: the test of [NewScalar]
    refuses a config as soon as one of the two is nil, also when both
    are. *)
Theorem NewScalar_serialize_only_rejected (config : ScalarConfig) :
  assertValidName (ScalarConfig_Name config) = None ->
  ScalarConfig_Serialize config <> None ->
  ScalarConfig_ParseValue config = None ->
  ScalarConfig_ParseLiteral config = None ->
  Scalar_GetError (NewScalar config)
  = Some (NewFormattedError
            (NewScalar_parse_message (ScalarConfig_Name config))).
Proof.
  intros Hname Hser Hpv Hpl. unfold NewScalar.
  destruct (decide _) as [E|_];
    [apply assertValidName_nonempty in Hname; contradiction|].
  rewrite Hname.
  destruct (ScalarConfig_Serialize config); [|contradiction].
  rewrite Hpv. reflexivity.
Qed.

(** On the scalar of the documentation, [NewScalar] records the error
    [Odd must provide both "parseValue" and "parseLiteral" functions.] *)
Lemma NewScalar_Odd_rejected :
  Scalar_GetError (NewScalar Sample.OddConfig)
  = Some (NewFormattedError (NewScalar_parse_message "Odd")).
Proof.
  apply (NewScalar_serialize_only_rejected Sample.OddConfig);
    solve [reflexivity | discriminate].
Defined.

(** [NewScalar] succeeds exactly when the name is valid and the three
    functions are supplied. *)
Lemma NewScalar_ok_iff (config : ScalarConfig) :
  Scalar_GetError (NewScalar config) = None <->
  assertValidName (ScalarConfig_Name config) = None /\
  ScalarConfig_Serialize config <> None /\
  ScalarConfig_ParseValue config <> None /\
  ScalarConfig_ParseLiteral config <> None.
Proof.
  unfold NewScalar. destruct (decide _) as [E|_].
  - rewrite E. split; [discriminate | intros [H _]; discriminate H].
  - destruct (assertValidName _);
      [split; [discriminate | intros [H _]; discriminate H]|].
    destruct (ScalarConfig_Serialize config),
             (ScalarConfig_ParseValue config),
             (ScalarConfig_ParseLiteral config); cbn;
      intuition (discriminate || congruence).
Qed.

(** The constructors of the other named types check the name against the
    identifier rule. *)
Lemma named_constructors_check_name
    (sc : ScalarConfig) (heap : InterfaceHeap) (oc : ObjectConfig)
    (ic : InterfaceConfig) (uc : UnionConfig) (ec : EnumConfig) :
  (assertValidName (ScalarConfig_Name sc) <> None ->
   Scalar_GetError (NewScalar sc) <> None) /\
  (assertValidName (ObjectConfig_Name oc) <> None ->
   Object_GetError (fst (NewObject heap oc)) <> None) /\
  (assertValidName (InterfaceConfig_Name ic) <> None ->
   Interface_GetError (NewInterface ic) <> None) /\
  (assertValidName (UnionConfig_Name uc) <> None ->
   Union_GetError (NewUnion uc) <> None) /\
  (assertValidName (EnumConfig_Name ec) <> None ->
   Enum_GetError (NewEnum ec) <> None).
Proof.
  repeat split; intros H.
  - unfold NewScalar. destruct (decide _); [discriminate|].
    destruct (assertValidName _); [discriminate | contradiction].
  - unfold NewObject. destruct (decide _); [discriminate|].
    destruct (assertValidName _); [discriminate | contradiction].
  - unfold NewInterface. destruct (decide _); [discriminate|].
    destruct (assertValidName _); [discriminate | contradiction].
  - unfold NewUnion. destruct (decide _); [discriminate|].
    destruct (assertValidName _); [discriminate | contradiction].
  - unfold NewEnum.
    destruct (assertValidName _); [discriminate | contradiction].
Qed.

(** C9, on an input object named [1bad]: the name violates the identifier
    rule, and [NewInputObject], which only tests the name against the empty
    string, records no error. *)
Theorem NewInputObject_name_unchecked :
  assertValidName (InputObjectConfig_Name Sample.BadNameInputConfig) <> None /\
  InputObject_GetError (NewInputObject Sample.BadNameInputConfig) = None /\
  InputObject_GetName (NewInputObject Sample.BadNameInputConfig) = "1bad".
Proof. split; [discriminate|]. split; reflexivity. Qed.

(** ** Abstract-type resolution *)

(** On possible types none of which is nil, the loop of [getTypeOf] returns
    the first one whose [IsTypeOf] exists and answers true, or nil. *)
Lemma getTypeOf_range_first (value : GoValue) (info : ResolveInfo)
    (possibleTypes : list (option Object)) :
  Forall is_Some possibleTypes ->
  exists result,
    getTypeOf_range value info possibleTypes = Returns result /\
    firstTypeOf value info possibleTypes result.
Proof.
  induction 1 as [|possibleType rest [o ->] _ (result & Hrun & Hfirst)].
  - exists None. split; [reflexivity | constructor].
  - cbn [getTypeOf_range].
    destruct (Object_IsTypeOf o) as [isTypeOf|] eqn:HisTypeOf.
    + destruct (isTypeOf value info) eqn:Hanswer.
      * exists (Some o). split; [reflexivity|].
        exists [], rest, isTypeOf. repeat split; auto.
      * exists result. split; [exact Hrun|].
        assert (Hskip : passedOver value info (Some o))
          by (cbn; rewrite HisTypeOf; exact Hanswer).
        destruct result as [o'|].
        -- destruct Hfirst as (before & after & f & -> & Hf & Hyes & Hbefore).
           exists (Some o :: before), after, f. repeat split; auto.
        -- constructor; assumption.
    + exists result. split; [exact Hrun|].
      assert (Hskip : passedOver value info (Some o))
        by (cbn; rewrite HisTypeOf; exact I).
      destruct result as [o'|].
      * destruct Hfirst as (before & after & f & -> & Hf & Hyes & Hbefore).
        exists (Some o :: before), after, f. repeat split; auto.
      * constructor; assumption.
Qed.

(** The description determines the result: two results that are both first
    matches sit at the same place of the list. *)
Lemma firstTypeOf_None_Some (value : GoValue) (info : ResolveInfo)
    (possibleTypes : list (option Object)) (o : Object) :
  firstTypeOf value info possibleTypes None ->
  firstTypeOf value info possibleTypes (Some o) -> False.
Proof.
  intros Hnone (before & after & f & -> & Hf & Hyes & _).
  cbn in Hnone. apply Forall_app in Hnone as [_ Hnone].
  apply Forall_cons_iff in Hnone as [Hskip _].
  cbn in Hskip. rewrite Hf in Hskip. congruence.
Qed.

(** The members that [NewUnion] keeps are never nil. *)
Lemma NewUnion_range_not_nil (name : string) (resolveType : bool)
    (Types : list (option Object)) :
  NewUnion_range name resolveType Types = None -> Forall is_Some Types.
Proof.
  induction Types as [|[o|] rest IH]; cbn [NewUnion_range]; intros H.
  - constructor.
  - destruct (_ && _); [discriminate|]. constructor; eauto.
  - discriminate.
Qed.

Lemma NewUnion_types_not_nil (config : UnionConfig) :
  Forall is_Some (Union_types (NewUnion config)).
Proof.
  unfold NewUnion. destruct (decide _); [constructor|].
  destruct (assertValidName _); [constructor|].
  destruct (decide _); [constructor|].
  destruct (NewUnion_range _ _ _) eqn:Hrange; [constructor|].
  cbn. eapply NewUnion_range_not_nil; eassumption.
Qed.

Lemma Interface_possibleTypes_not_nil (it : Interface) :
  Forall is_Some (Interface_GetPossibleTypes it).
Proof.
  unfold Interface_GetPossibleTypes.
  induction (Interface_implementations it); constructor; eauto.
Qed.

(** C4.  For a [Union] (as [NewUnion] builds it) and for an [Interface]
    without [ResolveType], [GetObjectType] returns, without panicking, the
    first possible type, in the order of [GetPossibleTypes], that has an
    [IsTypeOf] answering true for the value; the possible types before it
    have no [IsTypeOf] or one that answers false; it returns nil when this
    holds of every possible type. *)
Theorem GetObjectType_first_isTypeOf
    (config : UnionConfig) (it : Interface)
    (value : GoValue) (info : ResolveInfo) :
  Union_ResolveType (NewUnion config) = None ->
  Interface_ResolveType it = None ->
  (exists result,
     Union_GetObjectType (NewUnion config) value info = Returns result /\
     firstTypeOf value info (Union_GetPossibleTypes (NewUnion config)) result) /\
  (exists result,
     Interface_GetObjectType it value info = Returns result /\
     firstTypeOf value info (Interface_GetPossibleTypes it) result).
Proof.
  intros Hu Hi. split.
  - unfold Union_GetObjectType. rewrite Hu.
    apply getTypeOf_range_first, NewUnion_types_not_nil.
  - unfold Interface_GetObjectType. rewrite Hi.
    apply getTypeOf_range_first, Interface_possibleTypes_not_nil.
Qed.

Lemma GetObjectType_first_isTypeOf_witness :
  (exists result,
     Union_GetObjectType (NewUnion Sample.PetConfig) (GoString "cat") Sample.info
     = Returns result /\
     firstTypeOf (GoString "cat") Sample.info
       (Union_GetPossibleTypes (NewUnion Sample.PetConfig)) result) /\
  (exists result,
     Interface_GetObjectType Sample.Node (GoString "cat") Sample.info
     = Returns result /\
     firstTypeOf (GoString "cat") Sample.info
       (Interface_GetPossibleTypes Sample.Node) result).
Proof.
  apply (GetObjectType_first_isTypeOf Sample.PetConfig Sample.Node
           (GoString "cat") Sample.info); reflexivity.
Defined.

(** The sample union resolves a cat to [Cat], a dog to [Dog], and anything
    else to nil. *)
Example Pet_GetObjectType :
  Union_GetObjectType (NewUnion Sample.PetConfig) (GoString "cat") Sample.info
  = Returns (Some Sample.Cat) /\
  Union_GetObjectType (NewUnion Sample.PetConfig) (GoString "dog") Sample.info
  = Returns (Some Sample.Dog) /\
  Union_GetObjectType (NewUnion Sample.PetConfig) (GoInt 7) Sample.info
  = Returns None.
Proof. repeat split; reflexivity. Qed.

(** ** Sorting *)

Lemma sort_insert_Permutation {A : Type} (name : A -> string) (x : A)
    (l : list A) : Permutation (sort.insert name x l) (x :: l).
Proof.
  induction l as [|y l IH]; cbn [sort.insert]; [reflexivity|].
  destruct (String.ltb _ _); [reflexivity|].
  rewrite IH. apply perm_swap.
Qed.

Lemma sort_Sort_Permutation {A : Type} (name : A -> string) (l : list A) :
  Permutation (sort.Sort name l) l.
Proof.
  induction l as [|x l IH]; [reflexivity|].
  unfold sort.Sort in *. cbn [fold_right].
  rewrite sort_insert_Permutation, IH. reflexivity.
Qed.

(** ** Enum: the lookup tables *)

Section Tables.

Context {K V : Type} `{Countable K} (key : V -> K).

Let build (l : list V) (m : gmap K V) : gmap K V :=
  fold_left (fun (m : gmap K V) v => <[key v := v]> m) l m.

Lemma build_other (l : list V) (m : gmap K V) (k : K) :
  k ∉ key <$> l -> build l m !! k = m !! k.
Proof.
  revert m. induction l as [|x l IH]; intros m Hk; [reflexivity|].
  rewrite fmap_cons, not_elem_of_cons in Hk. destruct Hk as [Hx Hk].
  cbn. unfold build in IH. rewrite IH by exact Hk.
  apply lookup_insert_ne. congruence.
Qed.

Lemma build_lookup (l : list V) (m : gmap K V) (v : V) :
  NoDup (key <$> l) -> v ∈ l -> build l m !! key v = Some v.
Proof.
  revert m. induction l as [|x l IH]; intros m Hnodup Hin.
  - apply elem_of_nil in Hin. contradiction.
  - rewrite fmap_cons, NoDup_cons in Hnodup. destruct Hnodup as [Hx Hnodup].
    apply elem_of_cons in Hin as [->|Hin].
    + cbn. fold (build l (<[key x := x]> m)).
      rewrite build_other by exact Hx. apply lookup_insert_eq.
    + cbn. apply IH; assumption.
Qed.

End Tables.

(** *** Keys of a map keyed by [interface{}] *)

Lemma SFeqb_true (x y : spec_float) :
  SFeqb x y = true <->
  match x, y with
  | S754_zero _, S754_zero _ => True
  | S754_infinity s, S754_infinity s' => s = s'
  | S754_finite s m e, S754_finite s' m' e' => s = s' /\ m = m' /\ e = e'
  | _, _ => False
  end.
Proof.
  unfold SFeqb.
  destruct x as [s|s| |s m e], y as [s'|s'| |s' m' e']; cbn;
    try (split; [discriminate | contradiction]);
    try (destruct s; cbn; (split; [discriminate | contradiction]));
    try (destruct s'; cbn; (split; [discriminate | contradiction])).
  - split; auto.
  - destruct s, s'; cbn; split; intros H; try reflexivity; discriminate H.
  - change (PosDef.Pos.compare_cont Eq m m') with (Pos.compare m m').
    destruct s, s'; cbn;
      try (split; [discriminate | intros (H & _); discriminate H]);
      destruct (Z.compare_spec e e') as [He|He|He]; cbn;
      try (split; [discriminate | intros (_ & _ & H); lia]);
      destruct (Pos.compare_spec m m') as [Hm|Hm|Hm]; cbn;
      try (split; [discriminate | intros (_ & H & _); lia]);
      (split; [intros _; repeat split; assumption | reflexivity]).
Qed.

Lemma SFeqb_sym (x y : spec_float) : SFeqb x y = true -> SFeqb y x = true.
Proof.
  rewrite !SFeqb_true.
  destruct x, y; try tauto; intuition congruence.
Qed.

Lemma SFeqb_trans (x y z : spec_float) :
  SFeqb x y = true -> SFeqb y z = true -> SFeqb x z = true.
Proof.
  rewrite !SFeqb_true.
  destruct x, y, z; try tauto; intuition congruence.
Qed.

Lemma key_eq_sym (a b : GoValue) :
  gomap.key_eq a b = true -> gomap.key_eq b a = true.
Proof.
  destruct a, b; cbn; try discriminate; try reflexivity.
  - destruct b, b0; auto.
  - rewrite !andb_true_iff, !bool_decide_eq_true, !Z.eqb_eq. intuition.
  - rewrite !andb_true_iff, !bool_decide_eq_true.
    intros [-> H]. split; [reflexivity | apply SFeqb_sym, H].
  - rewrite !String.eqb_eq. auto.
Qed.

Lemma key_eq_trans (a b c : GoValue) :
  gomap.key_eq a b = true -> gomap.key_eq b c = true ->
  gomap.key_eq a c = true.
Proof.
  destruct a, b; cbn; try discriminate; destruct c; cbn; try discriminate;
    try reflexivity.
  - destruct b, b0, b1; auto.
  - rewrite !andb_true_iff, !bool_decide_eq_true, !Z.eqb_eq.
    intuition congruence.
  - rewrite !andb_true_iff, !bool_decide_eq_true.
    intros [-> H1] [-> H2]. split; [reflexivity | exact (SFeqb_trans _ _ _ H1 H2)].
  - rewrite !String.eqb_eq. congruence.
Qed.

(** A key that some key equals can be hashed, and equals itself. *)
Lemma key_eq_hashable (a b : GoValue) :
  gomap.key_eq a b = true -> gomap.hashable a = true /\ gomap.hashable b = true.
Proof. destruct a, b; cbn; try discriminate; auto. Qed.

Lemma key_eq_refl_l (a b : GoValue) :
  gomap.key_eq a b = true -> gomap.key_eq a a = true.
Proof. intros H. exact (key_eq_trans _ _ _ H (key_eq_sym _ _ H)). Qed.

(** Looking a key up after an assignment. *)
Lemma lookup_assign {V : Type} (key key' : GoValue) (v : V) (m : gomap.t V) :
  gomap.lookup key (gomap.assign key' v m)
  = if gomap.key_eq key key' then Some v else gomap.lookup key m.
Proof.
  induction m as [|[key0 v0] m IH]; cbn [gomap.assign gomap.lookup].
  - reflexivity.
  - destruct (gomap.key_eq key' key0) eqn:H0; cbn [gomap.lookup].
    + destruct (gomap.key_eq key key') eqn:H2; [reflexivity|].
      destruct (gomap.key_eq key key0) eqn:H1; [|reflexivity].
      rewrite (key_eq_trans _ _ _ H1 (key_eq_sym _ _ H0)) in H2. discriminate.
    + rewrite IH.
      destruct (gomap.key_eq key key0) eqn:H1, (gomap.key_eq key key') eqn:H2;
        try reflexivity.
      rewrite (key_eq_trans _ _ _ (key_eq_sym _ _ H2) H1) in H0. discriminate.
Qed.

(** *** The table of internal values *)

(** The loop of [getValueLookup] panics exactly when the internal value
    of some value cannot be hashed. *)
Lemma getValueLookup_range_Panics (values : list EnumValueDefinition)
    (m : gomap.t EnumValueDefinition) :
  getValueLookup_range values m = Panics <->
  exists value, value ∈ values /\
                gomap.hashable (EnumValueDefinition_Value value) = false.
Proof.
  revert m. induction values as [|value rest IH]; intros m;
    cbn [getValueLookup_range].
  - split; [discriminate | intros (value & H & _); apply elem_of_nil in H as []].
  - unfold gomap.store.
    destruct (gomap.hashable (EnumValueDefinition_Value value)) eqn:Hhash.
    + rewrite IH. split; intros (value' & Hin & Hvalue').
      * exists value'. split; [apply list_elem_of_further, Hin | exact Hvalue'].
      * apply elem_of_cons in Hin as [->|Hin]; [congruence|eauto].
    + split; [|reflexivity]. intros _. exists value.
      split; [apply list_elem_of_here | exact Hhash].
Qed.

(** What the table built by the loop holds under a key: a value of the
    slice whose internal value is that key, when there is one. *)
Lemma getValueLookup_range_lookup (values : list EnumValueDefinition)
    (m0 m : gomap.t EnumValueDefinition) (key : GoValue) :
  getValueLookup_range values m0 = Returns m ->
  (exists value,
     gomap.lookup key m = Some value /\ value ∈ values /\
     gomap.key_eq key (EnumValueDefinition_Value value) = true) \/
  ((forall value, value ∈ values ->
      gomap.key_eq key (EnumValueDefinition_Value value) = false) /\
   gomap.lookup key m = gomap.lookup key m0).
Proof.
  revert m0. induction values as [|value rest IH]; intros m0;
    cbn [getValueLookup_range].
  - intros [= ->]. right. split; [|reflexivity].
    intros value H. apply elem_of_nil in H as [].
  - unfold gomap.store.
    destruct (gomap.hashable (EnumValueDefinition_Value value)); [|discriminate].
    intros Hrun. destruct (IH _ Hrun) as [(found & Hm & Hin & Hkey)|[Hnone Hm]].
    + left. exists found. auto using list_elem_of_further.
    + rewrite lookup_assign in Hm.
      destruct (gomap.key_eq key (EnumValueDefinition_Value value)) eqn:Hkey.
      * left. exists value. auto using list_elem_of_here.
      * right. split; [|exact Hm]. intros value' Hin.
        apply elem_of_cons in Hin as [->|Hin]; auto.
Qed.

Lemma valueTable_Returns (values : list EnumValueDefinition) :
  (forall value, value ∈ values ->
     gomap.hashable (EnumValueDefinition_Value value) = true) ->
  exists m, valueTable values = Returns m.
Proof.
  intros Hall. destruct (valueTable values) as [m|] eqn:Htable; [eauto|].
  apply getValueLookup_range_Panics in Htable as (value & Hin & Hvalue).
  rewrite (Hall value Hin) in Hvalue. discriminate.
Qed.

Lemma Enum_getValueLookup_ok (gt : Enum) :
  Enum_tables_ok gt ->
  match valueTable (Enum_values gt) with
  | Returns m =>
      exists gt', Enum_getValueLookup gt = Returns (m, gt') /\
                  Enum_tables_ok gt' /\
                  Enum_values gt' = Enum_values gt /\
                  Enum_err gt' = Enum_err gt
  | Panics => Enum_getValueLookup gt = Panics
  end.
Proof.
  intros [Hvalues Hnames]. unfold Enum_getValueLookup, Enum_GetValues.
  fold (valueTable (Enum_values gt)).
  destruct (decide _) as [Hsize|_].
  - destruct Hvalues as [Hempty|Htable].
    + rewrite Hempty in Hsize. cbn in Hsize. lia.
    + rewrite Htable. exists gt. repeat split; auto.
  - destruct (valueTable (Enum_values gt)) as [m|] eqn:Htable; [|reflexivity].
    eexists. split; [reflexivity|]. repeat split; cbn; auto.
Qed.

Lemma Enum_getNameLookup_ok (gt : Enum) :
  Enum_tables_ok gt ->
  fst (Enum_getNameLookup gt) = nameTable (Enum_values gt) /\
  Enum_tables_ok (snd (Enum_getNameLookup gt)) /\
  Enum_values (snd (Enum_getNameLookup gt)) = Enum_values gt /\
  Enum_err (snd (Enum_getNameLookup gt)) = Enum_err gt.
Proof.
  intros [Hvalues Hnames]. unfold Enum_getNameLookup.
  destruct (decide _) as [Hsize|_]; cbn.
  - destruct Hnames as [Hempty|Htable].
    + rewrite Hempty, map_size_empty in Hsize. lia.
    + repeat split; auto.
  - repeat split; try (right; reflexivity); auto.
Qed.

(** What [Serialize] and [ParseValue] compute, in terms of the tables. *)
Lemma Enum_Serialize_ok (gt : Enum) (value : GoValue) :
  Enum_tables_ok gt ->
  match valueTable (Enum_values gt) with
  | Returns m =>
      if gomap.hashable value then
        exists gt',
          Enum_Serialize gt value
          = Returns (match gomap.lookup value m with
                     | Some enumValue =>
                         GoString (EnumValueDefinition_Name enumValue)
                     | None => GoNil
                     end, gt') /\
          Enum_tables_ok gt' /\
          Enum_values gt' = Enum_values gt /\
          Enum_err gt' = Enum_err gt
      else Enum_Serialize gt value = Panics
  | Panics => Enum_Serialize gt value = Panics
  end.
Proof.
  intros Hok. unfold Enum_Serialize.
  pose proof (Enum_getValueLookup_ok gt Hok) as Hlookup.
  destruct (valueTable (Enum_values gt)) as [m|].
  - destruct Hlookup as (gt' & -> & Hok' & Hvalues & Herr).
    unfold gomap.index. destruct (gomap.hashable value); [|reflexivity].
    exists gt'. destruct (gomap.lookup value m); auto.
  - rewrite Hlookup. reflexivity.
Qed.

(** A call of [Serialize] that returns leaves the values and the error of
    the enum as they were, and its tables right. *)
Lemma Enum_Serialize_Returns (gt gt' : Enum) (value result : GoValue) :
  Enum_tables_ok gt ->
  Enum_Serialize gt value = Returns (result, gt') ->
  Enum_tables_ok gt' /\ Enum_values gt' = Enum_values gt /\
  Enum_err gt' = Enum_err gt.
Proof.
  intros Hok Hrun. pose proof (Enum_Serialize_ok gt value Hok) as Hs.
  destruct (valueTable (Enum_values gt)); [|congruence].
  destruct (gomap.hashable value); [|congruence].
  destruct Hs as (gt'' & Heq & H). rewrite Heq in Hrun.
  injection Hrun as _ <-. exact H.
Qed.

Lemma Enum_ParseName_ok (gt : Enum) (valueStr : string) :
  Enum_tables_ok gt ->
  fst (Enum_ParseValue gt (GoString valueStr))
  = match nameTable (Enum_values gt) !! valueStr with
    | Some enumValue => EnumValueDefinition_Value enumValue
    | None => GoNil
    end /\
  Enum_tables_ok (snd (Enum_ParseValue gt (GoString valueStr))) /\
  Enum_values (snd (Enum_ParseValue gt (GoString valueStr))) = Enum_values gt /\
  Enum_err (snd (Enum_ParseValue gt (GoString valueStr))) = Enum_err gt.
Proof.
  intros Hok. unfold Enum_ParseValue.
  destruct (Enum_getNameLookup_ok gt Hok) as (Htable & Hok' & Hvalues & Herr).
  destruct (Enum_getNameLookup gt) as [nameLookup gt']. cbn in *. subst.
  destruct (_ !! valueStr); cbn; auto.
Qed.

Lemma Enum_ParseValue_ok (gt : Enum) (value : GoValue) :
  Enum_tables_ok gt ->
  Enum_tables_ok (snd (Enum_ParseValue gt value)) /\
  Enum_values (snd (Enum_ParseValue gt value)) = Enum_values gt /\
  Enum_err (snd (Enum_ParseValue gt value)) = Enum_err gt.
Proof.
  intros Hok. destruct value as [ | b | k n | k f | s | l ];
    try (cbn; auto; fail).
  apply (Enum_ParseName_ok gt s Hok).
Qed.

Lemma Enum_ParseLiteral_ok (gt : Enum) (valueAST : ast.Value) :
  Enum_tables_ok gt ->
  Enum_tables_ok (snd (Enum_ParseLiteral gt valueAST)) /\
  Enum_values (snd (Enum_ParseLiteral gt valueAST)) = Enum_values gt /\
  Enum_err (snd (Enum_ParseLiteral gt valueAST)) = Enum_err gt.
Proof.
  intros Hok. destruct valueAST as [s|k]; [|cbn; auto].
  unfold Enum_ParseLiteral.
  destruct (Enum_getNameLookup_ok gt Hok) as (Htable & Hok' & Hvalues & Herr).
  destruct (Enum_getNameLookup gt) as [nameLookup gt']. cbn in *.
  destruct (_ !! s); cbn; auto.
Qed.

Lemma NewEnum_tables_ok (config : EnumConfig) : Enum_tables_ok (NewEnum config).
Proof.
  unfold NewEnum. destruct (assertValidName _).
  - split; left; reflexivity.
  - destruct (Enum_defineEnumValues _ _). split; left; reflexivity.
Qed.

(** The lookups never change the values or the error of an enum, and keep
    its tables right. *)
Lemma Enum_reachable_ok (config : EnumConfig) (gt : Enum) :
  Enum_reachable config gt ->
  Enum_tables_ok gt /\
  Enum_values gt = Enum_values (NewEnum config) /\
  Enum_err gt = Enum_err (NewEnum config).
Proof.
  induction 1 as [ | gt value result gt' _ (Hok & Hvalues & Herr) Hrun
                 | gt value _ (Hok & Hvalues & Herr)
                 | gt valueAST _ (Hok & Hvalues & Herr) ].
  - split; [apply NewEnum_tables_ok | split; reflexivity].
  - destruct (Enum_Serialize_Returns gt gt' value result Hok Hrun)
      as (Hok' & Hv & He).
    rewrite Hv, He. auto.
  - destruct (Enum_ParseValue_ok gt value Hok) as (Hok' & Hv & He).
    rewrite Hv, He. auto.
  - destruct (Enum_ParseLiteral_ok gt valueAST Hok) as (Hok' & Hv & He).
    rewrite Hv, He. auto.
Qed.

(** The values of a valid enum carry the names of the config, each once. *)
Lemma defineEnumValues_range_names (gt : string)
    (valueMap : EnumValueConfigMap) (values values' : list EnumValueDefinition) :
  defineEnumValues_range gt valueMap values = (values', None) ->
  EnumValueDefinition_Name <$> values'
  = (EnumValueDefinition_Name <$> values) ++ (fst <$> valueMap).
Proof.
  revert values. induction valueMap as [|[valueName [valueConfig|]] rest IH];
    intros values; cbn [defineEnumValues_range].
  - intros [= ->]. rewrite app_nil_r. reflexivity.
  - destruct (assertValidName valueName); [discriminate|].
    intros Hrun. rewrite (IH _ Hrun), fmap_app, <- app_assoc. reflexivity.
  - discriminate.
Qed.

Lemma NewEnum_names (config : EnumConfig) :
  Enum_GetError (NewEnum config) = None ->
  EnumValueDefinition_Name <$> Enum_GetValues (NewEnum config)
  ≡ₚ fst <$> EnumConfig_Values config.
Proof.
  unfold NewEnum, Enum_GetError, Enum_GetValues.
  destruct (assertValidName _); [discriminate|].
  unfold Enum_defineEnumValues. destruct (decide _); [discriminate|].
  destruct (defineEnumValues_range _ _ _) as [values [err|]] eqn:Hrun;
    [discriminate|].
  intros _. cbn [Enum_values].
  rewrite sort_Sort_Permutation.
  rewrite (defineEnumValues_range_names _ _ _ _ Hrun). reflexivity.
Qed.

(** The values of a valid enum are the definitions of the entries of the
    config, every entry having a config; [sort.Sort] only reorders them. *)
Lemma defineEnumValues_range_values (gt : string)
    (valueMap : EnumValueConfigMap) (values values' : list EnumValueDefinition) :
  defineEnumValues_range gt valueMap values = (values', None) ->
  values'
  = values
    ++ omap (fun entry => EnumValueDefinition_of (fst entry) <$> snd entry)
         valueMap.
Proof.
  revert values. induction valueMap as [|[valueName [valueConfig|]] rest IH];
    intros values; cbn [defineEnumValues_range].
  - intros [= ->]. rewrite app_nil_r. reflexivity.
  - destruct (assertValidName valueName); [discriminate|].
    intros Hrun. rewrite (IH _ Hrun), <- app_assoc. reflexivity.
  - discriminate.
Qed.

Lemma NewEnum_values (config : EnumConfig) :
  Enum_GetError (NewEnum config) = None ->
  Enum_GetValues (NewEnum config)
  ≡ₚ omap (fun entry => EnumValueDefinition_of (fst entry) <$> snd entry)
       (EnumConfig_Values config).
Proof.
  unfold NewEnum, Enum_GetError, Enum_GetValues.
  destruct (assertValidName _); [discriminate|].
  unfold Enum_defineEnumValues. destruct (decide _); [discriminate|].
  destruct (defineEnumValues_range _ _ _) as [values [err|]] eqn:Hrun;
    [discriminate|].
  intros _. cbn [Enum_values].
  rewrite sort_Sort_Permutation.
  rewrite (defineEnumValues_range_values _ _ _ _ Hrun). reflexivity.
Qed.

(** [Serialize] on the internal value of a value of the enum, when every
    internal value can be hashed and this one equals itself: the name
    returned is that of a value with an equal internal value. *)
Lemma Enum_Serialize_found (gt : Enum) (value : EnumValueDefinition) :
  Enum_tables_ok gt ->
  (forall value', value' ∈ Enum_values gt ->
     gomap.hashable (EnumValueDefinition_Value value') = true) ->
  value ∈ Enum_values gt ->
  gomap.key_eq (EnumValueDefinition_Value value)
    (EnumValueDefinition_Value value) = true ->
  exists found gt',
    Enum_Serialize gt (EnumValueDefinition_Value value)
    = Returns (GoString (EnumValueDefinition_Name found), gt') /\
    found ∈ Enum_values gt /\
    gomap.key_eq (EnumValueDefinition_Value value)
      (EnumValueDefinition_Value found) = true /\
    Enum_tables_ok gt' /\ Enum_values gt' = Enum_values gt /\
    Enum_err gt' = Enum_err gt.
Proof.
  intros Hok Hhash Hin Hself.
  pose proof (Enum_Serialize_ok gt (EnumValueDefinition_Value value) Hok) as Hs.
  destruct (valueTable_Returns (Enum_values gt) Hhash) as [m Htable].
  rewrite Htable, (Hhash value Hin) in Hs.
  destruct Hs as (gt' & Hs & Hrest).
  destruct (getValueLookup_range_lookup (Enum_values gt) [] m
              (EnumValueDefinition_Value value) Htable)
    as [(found & Hm & Hfound & Hkey)|[Hnone _]].
  - rewrite Hm in Hs. exists found, gt'. auto.
  - rewrite (Hnone value Hin) in Hself. discriminate.
Qed.

(** An enum built without error has the declared values. *)
Lemma Enum_reachable_declared (config : EnumConfig) (gt : Enum) :
  Enum_reachable config gt ->
  Enum_GetError gt = None ->
  NoDup (fst <$> EnumConfig_Values config) ->
  Enum_tables_ok gt /\
  Enum_values gt ≡ₚ Enum_declared config /\
  NoDup (EnumValueDefinition_Name <$> Enum_values gt).
Proof.
  intros Hreach Herr Hkeys.
  destruct (Enum_reachable_ok config gt Hreach) as (Hok & Hsame & Hsame_err).
  assert (Herr' : Enum_GetError (NewEnum config) = None)
    by (unfold Enum_GetError in *; congruence).
  split; [exact Hok|]. rewrite Hsame. split.
  - apply (NewEnum_values config Herr').
  - pose proof (NewEnum_names config Herr') as Hnames.
    unfold Enum_GetValues in Hnames. rewrite Hnames. exact Hkeys.
Qed.

(** C5 holds of the code in this form.  Take an enum built without error
    from a config whose value names are pairwise distinct, in any state
    its lookups can leave it in, and let the internal values it declares
    (the name standing in for a nil value) equal themselves under [==],
    so that they can be hashed and are not NaN, and be pairwise unequal.
    For every declared value, [Serialize] of the internal value returns
    the name, which [ParseValue] parses to the internal value; and
    [ParseValue] of the name returns the internal value, which
    [Serialize] turns into the name. *)
Theorem Enum_round_trip (config : EnumConfig) (gt : Enum)
    (valueName : string) (valueConfig : EnumValueConfig) :
  Enum_reachable config gt ->
  Enum_GetError gt = None ->
  NoDup (fst <$> EnumConfig_Values config) ->
  (forall value, value ∈ Enum_declared config ->
     gomap.key_eq (EnumValueDefinition_Value value)
       (EnumValueDefinition_Value value) = true) ->
  (forall value value',
     value ∈ Enum_declared config -> value' ∈ Enum_declared config ->
     gomap.key_eq (EnumValueDefinition_Value value)
       (EnumValueDefinition_Value value') = true ->
     value = value') ->
  (valueName, Some valueConfig) ∈ EnumConfig_Values config ->
  let internalValue :=
    EnumValueDefinition_Value (EnumValueDefinition_of valueName valueConfig) in
  let parsed := Enum_ParseValue gt (GoString valueName) in
  (exists gt',
     Enum_Serialize gt internalValue = Returns (GoString valueName, gt') /\
     fst (Enum_ParseValue gt' (GoString valueName)) = internalValue) /\
  fst parsed = internalValue /\
  (exists gt',
     Enum_Serialize (snd parsed) (fst parsed)
     = Returns (GoString valueName, gt')).
Proof.
  intros Hreach Herr Hkeys Hself Hdistinct Hentry internalValue parsed.
  destruct (Enum_reachable_declared config gt Hreach Herr Hkeys)
    as (Hok & Hvalues & Hnames).
  set (value := EnumValueDefinition_of valueName valueConfig) in *.
  assert (Hdeclared : value ∈ Enum_declared config).
  { apply list_elem_of_omap. exists (valueName, Some valueConfig).
    split; [exact Hentry | reflexivity]. }
  assert (Hin : value ∈ Enum_values gt) by (rewrite Hvalues; exact Hdeclared).
  assert (Hhash : forall gt', Enum_values gt' = Enum_values gt ->
            forall value', value' ∈ Enum_values gt' ->
            gomap.hashable (EnumValueDefinition_Value value') = true).
  { intros gt' Heq value' Hin'. rewrite Heq, Hvalues in Hin'.
    apply (key_eq_hashable _ _ (Hself value' Hin')). }
  assert (HbyName : nameTable (Enum_values gt)
                      !! valueName = Some value).
  { apply (build_lookup EnumValueDefinition_Name _ _ value Hnames Hin). }
  assert (Hserialize : forall gt0,
            Enum_tables_ok gt0 -> Enum_values gt0 = Enum_values gt ->
            exists gt',
              Enum_Serialize gt0 internalValue
              = Returns (GoString valueName, gt') /\
              Enum_tables_ok gt' /\ Enum_values gt' = Enum_values gt).
  { intros gt0 Hok0 Heq0.
    destruct (Enum_Serialize_found gt0 value Hok0 (Hhash gt0 Heq0))
      as (found & gt' & Hs & Hfound & Hkey & Hok' & Hv' & _).
    - rewrite Heq0. exact Hin.
    - apply Hself, Hdeclared.
    - rewrite Heq0, Hvalues in Hfound.
      rewrite <- (Hdistinct value found Hdeclared Hfound Hkey) in Hs.
      exists gt'. split; [exact Hs|]. split; [exact Hok' | congruence]. }
  destruct (Enum_ParseName_ok gt valueName Hok) as (Hp & Hokp & Hvp & _).
  rewrite HbyName in Hp. fold parsed in Hp, Hokp, Hvp.
  split; [|split].
  - destruct (Hserialize gt Hok eq_refl) as (gt' & Hs & Hok' & Hv').
    exists gt'. split; [exact Hs|].
    destruct (Enum_ParseName_ok gt' valueName Hok') as (-> & _).
    rewrite Hv', HbyName. reflexivity.
  - exact Hp.
  - rewrite Hp. destruct (Hserialize (snd parsed) Hokp Hvp) as (gt' & Hs & _).
    exists gt'. exact Hs.
Qed.

Lemma Enum_round_trip_witness :
  (exists gt',
     Enum_Serialize (NewEnum Sample.RGBConfig) (GoString "BLUE")
     = Returns (GoString "BLUE", gt') /\
     fst (Enum_ParseValue gt' (GoString "BLUE")) = GoString "BLUE") /\
  fst (Enum_ParseValue (NewEnum Sample.RGBConfig) (GoString "BLUE"))
  = GoString "BLUE" /\
  (exists gt',
     Enum_Serialize
       (snd (Enum_ParseValue (NewEnum Sample.RGBConfig) (GoString "BLUE")))
       (fst (Enum_ParseValue (NewEnum Sample.RGBConfig) (GoString "BLUE")))
     = Returns (GoString "BLUE", gt')).
Proof.
  apply (Enum_round_trip Sample.RGBConfig (NewEnum Sample.RGBConfig) "BLUE"
           {| EnumValueConfig_Value := GoNil;
              EnumValueConfig_DeprecationReason := "";
              EnumValueConfig_Description := "" |}).
  - constructor.
  - reflexivity.
  - apply (@bool_decide_unpack _ (NoDup_dec _)). vm_compute. exact I.
  - intros value Hin. apply list_elem_of_In in Hin. vm_compute in Hin.
    destruct Hin as [<-|[<-|[<-|[]]]]; reflexivity.
  - intros value value' Hin Hin'.
    apply list_elem_of_In in Hin, Hin'. vm_compute in Hin, Hin'.
    destruct Hin as [<-|[<-|[<-|[]]]], Hin' as [<-|[<-|[<-|[]]]];
      vm_compute; intros H; try reflexivity; discriminate H.
  - apply list_elem_of_further, list_elem_of_further, list_elem_of_here.
Defined.

(** C5 as it is worded fails on an internal value that is NaN or cannot
    be hashed.  [Ratio] is built without error, its names and its internal
    values are pairwise distinct; yet [Serialize] of NaN is nil, so neither
    round trip gives back what it started from.  [Path] is built without
    error too, and [Serialize] of its internal value panics. *)
Lemma Enum_round_trip_counterexample :
  Enum_GetError (NewEnum MoreSample.RatioConfig) = None /\
  NoDup (fst <$> EnumConfig_Values MoreSample.RatioConfig) /\
  NoDup (EnumValueDefinition_Value <$> Enum_declared MoreSample.RatioConfig) /\
  ("NAN", GoFloat KFloat64 S754_nan)
    ∈ (fun value => (EnumValueDefinition_Name value,
                     EnumValueDefinition_Value value))
      <$> Enum_declared MoreSample.RatioConfig /\
  (exists gt',
     Enum_Serialize (NewEnum MoreSample.RatioConfig) (GoFloat KFloat64 S754_nan)
     = Returns (GoNil, gt') /\
     fst (Enum_ParseValue gt' GoNil) = GoNil /\
     GoNil <> GoFloat KFloat64 S754_nan) /\
  (let parsed :=
     Enum_ParseValue (NewEnum MoreSample.RatioConfig) (GoString "NAN") in
   fst parsed = GoFloat KFloat64 S754_nan /\
   exists gt',
     Enum_Serialize (snd parsed) (fst parsed) = Returns (GoNil, gt') /\
     GoNil <> GoString "NAN") /\
  Enum_GetError (NewEnum MoreSample.PathConfig) = None /\
  Enum_Serialize (NewEnum MoreSample.PathConfig) (GoSlice [1%Z]) = Panics.
Proof.
  split; [reflexivity|].
  split; [apply (@bool_decide_unpack _ (NoDup_dec _)); vm_compute; exact I|].
  split; [apply (@bool_decide_unpack _ (NoDup_dec _)); vm_compute; exact I|].
  split; [apply list_elem_of_here|].
  split; [eexists; split; [reflexivity | split; [reflexivity | discriminate]]|].
  split; [split; [reflexivity | eexists; split; [reflexivity | discriminate]]|].
  split; reflexivity.
Qed.

(** The sample enum: its values come out sorted by name, an unset internal
    value is the name, and a second lookup reads the table the first one
    kept. *)
Example RGB_values :
  EnumValueDefinition_Name <$> Enum_GetValues (NewEnum Sample.RGBConfig)
  = ["BLUE"; "GREEN"; "RED"] /\
  EnumValueDefinition_Value <$> Enum_GetValues (NewEnum Sample.RGBConfig)
  = [GoString "BLUE"; GoInt 1; GoInt 0] /\
  (exists gt',
     Enum_Serialize (NewEnum Sample.RGBConfig) (GoInt 0)
     = Returns (GoString "RED", gt') /\
     exists gt'', Enum_Serialize gt' (GoInt 1) = Returns (GoString "GREEN", gt'')) /\
  (exists gt',
     Enum_Serialize (NewEnum Sample.RGBConfig) (GoInt 5) = Returns (GoNil, gt')) /\
  (exists gt',
     Enum_Serialize (NewEnum Sample.RGBConfig) (GoInteger KInt64 0)
     = Returns (GoNil, gt')) /\
  fst (Enum_ParseValue (NewEnum Sample.RGBConfig) (GoString "RED")) = GoInt 0 /\
  fst (Enum_ParseValue (NewEnum Sample.RGBConfig) (GoInt 0)) = GoNil.
Proof.
  repeat split; try (vm_compute; reflexivity);
    repeat (eexists; try split); vm_compute; reflexivity.
Qed.

(** ** Object: the interfaces *)

(** The loop of [defineInterfaces] stops at the first interface without
    [ResolveType], with the interfaces before it and an error that quotes
    the interface and the object. *)
Lemma defineInterfaces_range_stops (heap : InterfaceHeap) (ttype : Object)
    (before : list InterfacePtr) (iface : InterfacePtr)
    (after : list (option InterfacePtr)) (ifaces : list InterfacePtr) :
  Forall (fun i => Interface_ResolveType (heap i) <> None) before ->
  Interface_ResolveType (heap iface) = None ->
  defineInterfaces_range heap ttype
    ((Some <$> before) ++ Some iface :: after) ifaces
  = (ifaces ++ before,
     Some (NewFormattedError
             (defineInterfaces_resolveType_message
                (Interface_Name (heap iface)) (Object_Name ttype)))).
Proof.
  intros Hbefore Hiface. revert ifaces.
  induction Hbefore as [|i before Hi _ IH]; intros ifaces.
  - cbn. rewrite Hiface, app_nil_r. reflexivity.
  - cbn. destruct (Interface_ResolveType (heap i)); [|contradiction].
    fold (@fmap list _ _ _ (@Some InterfacePtr) before).
    rewrite IH, <- app_assoc. reflexivity.
Qed.

(** C3, as amended.  Let an [Object] be built from a config with a valid
    name whose interfaces (a slice or the value of a thunk) hold, after
    interfaces that all have a [ResolveType], an [Interface] without
    [ResolveType].  Then the object carries the error of [defineInterfaces]
    whose message quotes that interface and the object, whatever the
    [IsTypeOf] of the config is (none or any function). *)
Theorem NewObject_interface_without_resolveType
    (heap : InterfaceHeap) (config : ObjectConfig)
    (before : list InterfacePtr) (iface : InterfacePtr)
    (after : list (option InterfacePtr)) :
  assertValidName (ObjectConfig_Name config) = None ->
  ObjectConfig_interfaces config
  = Some ((Some <$> before) ++ Some iface :: after) ->
  Forall (fun i => Interface_ResolveType (heap i) <> None) before ->
  Interface_ResolveType (heap iface) = None ->
  exists err,
    Object_GetError (fst (NewObject heap config)) = Some err /\
    Error err
    = defineInterfaces_resolveType_message
        (Interface_Name (heap iface)) (ObjectConfig_Name config) /\
    names (Error err) (Interface_Name (heap iface)) /\
    names (Error err) (ObjectConfig_Name config).
Proof.
  intros Hname Hcfg Hbefore Hiface.
  exists (NewFormattedError
            (defineInterfaces_resolveType_message
               (Interface_Name (heap iface)) (ObjectConfig_Name config))).
  rewrite Error_NewFormattedError.
  split; [|split; [reflexivity|]].
  - unfold NewObject. rewrite Hname.
    destruct (decide _) as [E|_];
      [apply assertValidName_nonempty in Hname; contradiction|].
    unfold Object_GetInterfaces, ObjectConfig_interfaces in *.
    cbn [Object_typeConfig].
    assert (Hrun : forall ttype l,
      l = (Some <$> before) ++ Some iface :: after ->
      defineInterfaces heap ttype l
      = ([] ++ before,
         Some (NewFormattedError
                 (defineInterfaces_resolveType_message
                    (Interface_Name (heap iface)) (Object_Name ttype))))).
    { intros ttype l ->. unfold defineInterfaces.
      destruct (decide _) as [Hlen|_].
      - rewrite length_app in Hlen. cbn in Hlen. lia.
      - apply defineInterfaces_range_stops; assumption. }
    destruct (ObjectConfig_Interfaces config) as [thunk|l| |typeName];
      try discriminate; injection Hcfg as Hcfg;
      rewrite (Hrun _ _ Hcfg); reflexivity.
  - unfold defineInterfaces_resolveType_message. split; names_piece.
Qed.

Lemma NewObject_interface_without_resolveType_witness :
  exists err,
    Object_GetError (fst (NewObject Sample.heap Sample.HumanConfig)) = Some err /\
    Error err = defineInterfaces_resolveType_message "Node" "Human" /\
    names (Error err) "Node" /\
    names (Error err) "Human".
Proof.
  apply (NewObject_interface_without_resolveType Sample.heap
           Sample.HumanConfig [Sample.LabelledPtr] Sample.NodePtr []).
  - reflexivity.
  - reflexivity.
  - constructor; [discriminate | constructor].
  - reflexivity.
Defined.

(** C3 fails as stated on two objects that list the interface [Node],
    which has no [ResolveType]: one whose own name is invalid, one whose
    slice holds a nil entry before [Node].  Each carries an error, and its
    message does not name [Node]. *)
Lemma NewObject_interface_error_counterexample :
  Interface_Name (Sample.heap Sample.NodePtr) = "Node" /\
  Interface_ResolveType (Sample.heap Sample.NodePtr) = None /\
  ObjectConfig_interfaces Sample.BadNameObjectConfig
  = Some [Some Sample.NodePtr] /\
  Error <$> Object_GetError
              (fst (NewObject Sample.heap Sample.BadNameObjectConfig))
  = Some (assertValidName_message "1x") /\
  error_names
    (Object_GetError (fst (NewObject Sample.heap Sample.BadNameObjectConfig)))
    "Node" = false /\
  ObjectConfig_interfaces Sample.NilFirstObjectConfig
  = Some [None; Some Sample.NodePtr] /\
  Error <$> Object_GetError
              (fst (NewObject Sample.heap Sample.NilFirstObjectConfig))
  = Some "Droid may only implement Interface types, it cannot implement: <nil>." /\
  error_names
    (Object_GetError (fst (NewObject Sample.heap Sample.NilFirstObjectConfig)))
    "Node" = false.
Proof. repeat split; vm_compute; reflexivity. Qed.

(** When the loop stops, the object has already been built: it is appended
    to the implementations of the interfaces that came before the one
    without [ResolveType], and to no other. *)
Example Human_registered :
  @Object_Name _
    <$> Interface_implementations
          (snd (NewObject Sample.heap Sample.HumanConfig) Sample.LabelledPtr)
  = ["Human"] /\
  Interface_implementations
    (snd (NewObject Sample.heap Sample.HumanConfig) Sample.NodePtr)
  = [].
Proof. split; reflexivity. Qed.

(** ** InputObject: the field map *)

Section InputObjectFields.

Variable gt : string.

Let range := InputObject_defineFieldMap_range gt.

(** One turn of the loop on an entry with a config. *)
Lemma InputObject_range_cons (k : string) (fc : InputObjectFieldConfig Type_)
    (rest : InputObjectConfigFieldMap Type_) (m : InputObjectFieldMap) :
  range ((k, Some fc) :: rest) m
  = if assertValidName k is Some _ then range rest m
    else if InputObjectFieldConfig_Type fc is Some _
         then range rest (<[k := InputObjectField_of k fc]> m)
         else (m, Some (NewFormattedError (InputObject_type_message gt k))).
Proof.
  unfold range. cbn [InputObject_defineFieldMap_range].
  destruct (assertValidName k); [reflexivity|].
  destruct (InputObjectFieldConfig_Type fc) eqn:Htype; [|reflexivity].
  unfold InputObjectField_of. rewrite Htype. reflexivity.
Qed.

Lemma InputObject_range_cons_nil (k : string)
    (rest : InputObjectConfigFieldMap Type_) (m : InputObjectFieldMap) :
  range ((k, None) :: rest) m = range rest m.
Proof. reflexivity. Qed.

(** The loop over a concatenation: the second part runs from the map the
    first part built, unless the first part stopped with an error. *)
Lemma InputObject_range_app (l1 l2 : InputObjectConfigFieldMap Type_)
    (m : InputObjectFieldMap) :
  range (l1 ++ l2) m
  = match range l1 m with
    | (m1, Some err) => (m1, Some err)
    | (m1, None) => range l2 m1
    end.
Proof.
  revert m. induction l1 as [|[k [fc|]] l1 IH]; intros m.
  - reflexivity.
  - rewrite <- app_comm_cons, !InputObject_range_cons.
    destruct (assertValidName k); [apply IH|].
    destruct (InputObjectFieldConfig_Type fc); [apply IH | reflexivity].
  - rewrite <- app_comm_cons, !InputObject_range_cons_nil. apply IH.
Qed.

(** The loop leaves alone the keys it does not visit. *)
Lemma InputObject_range_other (l : InputObjectConfigFieldMap Type_)
    (m : InputObjectFieldMap) (k : string) :
  k ∉ fst <$> l -> fst (range l m) !! k = m !! k.
Proof.
  revert m. induction l as [|[k' [fc|]] l IH]; intros m Hk; [reflexivity| |];
    rewrite fmap_cons, not_elem_of_cons in Hk; destruct Hk as [Hne Hk];
    cbn [fst] in Hne.
  - rewrite InputObject_range_cons.
    destruct (assertValidName k'); [apply IH; exact Hk|].
    destruct (InputObjectFieldConfig_Type fc); [|reflexivity].
    rewrite IH by exact Hk. apply lookup_insert_ne. congruence.
  - rewrite InputObject_range_cons_nil. apply IH; exact Hk.
Qed.

(** Every field of the map comes from the starting map or from an entry
    with a config and a valid name. *)
Lemma InputObject_range_from (l : InputObjectConfigFieldMap Type_)
    (m : InputObjectFieldMap) (k : string) (f : InputObjectField Type_) :
  fst (range l m) !! k = Some f ->
  m !! k = Some f \/
  exists fc, (k, Some fc) ∈ l /\ assertValidName k = None /\
             f = InputObjectField_of k fc.
Proof.
  revert m. induction l as [|[k' [fc|]] l IH]; intros m; [auto| |].
  - rewrite InputObject_range_cons.
    destruct (assertValidName k') eqn:Hname.
    + intros H. destruct (IH _ H) as [?|(fc' & Hin & ?)]; [auto|].
      right. exists fc'. split; [apply elem_of_cons; auto | auto].
    + destruct (InputObjectFieldConfig_Type fc); [|auto].
      intros H. destruct (IH _ H) as [Hm|(fc' & Hin & ?)].
      * destruct (decide (k' = k)) as [->|Hne].
        -- rewrite lookup_insert_eq in Hm. injection Hm as Hf.
           right. exists fc. split; [apply elem_of_cons; auto | auto].
        -- rewrite lookup_insert_ne in Hm by exact Hne. auto.
      * right. exists fc'. split; [apply elem_of_cons; auto | auto].
  - rewrite InputObject_range_cons_nil.
    intros H. destruct (IH _ H) as [?|(fc' & Hin & ?)]; [auto|].
    right. exists fc'. split; [apply elem_of_cons; auto | auto].
Qed.

(** When no entry stops the loop, it records no error and the map holds
    the field of every entry with a config and a valid name. *)
Lemma InputObject_range_passes (l : InputObjectConfigFieldMap Type_)
    (m : InputObjectFieldMap) :
  forallb inputField_entry_passes l = true ->
  snd (range l m) = None /\
  (NoDup (fst <$> l) ->
   forall k fc, (k, Some fc) ∈ l -> assertValidName k = None ->
                fst (range l m) !! k = Some (InputObjectField_of k fc)).
Proof.
  revert m. induction l as [|[k' [fc'|]] l IH]; intros m Hpass.
  - split; [reflexivity|]. intros _ k fc Hin. apply elem_of_nil in Hin as [].
  - cbn [forallb inputField_entry_passes] in Hpass.
    apply andb_true_iff in Hpass as [Hentry Hpass].
    rewrite InputObject_range_cons.
    destruct (assertValidName k') eqn:Hname.
    + destruct (IH m Hpass) as [Herr Hfields].
      split; [exact Herr|]. intros Hnodup k fc Hin Hk.
      rewrite fmap_cons, NoDup_cons in Hnodup. destruct Hnodup as [_ Hnodup].
      apply elem_of_cons in Hin as [[= -> ->]|Hin]; [congruence|].
      apply Hfields; assumption.
    + destruct (InputObjectFieldConfig_Type fc') eqn:Htype;
        [|discriminate Hentry].
      destruct (IH (<[k' := InputObjectField_of k' fc']> m) Hpass)
        as [Herr' Hfields'].
      split; [exact Herr'|]. intros Hnodup k fc Hin Hk.
      rewrite fmap_cons, NoDup_cons in Hnodup. destruct Hnodup as [Hk' Hnodup].
      apply elem_of_cons in Hin as [[= -> ->]|Hin].
      * rewrite InputObject_range_other by exact Hk'.
        apply lookup_insert_eq.
      * apply Hfields'; assumption.
  - cbn [forallb inputField_entry_passes] in Hpass.
    rewrite InputObject_range_cons_nil.
    destruct (IH m Hpass) as [Herr Hfields].
    split; [exact Herr|]. intros Hnodup k fc Hin Hk.
    rewrite fmap_cons, NoDup_cons in Hnodup. destruct Hnodup as [_ Hnodup].
    apply elem_of_cons in Hin as [[= ]|Hin].
    apply Hfields; assumption.
Qed.

(** The loop stops at the first entry with a valid name and a nil type:
    it records the error of that entry and returns the map built before
    it. *)
Lemma InputObject_range_stops
    (before : InputObjectConfigFieldMap Type_) (k : string)
    (fc : InputObjectFieldConfig Type_)
    (after : InputObjectConfigFieldMap Type_) (m : InputObjectFieldMap) :
  forallb inputField_entry_passes before = true ->
  assertValidName k = None ->
  InputObjectFieldConfig_Type fc = None ->
  range (before ++ (k, Some fc) :: after) m
  = (fst (range before m),
     Some (NewFormattedError (InputObject_type_message gt k))).
Proof.
  intros Hpass Hk Htype. rewrite InputObject_range_app.
  destruct (InputObject_range_passes before m Hpass) as [Herr _].
  destruct (range before m) as [m1 e]. cbn in Herr. subst e.
  rewrite InputObject_range_cons, Hk, Htype. reflexivity.
Qed.

End InputObjectFields.

(** [NewInputObject] on a config with a name and a field map that is not
    empty: the fields and the error are those of the loop. *)
Lemma NewInputObject_range (config : InputObjectConfig) :
  InputObjectConfig_Name config <> "" ->
  InputObjectConfig_fieldMap config <> [] ->
  InputObject_GetFields (NewInputObject config)
  = fst (InputObject_defineFieldMap_range (InputObjectConfig_Name config)
           (InputObjectConfig_fieldMap config) ∅) /\
  InputObject_GetError (NewInputObject config)
  = snd (InputObject_defineFieldMap_range (InputObjectConfig_Name config)
           (InputObjectConfig_fieldMap config) ∅).
Proof.
  intros Hname Hfields. unfold NewInputObject.
  destruct (decide _) as [E|_]; [contradiction|].
  unfold InputObject_defineFieldMap, InputObjectConfig_fieldMap in *.
  cbn [InputObject_typeConfig InputObject_String InputObject_Name].
  destruct (decide _) as [Hlen|_].
  - destruct (InputObjectConfig_Fields config) as [m|thunk|]; cbn in *;
      [destruct m | destruct (thunk tt) | ]; cbn in *; congruence.
  - destruct (InputObject_defineFieldMap_range _ _ _) as [m [e|]];
      split; reflexivity.
Qed.

(** ** Object and Interface: the field map *)

Section ObjectFields.

Variable ttype : Named.

Let range := defineFieldMap_range ttype.

(** The loop over the arguments of a field succeeds exactly when every
    argument is accepted. *)
Lemma defineFieldMap_args_ok (fieldName : string)
    (Args : FieldConfigArgument Type_) (fieldArgs : list (Argument Type_)) :
  forallb argument_ok Args = true ->
  exists result, defineFieldMap_args ttype fieldName Args fieldArgs = inl result.
Proof.
  revert fieldArgs. induction Args as [|[argName [arg|]] Args IH];
    intros fieldArgs Hok; cbn [forallb argument_ok] in Hok.
  - eexists; reflexivity.
  - apply andb_true_iff in Hok as [Harg Hok].
    apply andb_true_iff in Harg as [Hname Htype].
    cbn [defineFieldMap_args].
    destruct (assertValidName argName); [discriminate|].
    destruct (ArgumentConfig_Type arg); [apply IH; exact Hok | discriminate].
  - discriminate.
Qed.

Lemma defineFieldMap_args_error (fieldName : string)
    (Args : FieldConfigArgument Type_) (fieldArgs : list (Argument Type_)) :
  forallb argument_ok Args = false ->
  exists err, defineFieldMap_args ttype fieldName Args fieldArgs = inr err.
Proof.
  revert fieldArgs. induction Args as [|[argName [arg|]] Args IH];
    intros fieldArgs Hko; cbn [forallb argument_ok] in Hko.
  - discriminate.
  - cbn [defineFieldMap_args].
    destruct (assertValidName argName); [eexists; reflexivity|].
    destruct (ArgumentConfig_Type arg); [|eexists; reflexivity].
    apply IH. exact Hko.
  - cbn [defineFieldMap_args].
    destruct (assertValidName argName); eexists; reflexivity.
Qed.

(** One turn of the loop over the fields: an accepted entry adds its
    definition under its name, an entry that is not accepted ends the loop
    with an error and the map built so far. *)
Lemma defineFieldMap_range_ok (k : string) (field : FieldConfig Type_)
    (rest : FieldConfigMap Type_) (m : FieldDefinitionMap) :
  field_ok k field = true ->
  exists fieldDef,
    FieldDefinition_Name fieldDef = k /\
    FieldDefinition_Type fieldDef = FieldConfig_Type field /\
    range ((k, Some field) :: rest) m = range rest (<[k := fieldDef]> m).
Proof.
  unfold field_ok, range. intros Hok. cbn [defineFieldMap_range].
  destruct (FieldConfig_Type field) as [fieldType|] eqn:Htype; [|discriminate].
  apply andb_true_iff in Hok as [Hok Hargs].
  apply andb_true_iff in Hok as [Herr Hname].
  destruct (Type_GetError fieldType); [discriminate|].
  destruct (assertValidName k); [discriminate|].
  destruct (defineFieldMap_args_ok k (FieldConfig_Args field) [] Hargs)
    as [fieldArgs ->].
  eexists. split; [|split; [|reflexivity]]; reflexivity.
Qed.

Lemma defineFieldMap_range_ko (k : string) (field : FieldConfig Type_)
    (rest : FieldConfigMap Type_) (m : FieldDefinitionMap) :
  field_ok k field = false ->
  exists err, range ((k, Some field) :: rest) m = (m, Some err).
Proof.
  unfold field_ok, range. intros Hko. cbn [defineFieldMap_range].
  destruct (FieldConfig_Type field) as [fieldType|]; [|eexists; reflexivity].
  destruct (Type_GetError fieldType); [eexists; reflexivity|].
  destruct (assertValidName k); [eexists; reflexivity|].
  cbn [andb] in Hko.
  destruct (defineFieldMap_args_error k (FieldConfig_Args field) [] Hko)
    as [err ->].
  eexists; reflexivity.
Qed.

Lemma defineFieldMap_range_app (l1 l2 : FieldConfigMap Type_)
    (m : FieldDefinitionMap) :
  range (l1 ++ l2) m
  = match range l1 m with
    | (m1, Some err) => (m1, Some err)
    | (m1, None) => range l2 m1
    end.
Proof.
  unfold range. revert m.
  induction l1 as [|[k [field|]] l1 IH]; intros m;
    cbn [app defineFieldMap_range]; [reflexivity| |apply IH].
  destruct (FieldConfig_Type field) as [fieldType|]; [|reflexivity].
  destruct (Type_GetError fieldType); [reflexivity|].
  destruct (assertValidName k); [reflexivity|].
  destruct (defineFieldMap_args _ _ _ _); [apply IH | reflexivity].
Qed.

(** The loop leaves alone the keys it does not visit. *)
Lemma defineFieldMap_range_other (l : FieldConfigMap Type_)
    (m : FieldDefinitionMap) (k : string) :
  k ∉ fst <$> l -> fst (range l m) !! k = m !! k.
Proof.
  unfold range. revert m.
  induction l as [|[k' [field|]] l IH]; intros m Hk;
    cbn [defineFieldMap_range]; [reflexivity| |];
    rewrite fmap_cons, not_elem_of_cons in Hk; destruct Hk as [Hne Hk];
    cbn [fst] in Hne; [|apply IH; exact Hk].
  destruct (FieldConfig_Type field) as [fieldType|]; [|reflexivity].
  destruct (Type_GetError fieldType); [reflexivity|].
  destruct (assertValidName k'); [reflexivity|].
  destruct (defineFieldMap_args _ _ _ _); [|reflexivity].
  rewrite IH by exact Hk. apply lookup_insert_ne. congruence.
Qed.

(** When every entry passes, the loop returns no error. *)
Lemma defineFieldMap_range_passes (l : FieldConfigMap Type_)
    (m : FieldDefinitionMap) :
  forallb field_entry_passes l = true -> snd (range l m) = None.
Proof.
  revert m. induction l as [|[k [field|]] l IH]; intros m Hpass;
    cbn [forallb field_entry_passes] in Hpass; [reflexivity| |].
  - apply andb_true_iff in Hpass as [Hfield Hpass].
    destruct (defineFieldMap_range_ok k field l m Hfield)
      as (fieldDef & _ & _ & ->).
    apply IH; exact Hpass.
  - apply IH; exact Hpass.
Qed.

(** The loop stops at the first entry that is not accepted, with an error
    and the map built before it. *)
Lemma defineFieldMap_range_stops (before : FieldConfigMap Type_) (k : string)
    (field : FieldConfig Type_) (after : FieldConfigMap Type_)
    (m : FieldDefinitionMap) :
  forallb field_entry_passes before = true ->
  field_ok k field = false ->
  exists err,
    range (before ++ (k, Some field) :: after) m
    = (fst (range before m), Some err).
Proof.
  intros Hpass Hfield. rewrite defineFieldMap_range_app.
  pose proof (defineFieldMap_range_passes before m Hpass) as Herr.
  destruct (range before m) as [m1 e]. cbn in Herr. subst e.
  apply defineFieldMap_range_ko; exact Hfield.
Qed.

(** An entry whose config is nil is passed over. *)
Lemma defineFieldMap_range_skip (before : FieldConfigMap Type_) (k : string)
    (after : FieldConfigMap Type_) (m : FieldDefinitionMap) :
  range (before ++ (k, None) :: after) m = range (before ++ after) m.
Proof. rewrite !defineFieldMap_range_app. reflexivity. Qed.

End ObjectFields.

(** ** The two field builders on entries they do not accept *)

(** C2 fails as stated.  An input object whose field map holds an entry
    with a nil type next to the valid field [lon] records an error whichever
    entry the loop visits first, and when it visits the nil type first the
    valid field is missing from the result.  The field builder of [Object],
    for its part, does not stop at an entry whose config is nil: it returns
    no error and the field of the other entry. *)
Lemma field_builders_counterexample :
  InputObjectConfig_fieldMap Sample.NilTypeInputConfig
  = [("lat", Some (Sample.inputField None));
     ("lon", Some (Sample.inputField (Some Sample.StringType)))] /\
  assertValidName "lon" = None /\
  InputObject_GetFields (NewInputObject Sample.NilTypeInputConfig) !! "lon" = None /\
  InputObject_GetError (NewInputObject Sample.NilTypeInputConfig) <> None /\
  InputObject_GetError (NewInputObject Sample.NilTypeInputConfig') <> None /\
  Sample.NilEntryFields
  = [("gone", None); ("name", Some (Sample.field Sample.StringType))] /\
  snd (defineFieldMap (TObject Sample.Dog) Sample.NilEntryFields) = None /\
  @FieldDefinition_Name _
    <$> fst (defineFieldMap (TObject Sample.Dog) Sample.NilEntryFields) !! "name"
  = Some "name".
Proof. repeat split; try discriminate; vm_compute; reflexivity. Qed.

(** C2, as amended.

    [NewInputObject], on a config with a name and a field map that is not
    empty:
    - when every entry has a nil config, an invalid name or a type that is
      not nil, records no error, and the resulting map holds exactly the
      fields of the entries with a config and a valid name (keys being
      pairwise distinct): the entries with a nil config or an invalid name
      are skipped one by one;
    - at the first entry with a valid name and a nil type, records the
      error of that entry and stops: the result holds no field but those
      of the entries before it.

    [defineFieldMap], the builder of [Object]:
    - passes over an entry whose config is nil, as if it were not in the
      map (the map without it being not empty);
    - at the first entry with a config that it does not accept (nil type,
      type with an error, invalid name, or an argument that is nil, has a
      nil type or an invalid name), returns an error and no field but
      those of the entries before it. *)
Theorem field_builders_on_invalid_entries :
  (forall config : InputObjectConfig,
     InputObjectConfig_Name config <> "" ->
     InputObjectConfig_fieldMap config <> [] ->
     NoDup (fst <$> InputObjectConfig_fieldMap config) ->
     forallb inputField_entry_passes (InputObjectConfig_fieldMap config) = true ->
     InputObject_GetError (NewInputObject config) = None /\
     forall k f,
       InputObject_GetFields (NewInputObject config) !! k = Some f <->
       exists fc,
         (k, Some fc) ∈ InputObjectConfig_fieldMap config /\
         assertValidName k = None /\
         f = InputObjectField_of k fc) /\
  (forall (config : InputObjectConfig) before k fc after,
     InputObjectConfig_Name config <> "" ->
     InputObjectConfig_fieldMap config = before ++ (k, Some fc) :: after ->
     forallb inputField_entry_passes before = true ->
     assertValidName k = None ->
     InputObjectFieldConfig_Type fc = None ->
     InputObject_GetError (NewInputObject config)
     = Some (NewFormattedError
               (InputObject_type_message (InputObjectConfig_Name config) k)) /\
     forall k', k' ∉ fst <$> before ->
       InputObject_GetFields (NewInputObject config) !! k' = None) /\
  (forall (ttype : Named) (before : FieldConfigMap Type_) k after,
     before ++ after <> [] ->
     defineFieldMap ttype (before ++ (k, None) :: after)
     = defineFieldMap ttype (before ++ after)) /\
  (forall (ttype : Named) (before : FieldConfigMap Type_) k field after,
     forallb field_entry_passes before = true ->
     field_ok k field = false ->
     snd (defineFieldMap ttype (before ++ (k, Some field) :: after)) <> None /\
     forall k', k' ∉ fst <$> before ->
       fst (defineFieldMap ttype (before ++ (k, Some field) :: after)) !! k'
       = None).
Proof.
  split; [|split; [|split]].
  - intros config Hname Hfields Hnodup Hpass.
    destruct (NewInputObject_range config Hname Hfields) as [-> ->].
    destruct (InputObject_range_passes (InputObjectConfig_Name config)
                (InputObjectConfig_fieldMap config) ∅ Hpass) as [Herr Hin].
    split; [exact Herr|]. intros k f. split.
    + intros Hk.
      apply InputObject_range_from in Hk as [Hk|Hk]; [|exact Hk].
      rewrite lookup_empty in Hk. discriminate.
    + intros (fc & Hfc & Hk & ->). apply Hin; assumption.
  - intros config before k fc after Hname Hfields Hpass Hk Htype.
    assert (Hne : InputObjectConfig_fieldMap config <> [])
      by (rewrite Hfields; destruct before; discriminate).
    destruct (NewInputObject_range config Hname Hne) as [-> ->].
    rewrite Hfields, InputObject_range_stops by assumption.
    split; [reflexivity|]. intros k' Hk'. cbn [fst].
    rewrite InputObject_range_other by exact Hk'. apply lookup_empty.
  - intros ttype before k after Hne. unfold defineFieldMap.
    destruct (decide _) as [Hlen|_];
      [rewrite length_app in Hlen; cbn in Hlen; lia|].
    destruct (decide _) as [Hlen|_];
      [apply length_zero_iff_nil in Hlen; contradiction|].
    apply defineFieldMap_range_skip.
  - intros ttype before k field after Hpass Hfield. unfold defineFieldMap.
    destruct (decide _) as [Hlen|_];
      [rewrite length_app in Hlen; cbn in Hlen; lia|].
    destruct (defineFieldMap_range_stops ttype before k field after ∅
                Hpass Hfield) as [err ->].
    split; [discriminate|]. intros k' Hk'. cbn [fst].
    rewrite defineFieldMap_range_other by exact Hk'. apply lookup_empty.
Qed.

(** On the sample with two valid fields, an invalid name and a nil config:
    no error, and exactly the two valid fields. *)
Lemma field_builders_on_invalid_entries_witness :
  InputObject_GetError (NewInputObject Sample.MixedInputConfig) = None /\
  forall k f,
    InputObject_GetFields (NewInputObject Sample.MixedInputConfig) !! k = Some f <->
    exists fc,
      (k, Some fc) ∈ InputObjectConfig_fieldMap Sample.MixedInputConfig /\
      assertValidName k = None /\
      f = InputObjectField_of k fc.
Proof.
  apply (proj1 field_builders_on_invalid_entries Sample.MixedInputConfig).
  - discriminate.
  - discriminate.
  - apply (@bool_decide_unpack _ (NoDup_dec _)). vm_compute. exact I.
  - reflexivity.
Defined.

Example Mixed_fields :
  size (InputObject_GetFields (NewInputObject Sample.MixedInputConfig)) = 2 /\
  InputObject_GetFields (NewInputObject Sample.MixedInputConfig) !! "lat"
  = Some (InputObjectField_of "lat" (Sample.inputField (Some Sample.StringType))) /\
  InputObject_GetFields (NewInputObject Sample.MixedInputConfig) !! "lon"
  = Some (InputObjectField_of "lon" (Sample.inputField (Some Sample.StringType))) /\
  InputObject_GetFields (NewInputObject Sample.MixedInputConfig) !! "not-a-name"
  = None /\
  InputObject_GetFields (NewInputObject Sample.MixedInputConfig) !! "gone" = None.
Proof. repeat split; vm_compute; reflexivity. Qed.

(** The builder of [Object] on a map whose first entry has an invalid
    name: an error, and not even the field of the valid entry after it. *)
Example BadEntry_fields :
  Error <$> snd (defineFieldMap (TObject Sample.Dog) Sample.BadEntryFields)
  = Some (assertValidName_message "not-a-name") /\
  fst (defineFieldMap (TObject Sample.Dog) Sample.BadEntryFields) !! "name"
  = None.
Proof. split; vm_compute; reflexivity. Qed.

(** * Further properties *)

(** ** Formatting errors *)




(** ** Scalar: the three operations *)

(** X2.  On a scalar built without error, [Serialize], [ParseValue] and
    [ParseLiteral] are the functions of the config.  A scalar built with an
    error has kept none of them: it serializes and parses every value to
    itself and every literal to nil. *)
Theorem Scalar_operations (config : ScalarConfig) (value : GoValue)
    (valueAST : ast.Value) :
  match Scalar_GetError (NewScalar config) with
  | None =>
      exists serialize parseValue parseLiteral,
        ScalarConfig_Serialize config = Some serialize /\
        ScalarConfig_ParseValue config = Some parseValue /\
        ScalarConfig_ParseLiteral config = Some parseLiteral /\
        Scalar_Serialize (NewScalar config) value = serialize value /\
        Scalar_ParseValue (NewScalar config) value = parseValue value /\
        Scalar_ParseLiteral (NewScalar config) valueAST = parseLiteral valueAST
  | Some _ =>
      Scalar_Serialize (NewScalar config) value = value /\
      Scalar_ParseValue (NewScalar config) value = value /\
      Scalar_ParseLiteral (NewScalar config) valueAST = GoNil
  end.
Proof.
  unfold NewScalar. destruct (decide _); [repeat split|].
  destruct (assertValidName _); [repeat split|].
  destruct (ScalarConfig_Serialize config) as [serialize|] eqn:Hs;
    [|repeat split].
  destruct (ScalarConfig_ParseValue config) as [parseValue|] eqn:Hpv;
    [|repeat split].
  destruct (ScalarConfig_ParseLiteral config) as [parseLiteral|] eqn:Hpl;
    [|repeat split].
  cbn [Scalar_GetError Scalar_err].
  exists serialize, parseValue, parseLiteral.
  unfold Scalar_Serialize, Scalar_ParseValue, Scalar_ParseLiteral.
  cbn [Scalar_scalarConfig]. rewrite Hs, Hpv, Hpl. repeat split.
Qed.

(** ** Input and output types *)

(** X3.  [IsInputType] and [IsOutputType] look through the wrappers: on a
    type that is any number of [List] and [NonNull] around a named type,
    they answer by the kind of the named type alone (input: scalar, enum,
    input object; output: scalar, object, interface, union, enum). *)
Theorem IsInputType_IsOutputType_by_kind (leaf ttype : Type_) (n : nat) :
  nesting leaf ttype n ->
  IsInputType (Some ttype) = isInputKind leaf /\
  IsOutputType (Some ttype) = isOutputKind leaf.
Proof.
  intros H. unfold IsInputType, IsOutputType. cbn [GetNamed].
  rewrite (GetNamed_nesting _ _ _ H).
  destruct leaf; split; reflexivity.
Qed.

Lemma IsInputType_IsOutputType_by_kind_witness :
  IsInputType (Some Sample.NonNullListNonNullString) = true /\
  IsOutputType (Some Sample.NonNullListNonNullString) = true.
Proof.
  apply (IsInputType_IsOutputType_by_kind
           Sample.StringType Sample.NonNullListNonNullString 3).
  eapply nesting_NonNull; [reflexivity|].
  eapply nesting_List; [reflexivity|].
  eapply nesting_NonNull; [reflexivity|].
  apply nesting_leaf. reflexivity.
Defined.

(** A wrapper that failed to build wraps nothing: it is neither an input
    nor an output type, and no more is the nil type. *)
Lemma IsInputType_IsOutputType_nil (ttype : option Type_) :
  GetNamed ttype = None ->
  IsInputType ttype = false /\ IsOutputType ttype = false.
Proof. unfold IsInputType, IsOutputType. intros ->. split; reflexivity. Qed.

(** ** Union: construction and possible types *)

(** The first element of a list that fails a test, with the elements
    before it, which all pass. *)
Lemma forallb_first_failure {A : Type} (p : A -> bool) (l : list A) :
  forallb p l = false ->
  exists before x after,
    l = before ++ x :: after /\ forallb p before = true /\ p x = false.
Proof.
  induction l as [|x l IH]; cbn; [discriminate|].
  destruct (p x) eqn:Hx; cbn.
  - intros H. destruct (IH H) as (before & y & after & -> & Hbefore & Hy).
    exists (x :: before), y, after. cbn. rewrite Hx, Hbefore. auto.
  - intros _. exists [], x, l. auto.
Qed.

Lemma NewUnion_range_ok (name : string) (resolveType : bool)
    (Types : list (option Object)) :
  NewUnion_range name resolveType Types = None <->
  forallb (member_ok resolveType) Types = true.
Proof.
  induction Types as [|[ttype|] rest IH]; cbn [NewUnion_range forallb member_ok].
  - split; reflexivity.
  - destruct resolveType, (Object_IsTypeOf ttype); cbn; try exact IH.
    split; discriminate.
  - split; discriminate.
Qed.

(** X4.  [NewUnion] builds a union without error exactly when the name is
    valid, there is at least one member, no member is nil and, unless the
    union has a [ResolveType], every member has an [IsTypeOf].  The union
    then has the members of the config as its possible types, in their
    order; a union built with an error has none. *)
Theorem NewUnion_ok_iff (config : UnionConfig) :
  (Union_GetError (NewUnion config) = None <->
   assertValidName (UnionConfig_Name config) = None /\
   UnionConfig_Types config <> [] /\
   forallb (member_ok (if UnionConfig_ResolveType config is Some _
                       then true else false))
     (UnionConfig_Types config) = true) /\
  (Union_GetError (NewUnion config) = None ->
   Union_GetPossibleTypes (NewUnion config) = UnionConfig_Types config) /\
  (Union_GetError (NewUnion config) <> None ->
   Union_GetPossibleTypes (NewUnion config) = []).
Proof.
  unfold NewUnion. destruct (decide (UnionConfig_Name config = "")) as [E|_].
  { rewrite E. cbn. repeat split; try discriminate.
    intros (H & _). discriminate H. }
  destruct (assertValidName _) as [err|].
  { cbn. repeat split; try discriminate. intros (H & _). discriminate H. }
  destruct (decide (length (UnionConfig_Types config) = 0)) as [Hlen|Hlen].
  { apply length_zero_iff_nil in Hlen. rewrite Hlen. cbn.
    repeat split; try discriminate. intros (_ & H & _). contradiction. }
  assert (Hne : UnionConfig_Types config <> [])
    by (intros E; rewrite E in Hlen; contradiction).
  destruct (NewUnion_range _ _ _) as [err|] eqn:Hrange; cbn.
  - repeat split; try discriminate. intros (_ & _ & H).
    apply (proj2 (NewUnion_range_ok (UnionConfig_Name config) _ _)) in H.
    rewrite H in Hrange. discriminate.
  - repeat split; auto; try contradiction.
    eapply NewUnion_range_ok; eassumption.
Qed.

(** A name is in the set built from the possible types exactly when one of
    them bears it. *)
Lemma IsPossibleType_table_fold (possibleTypes : list (option Object))
    (m : gmap string bool) (name : string) :
  fold_left
    (fun (m : gmap string bool) possibleType =>
       match possibleType with
       | None => m
       | Some possibleType => <[@Object_Name Type_ possibleType := true]> m
       end)
    possibleTypes m !! name
  = if existsb (fun possibleType =>
                  match possibleType with
                  | Some o => bool_decide (@Object_Name Type_ o = name)
                  | None => false
                  end) possibleTypes
    then Some true else m !! name.
Proof.
  revert m. induction possibleTypes as [|[o|] rest IH]; intros m; cbn;
    [reflexivity| |apply IH].
  rewrite IH. destruct (existsb _ rest); [rewrite orb_true_r; reflexivity|].
  rewrite orb_false_r. case_bool_decide as Hname.
  - rewrite Hname. apply lookup_insert_eq.
  - apply lookup_insert_ne. exact Hname.
Qed.

Lemma IsPossibleType_table_true (possibleTypes : list (option Object))
    (name : string) :
  IsPossibleType_table possibleTypes !! name = Some true <->
  exists member,
    Some member ∈ possibleTypes /\ @Object_Name Type_ member = name.
Proof.
  unfold IsPossibleType_table. rewrite IsPossibleType_table_fold.
  destruct (existsb _ possibleTypes) eqn:Hex.
  - split; [intros _|reflexivity].
    apply existsb_exists in Hex as ([o|] & Hin & Ho); [|discriminate].
    apply bool_decide_eq_true in Ho. exists o.
    split; [apply list_elem_of_In; exact Hin | exact Ho].
  - rewrite lookup_empty. split; [discriminate|].
    intros (member & Hin & Hname).
    assert (Hex' : existsb
              (fun possibleType =>
                 match possibleType with
                 | Some o => bool_decide (@Object_Name Type_ o = name)
                 | None => false
                 end) possibleTypes = true).
    { apply existsb_exists. exists (Some member).
      split; [apply list_elem_of_In; exact Hin|].
      apply bool_decide_eq_true. exact Hname. }
    congruence.
Qed.

Lemma IsPossibleType_table_values (possibleTypes : list (option Object))
    (name : string) (b : bool) :
  IsPossibleType_table possibleTypes !! name = Some b -> b = true.
Proof.
  unfold IsPossibleType_table. rewrite IsPossibleType_table_fold.
  destruct (existsb _ possibleTypes); [congruence|].
  rewrite lookup_empty. discriminate.
Qed.

(** The set kept on a union is empty or the one built from its types. *)
Lemma Union_IsPossibleType_step (ut : Union) (ttype : option Object) :
  (Union_possibleTypes ut = ∅ \/
   Union_possibleTypes ut = IsPossibleType_table (Union_types ut)) ->
  (Union_possibleTypes (snd (Union_IsPossibleType ut ttype)) = ∅ \/
   Union_possibleTypes (snd (Union_IsPossibleType ut ttype))
   = IsPossibleType_table (Union_types (snd (Union_IsPossibleType ut ttype))))
  /\
  Union_types (snd (Union_IsPossibleType ut ttype)) = Union_types ut /\
  fst (Union_IsPossibleType ut ttype)
  = match ttype with
    | Some o =>
        bool_decide
          (IsPossibleType_table (Union_types ut) !! @Object_Name Type_ o
           = Some true)
    | None => false
    end.
Proof.
  intros Hcache. destruct ttype as [o|]; [|cbn; auto].
  unfold Union_IsPossibleType.
  match goal with
  | |- context [if decide ?c then ?a else ?b] =>
      set (ut' := if decide c then a else b)
  end.
  assert (Hset : Union_possibleTypes ut' = IsPossibleType_table (Union_types ut)).
  { subst ut'. destruct (decide _) as [Hsize|Hsize]; [reflexivity|].
    destruct Hcache as [Hempty|Htable]; [|exact Htable].
    rewrite Hempty, map_size_empty in Hsize. contradiction. }
  assert (Htypes : Union_types ut' = Union_types ut)
    by (subst ut'; destruct (decide _); reflexivity).
  clearbody ut'. rewrite Hset.
  destruct (_ !! @Object_Name Type_ o) as [val|] eqn:Hlookup; cbn [fst snd];
    rewrite Htypes, Hset; (split; [right; reflexivity|]);
    (split; [reflexivity|]); symmetry.
  - rewrite (IsPossibleType_table_values _ _ _ Hlookup).
    apply bool_decide_eq_true. reflexivity.
  - apply bool_decide_eq_false. discriminate.
Qed.

Lemma Union_reachable_cache (config : UnionConfig) (ut : Union) :
  Union_reachable config ut ->
  (Union_possibleTypes ut = ∅ \/
   Union_possibleTypes ut = IsPossibleType_table (Union_types ut)) /\
  Union_types ut = Union_types (NewUnion config).
Proof.
  induction 1 as [|ut ttype _ [Hcache Htypes]].
  - split; [left|reflexivity]. unfold NewUnion.
    repeat (destruct (decide _) || destruct (assertValidName _)
            || destruct (NewUnion_range _ _ _)); reflexivity.
  - destruct (Union_IsPossibleType_step ut ttype Hcache) as (Hcache' & Htypes' & _).
    split; [exact Hcache' | congruence].
Qed.

(** X5.  For a union in any state that [IsPossibleType] can leave it in,
    [IsPossibleType] answers false for nil, and true for an object exactly
    when one of the union's possible types bears the name of the object:
    the test is on the name, not on the object. *)
Theorem Union_IsPossibleType_by_name (config : UnionConfig) (ut : Union)
    (ttype : Object) :
  Union_reachable config ut ->
  fst (Union_IsPossibleType ut None) = false /\
  (fst (Union_IsPossibleType ut (Some ttype)) = true <->
   exists member,
     Some member ∈ Union_GetPossibleTypes ut /\
     @Object_Name Type_ member = @Object_Name Type_ ttype).
Proof.
  intros Hreach. split; [reflexivity|].
  destruct (Union_reachable_cache config ut Hreach) as [Hcache _].
  destruct (Union_IsPossibleType_step ut (Some ttype) Hcache) as (_ & _ & ->).
  rewrite bool_decide_eq_true. apply IsPossibleType_table_true.
Qed.

Lemma Union_IsPossibleType_by_name_witness :
  fst (Union_IsPossibleType (NewUnion Sample.PetConfig) None) = false /\
  (fst (Union_IsPossibleType (NewUnion Sample.PetConfig) (Some Sample.Cat))
   = true <->
   exists member,
     Some member ∈ Union_GetPossibleTypes (NewUnion Sample.PetConfig) /\
     @Object_Name Type_ member = @Object_Name Type_ Sample.Cat).
Proof.
  apply (Union_IsPossibleType_by_name Sample.PetConfig
           (NewUnion Sample.PetConfig) Sample.Cat).
  constructor.
Defined.

(** ** Interface: the set of possible types is built once *)

Lemma IsPossibleType_table_not_empty (possibleTypes : list (option Object))
    (member : Object) :
  Some member ∈ possibleTypes ->
  size (IsPossibleType_table possibleTypes) <> 0.
Proof.
  intros Hin Hsize. apply map_size_empty_iff in Hsize.
  assert (Hlookup : IsPossibleType_table possibleTypes
                      !! @Object_Name Type_ member = Some true)
    by (apply IsPossibleType_table_true; eauto).
  rewrite Hsize, lookup_empty in Hlookup. discriminate.
Qed.

(** X6.  [IsPossibleType] of an interface builds the set of names on its
    first call and never again once the set is not empty.  So an object
    that registers after that call, under a name no earlier implementation
    bears, is listed by [GetPossibleTypes] and yet is not a possible type
    for [IsPossibleType]; had it registered before the first call, it would
    be. *)
Theorem Interface_IsPossibleType_not_refreshed (it : Interface)
    (asked late : Object) :
  Interface_possibleTypes it = ∅ ->
  Interface_implementations it <> [] ->
  @Object_Name Type_ late ∉ (@Object_Name Type_ <$> Interface_implementations it) ->
  let called := snd (Interface_IsPossibleType it (Some asked)) in
  Some late ∈ Interface_GetPossibleTypes (Interface_register late called) /\
  fst (Interface_IsPossibleType (Interface_register late called) (Some late))
  = false /\
  fst (Interface_IsPossibleType (Interface_register late it) (Some late)) = true.
Proof.
  intros Hempty Himpl Hlate called.
  assert (Hcalled : Interface_possibleTypes called
                    = IsPossibleType_table (Interface_GetPossibleTypes it) /\
                    Interface_implementations called
                    = Interface_implementations it).
  { subst called. unfold Interface_IsPossibleType.
    rewrite Hempty, map_size_empty.
    destruct (decide (0 = 0)) as [_|]; [|contradiction].
    cbn [Interface_possibleTypes Interface_with_possibleTypes].
    destruct (_ !! _); split; reflexivity. }
  destruct Hcalled as [Hset Hsame].
  assert (Hsize : size (IsPossibleType_table (Interface_GetPossibleTypes it)) <> 0).
  { destruct (Interface_implementations it) as [|first rest] eqn:E;
      [contradiction|].
    apply (IsPossibleType_table_not_empty _ first).
    unfold Interface_GetPossibleTypes. rewrite E. apply list_elem_of_here. }
  split; [|split].
  - unfold Interface_GetPossibleTypes, Interface_register.
    cbn [Interface_implementations]. apply list_elem_of_In, in_map, in_or_app.
    right. left. reflexivity.
  - unfold Interface_IsPossibleType.
    cbn [Interface_possibleTypes Interface_register]. rewrite Hset.
    destruct (decide _) as [Hzero|_]; [contradiction|].
    cbn [Interface_possibleTypes Interface_register]. rewrite Hset.
    destruct (_ !! @Object_Name Type_ late) as [val|] eqn:Hlookup;
      [|reflexivity].
    pose proof (IsPossibleType_table_values _ _ _ Hlookup) as ->.
    apply IsPossibleType_table_true in Hlookup as (member & Hin & Hname).
    exfalso. apply Hlate. unfold Interface_GetPossibleTypes in Hin.
    apply list_elem_of_fmap in Hin as (member' & [= ->] & Hin).
    apply list_elem_of_fmap. exists member'. auto.
  - unfold Interface_IsPossibleType.
    cbn [Interface_possibleTypes Interface_register]. rewrite Hempty, map_size_empty.
    destruct (decide (0 = 0)) as [_|]; [|contradiction].
    cbn [Interface_possibleTypes Interface_with_possibleTypes].
    assert (Hlookup :
      IsPossibleType_table
        (Interface_GetPossibleTypes (Interface_register late it))
        !! @Object_Name Type_ late = Some true).
    { apply IsPossibleType_table_true. exists late. split; [|reflexivity].
      unfold Interface_GetPossibleTypes, Interface_register.
      cbn [Interface_implementations].
      apply list_elem_of_In, in_map, in_or_app. right. left. reflexivity. }
    rewrite Hlookup. reflexivity.
Qed.

Lemma Interface_IsPossibleType_not_refreshed_witness :
  let called :=
    snd (Interface_IsPossibleType MoreSample.LabelledWithDog (Some Sample.Dog)) in
  Some MoreSample.Bird
    ∈ Interface_GetPossibleTypes (Interface_register MoreSample.Bird called) /\
  fst (Interface_IsPossibleType (Interface_register MoreSample.Bird called)
         (Some MoreSample.Bird)) = false /\
  fst (Interface_IsPossibleType
         (Interface_register MoreSample.Bird MoreSample.LabelledWithDog)
         (Some MoreSample.Bird)) = true.
Proof.
  apply (Interface_IsPossibleType_not_refreshed
           MoreSample.LabelledWithDog Sample.Dog MoreSample.Bird).
  - reflexivity.
  - discriminate.
  - intros Hin. apply list_elem_of_In in Hin. vm_compute in Hin.
    destruct Hin as [Hin|[]]. discriminate Hin.
Defined.

(** ** The order of names *)

Lemma ascii_compare_Lt_trans (a b c : ascii) :
  Ascii.compare a b = Lt -> Ascii.compare b c = Lt -> Ascii.compare a c = Lt.
Proof.
  unfold Ascii.compare. rewrite !N.compare_lt_iff. lia.
Qed.

Lemma string_compare_Lt_trans (s1 s2 s3 : string) :
  String.compare s1 s2 = Lt -> String.compare s2 s3 = Lt ->
  String.compare s1 s3 = Lt.
Proof.
  revert s2 s3. induction s1 as [|a s1 IH]; intros [|b s2] [|c s3]; cbn;
    try discriminate; try reflexivity.
  destruct (Ascii.compare a b) eqn:Hab; try discriminate;
    destruct (Ascii.compare b c) eqn:Hbc; try discriminate; intros H12 H23.
  - apply Ascii.compare_eq_iff in Hab, Hbc. subst.
    assert (Hcc : Ascii.compare c c = Eq) by (apply N.compare_refl).
    rewrite Hcc. eapply IH; eassumption.
  - apply Ascii.compare_eq_iff in Hab. subst. rewrite Hbc. reflexivity.
  - apply Ascii.compare_eq_iff in Hbc. subst. rewrite Hab. reflexivity.
  - rewrite (ascii_compare_Lt_trans a b c Hab Hbc). reflexivity.
Qed.

Lemma string_ltb_trans (s1 s2 s3 : string) :
  String.ltb s1 s2 = true -> String.ltb s2 s3 = true -> String.ltb s1 s3 = true.
Proof.
  unfold String.ltb. intros H12 H23.
  destruct (String.compare s1 s2) eqn:E12; try discriminate.
  destruct (String.compare s2 s3) eqn:E23; try discriminate.
  rewrite (string_compare_Lt_trans _ _ _ E12 E23). reflexivity.
Qed.

(** Two different names are ordered one way or the other. *)
Lemma string_ltb_total (s1 s2 : string) :
  s1 <> s2 -> String.ltb s1 s2 = false -> String.ltb s2 s1 = true.
Proof.
  unfold String.ltb. intros Hne. rewrite (String.compare_antisym s1 s2).
  destruct (String.compare s2 s1) eqn:E; cbn; try discriminate; [|reflexivity].
  apply String.compare_eq_iff in E. congruence.
Qed.

Section SortNames.

Context {A : Type} (name : A -> string).

(** Inserting into a slice sorted by name, an element whose name is not
    there, keeps it sorted. *)
Lemma sort_insert_sorted (x : A) (l : list A) :
  name x ∉ name <$> l ->
  StronglySorted (nameLess name) l ->
  StronglySorted (nameLess name) (sort.insert name x l).
Proof.
  intros Hx Hsorted. induction Hsorted as [|y l Hl IH Hy]; cbn [sort.insert].
  - repeat constructor.
  - rewrite fmap_cons, not_elem_of_cons in Hx. destruct Hx as [Hne Hx].
    destruct (String.ltb (name x) (name y)) eqn:Hlt.
    + constructor; [constructor; assumption|].
      constructor; [exact Hlt|].
      eapply Forall_impl; [exact Hy|]. intros z Hz.
      unfold nameLess in *. eapply string_ltb_trans; eassumption.
    + constructor; [apply IH; exact Hx|].
      apply string_ltb_total in Hlt; [|exact Hne].
      rewrite Forall_forall. intros z Hz.
      rewrite (sort_insert_Permutation name x l) in Hz.
      apply elem_of_cons in Hz as [->|Hz]; [exact Hlt|].
      rewrite Forall_forall in Hy. apply Hy, Hz.
Qed.

Lemma sort_Sort_sorted (l : list A) :
  NoDup (name <$> l) -> StronglySorted (nameLess name) (sort.Sort name l).
Proof.
  induction l as [|x l IH]; intros Hnodup; [constructor|].
  rewrite fmap_cons, NoDup_cons in Hnodup. destruct Hnodup as [Hx Hnodup].
  unfold sort.Sort in *. cbn [fold_right].
  apply sort_insert_sorted; [|apply IH; exact Hnodup].
  fold (sort.Sort name l). rewrite (sort_Sort_Permutation name l). exact Hx.
Qed.

End SortNames.

(** ** Enum: construction, order of the values, lookups *)

Lemma defineEnumValues_range_ok (gt : string) (valueMap : EnumValueConfigMap)
    (values : list EnumValueDefinition) :
  snd (defineEnumValues_range gt valueMap values) = None <->
  forallb enumValue_ok valueMap = true.
Proof.
  revert values. induction valueMap as [|[valueName [valueConfig|]] rest IH];
    intros values; cbn [defineEnumValues_range forallb enumValue_ok].
  - split; reflexivity.
  - destruct (assertValidName valueName); cbn; [split; discriminate|].
    apply IH.
  - split; discriminate.
Qed.

(** X7.  [NewEnum] builds an enum without error exactly when the name is
    valid, the value map is not empty, and every entry has a config and a
    valid name.  Its values are then the definitions of the entries (an
    unset internal value being the name), and when the names are pairwise
    distinct they are in ascending order of name whatever the order in
    which the map was visited. *)
Theorem NewEnum_ok_iff (config : EnumConfig) :
  (Enum_GetError (NewEnum config) = None <->
   assertValidName (EnumConfig_Name config) = None /\
   EnumConfig_Values config <> [] /\
   forallb enumValue_ok (EnumConfig_Values config) = true) /\
  (Enum_GetError (NewEnum config) = None ->
   Enum_GetValues (NewEnum config)
   ≡ₚ omap (fun entry => EnumValueDefinition_of (fst entry) <$> snd entry)
        (EnumConfig_Values config)) /\
  (Enum_GetError (NewEnum config) = None ->
   NoDup (fst <$> EnumConfig_Values config) ->
   StronglySorted (nameLess EnumValueDefinition_Name)
     (Enum_GetValues (NewEnum config))).
Proof.
  split; [|split; [apply NewEnum_values|]].
  - unfold NewEnum, Enum_GetError.
    destruct (assertValidName _) as [err|]; cbn [Enum_err].
    { split; [discriminate | intros (H & _); discriminate H]. }
    unfold Enum_defineEnumValues.
    destruct (decide (length (EnumConfig_Values config) = 0)) as [Hlen|Hlen].
    { apply length_zero_iff_nil in Hlen. cbn.
      split; [discriminate | intros (_ & H & _); contradiction]. }
    assert (Hne : EnumConfig_Values config <> [])
      by (intros E; rewrite E in Hlen; contradiction).
    pose proof (defineEnumValues_range_ok (EnumConfig_Name config)
                  (EnumConfig_Values config) []) as Hok.
    destruct (defineEnumValues_range _ _ _) as [values [err|]]; cbn in *.
    + split; [discriminate|]. intros (_ & _ & H). apply Hok in H. discriminate.
    + split; [|reflexivity]. intros _. repeat split; auto. apply Hok. reflexivity.
  - intros Herr Hnodup.
    pose proof (NewEnum_names config Herr) as Hnames.
    revert Herr Hnames. unfold NewEnum, Enum_GetError, Enum_GetValues.
    destruct (assertValidName _); [discriminate|].
    unfold Enum_defineEnumValues. destruct (decide _); [discriminate|].
    destruct (defineEnumValues_range _ _ _) as [values [err|]] eqn:Hrun;
      [discriminate|].
    cbn [Enum_values Enum_err]. intros _ Hnames.
    apply sort_Sort_sorted.
    rewrite sort_Sort_Permutation in Hnames. rewrite Hnames. exact Hnodup.
Qed.

(** X8.  On an enum in any state its lookups can leave it in.
    [Serialize] panics exactly when its argument cannot be hashed or the
    internal value of some value of the enum cannot; when it returns, it
    returns nil exactly when the argument equals, under [==], the internal
    value of no value of the enum.  [ParseValue] returns nil for a value
    that is not a string and for a string that names no value;
    [ParseLiteral] parses an enum-literal node as [ParseValue] parses its
    name, and returns nil for any other node. *)
Theorem Enum_lookups_miss (config : EnumConfig) (gt : Enum) :
  Enum_reachable config gt ->
  (forall value,
     Enum_Serialize gt value = Panics <->
     gomap.hashable value = false \/
     exists enumValue,
       enumValue ∈ Enum_GetValues gt /\
       gomap.hashable (EnumValueDefinition_Value enumValue) = false) /\
  (forall value result gt',
     Enum_Serialize gt value = Returns (result, gt') ->
     (result = GoNil <->
      forall enumValue,
        enumValue ∈ Enum_GetValues gt ->
        gomap.key_eq value (EnumValueDefinition_Value enumValue) = false)) /\
  (forall value,
     (forall valueStr, value <> GoString valueStr) ->
     fst (Enum_ParseValue gt value) = GoNil) /\
  (forall valueStr,
     valueStr ∉ EnumValueDefinition_Name <$> Enum_GetValues gt ->
     fst (Enum_ParseValue gt (GoString valueStr)) = GoNil) /\
  (forall valueStr,
     fst (Enum_ParseLiteral gt (ast.EnumValue valueStr))
     = fst (Enum_ParseValue gt (GoString valueStr))) /\
  (forall kind, fst (Enum_ParseLiteral gt (ast.OtherValue kind)) = GoNil).
Proof.
  intros Hreach.
  destruct (Enum_reachable_ok config gt Hreach) as (Hok & _ & _).
  unfold Enum_GetValues. split; [|split; [|repeat split]].
  - intros value. pose proof (Enum_Serialize_ok gt value Hok) as Hs.
    rewrite <- (getValueLookup_range_Panics (Enum_values gt) []).
    fold (valueTable (Enum_values gt)).
    destruct (valueTable (Enum_values gt)) as [m|].
    + destruct (gomap.hashable value).
      * destruct Hs as (gt' & -> & _).
        split; [discriminate | intros [H|H]; discriminate H].
      * split; auto.
    + split; auto.
  - intros value result gt' Hrun.
    pose proof (Enum_Serialize_ok gt value Hok) as Hs.
    destruct (valueTable (Enum_values gt)) as [m|] eqn:Htable; [|congruence].
    destruct (gomap.hashable value); [|congruence].
    destruct Hs as (gt'' & Heq & _). rewrite Heq in Hrun.
    injection Hrun as <- _.
    destruct (getValueLookup_range_lookup (Enum_values gt) [] m value Htable)
      as [(found & -> & Hfound & Hkey)|[Hnone ->]].
    + split; [discriminate|]. intros Hnone.
      rewrite (Hnone found Hfound) in Hkey. discriminate.
    + split; [intros _; exact Hnone | reflexivity].
  - intros value Hvalue.
    destruct value as [ | | | |valueStr| ]; try reflexivity.
    destruct (Hvalue valueStr). reflexivity.
  - intros valueStr Hname.
    destruct (Enum_ParseName_ok gt valueStr Hok) as (-> & _).
    unfold nameTable.
    rewrite (build_other EnumValueDefinition_Name _ _ _ Hname), lookup_empty.
    reflexivity.
Qed.

Lemma Enum_lookups_miss_witness :
  (exists gt',
     Enum_Serialize (NewEnum Sample.RGBConfig) (GoInt 5) = Returns (GoNil, gt')) /\
  Enum_Serialize (NewEnum Sample.RGBConfig) (GoSlice []) = Panics /\
  Enum_Serialize (NewEnum MoreSample.PathConfig) (GoInt 5) = Panics.
Proof.
  split; [|split].
  - eexists. reflexivity.
  - apply (proj1 (Enum_lookups_miss Sample.RGBConfig (NewEnum Sample.RGBConfig)
                    (Enum_reachable_New _))).
    left. reflexivity.
  - apply (proj1 (Enum_lookups_miss MoreSample.PathConfig
                    (NewEnum MoreSample.PathConfig) (Enum_reachable_New _))).
    right. eexists. split; [apply list_elem_of_here | reflexivity].
Defined.

(** X9.  Parsing what [Serialize] returns gives the value back even when
    several values of the enum share an internal value.  Take an enum
    built without error from a config whose names are pairwise distinct,
    in any state of its lookups, every declared internal value being one
    that can be hashed.  For the internal value of a declared value, if it
    equals itself (it is not NaN), [Serialize] returns the name of a value
    of the enum, and [ParseValue] of that name is a value equal to it
    under [==]. *)
Theorem Enum_ParseValue_Serialize (config : EnumConfig) (gt : Enum)
    (value : GoValue) :
  Enum_reachable config gt ->
  Enum_GetError gt = None ->
  NoDup (fst <$> EnumConfig_Values config) ->
  (forall enumValue, enumValue ∈ Enum_declared config ->
     gomap.hashable (EnumValueDefinition_Value enumValue) = true) ->
  value ∈ EnumValueDefinition_Value <$> Enum_declared config ->
  gomap.key_eq value value = true ->
  exists name gt',
    Enum_Serialize gt value = Returns (GoString name, gt') /\
    name ∈ EnumValueDefinition_Name <$> Enum_GetValues gt /\
    gomap.key_eq (fst (Enum_ParseValue gt' (GoString name))) value = true.
Proof.
  intros Hreach Herr Hkeys Hhash Hvalue Hself.
  destruct (Enum_reachable_declared config gt Hreach Herr Hkeys)
    as (Hok & Hvalues & Hnames).
  apply list_elem_of_fmap in Hvalue as (enumValue & -> & Hin).
  rewrite <- Hvalues in Hin.
  destruct (Enum_Serialize_found gt enumValue Hok) as
    (found & gt' & Hs & Hfound & Hkey & Hok' & Hv' & _); auto.
  { intros value' Hin'. apply Hhash. rewrite <- Hvalues. exact Hin'. }
  exists (EnumValueDefinition_Name found), gt'.
  split; [exact Hs|]. split.
  - unfold Enum_GetValues. apply list_elem_of_fmap. exists found. auto.
  - destruct (Enum_ParseName_ok gt' (EnumValueDefinition_Name found) Hok')
      as (-> & _).
    rewrite Hv'. unfold nameTable.
    rewrite (build_lookup EnumValueDefinition_Name _ _ _ Hnames Hfound).
    apply key_eq_sym, Hkey.
Qed.

Lemma Enum_ParseValue_Serialize_witness :
  exists name gt',
    Enum_Serialize (NewEnum MoreSample.ToggleConfig) (GoInt 1)
    = Returns (GoString name, gt') /\
    name ∈ EnumValueDefinition_Name
             <$> Enum_GetValues (NewEnum MoreSample.ToggleConfig) /\
    gomap.key_eq (fst (Enum_ParseValue gt' (GoString name))) (GoInt 1) = true.
Proof.
  apply (Enum_ParseValue_Serialize MoreSample.ToggleConfig
           (NewEnum MoreSample.ToggleConfig) (GoInt 1)).
  - constructor.
  - reflexivity.
  - apply (@bool_decide_unpack _ (NoDup_dec _)). vm_compute. exact I.
  - intros enumValue Hin. apply list_elem_of_In in Hin. vm_compute in Hin.
    destruct Hin as [<-|[<-|[<-|[]]]]; reflexivity.
  - apply list_elem_of_In. vm_compute. left. reflexivity.
  - reflexivity.
Defined.

(** The other way round needs the internal values to differ: [ON] and
    [YES] share one, and [ON] parses and serializes back as [YES]. *)
Example Toggle_not_round_trip :
  fst (Enum_ParseValue (NewEnum MoreSample.ToggleConfig) (GoString "ON"))
  = GoInt 1 /\
  exists gt',
    Enum_Serialize (NewEnum MoreSample.ToggleConfig) (GoInt 1)
    = Returns (GoString "YES", gt').
Proof. split; [|eexists]; vm_compute; reflexivity. Qed.

(** ** Object: construction and registration *)

Lemma defineInterfaces_range_accepted (heap : InterfaceHeap) (ttype : Object)
    (interfaces : list (option InterfacePtr)) (ifaces : list InterfacePtr) :
  fst (defineInterfaces_range heap ttype interfaces ifaces)
  = ifaces ++ acceptedInterfaces heap interfaces /\
  (snd (defineInterfaces_range heap ttype interfaces ifaces) = None <->
   forallb (interface_ok heap) interfaces = true).
Proof.
  revert ifaces. induction interfaces as [|[iface|] rest IH]; intros ifaces;
    cbn [defineInterfaces_range acceptedInterfaces forallb interface_ok].
  - rewrite app_nil_r. split; [reflexivity | split; reflexivity].
  - destruct (Interface_ResolveType (heap iface)); cbn.
    + destruct (IH (ifaces ++ [iface])) as [-> Herr].
      rewrite <- app_assoc. split; [reflexivity | exact Herr].
    + rewrite app_nil_r. split; [reflexivity | split; discriminate].
  - cbn. rewrite app_nil_r. split; [reflexivity | split; discriminate].
Qed.

Lemma defineInterfaces_accepted (heap : InterfaceHeap) (ttype : Object)
    (interfaces : list (option InterfacePtr)) :
  fst (defineInterfaces heap ttype interfaces)
  = acceptedInterfaces heap interfaces /\
  (snd (defineInterfaces heap ttype interfaces) = None <->
   forallb (interface_ok heap) interfaces = true).
Proof.
  unfold defineInterfaces. destruct (decide _) as [Hlen|_].
  - apply length_zero_iff_nil in Hlen. subst. cbn.
    split; [reflexivity | split; reflexivity].
  - apply (defineInterfaces_range_accepted heap ttype interfaces []).
Qed.

(** The accepted pointers are the head of the slice, and what follows
    them starts with an entry that is not accepted. *)
Lemma acceptedInterfaces_prefix (heap : InterfaceHeap)
    (interfaces : list (option InterfacePtr)) :
  exists rest,
    interfaces = (Some <$> acceptedInterfaces heap interfaces) ++ rest /\
    (forallb (interface_ok heap) interfaces = true <-> rest = []) /\
    (forall entry, head rest = Some entry -> interface_ok heap entry = false).
Proof.
  induction interfaces as [|[iface|] l (rest & IH & Hall & Hhead)];
    cbn [acceptedInterfaces forallb interface_ok].
  - exists []. repeat split; auto. discriminate.
  - destruct (Interface_ResolveType (heap iface)) eqn:Hiface.
    + exists rest. cbn. rewrite <- IH. repeat split; auto; apply Hall.
    + exists (Some iface :: l). cbn. repeat split; try discriminate.
      intros entry [= <-]. cbn. rewrite Hiface. reflexivity.
  - exists (None :: l). cbn. repeat split; try discriminate.
    intros entry [= <-]. reflexivity.
Qed.

Lemma acceptedInterfaces_ResolveType (heap : InterfaceHeap)
    (interfaces : list (option InterfacePtr)) :
  Forall (fun iface => Interface_ResolveType (heap iface) <> None)
    (acceptedInterfaces heap interfaces).
Proof.
  induction interfaces as [|[first|] l IH]; cbn [acceptedInterfaces];
    try constructor.
  destruct (Interface_ResolveType (heap first)) eqn:Hfirst; constructor;
    [congruence | exact IH].
Qed.

Lemma interface_ok_Forall (heap : InterfaceHeap)
    (interfaces : list InterfacePtr) :
  forallb (interface_ok heap) (Some <$> interfaces) = true <->
  Forall (fun iface => Interface_ResolveType (heap iface) <> None) interfaces.
Proof.
  induction interfaces as [|iface l IH]; cbn.
  - split; [constructor | reflexivity].
  - rewrite Forall_cons, <- IH.
    destruct (Interface_ResolveType (heap iface)); cbn; intuition congruence.
Qed.

Lemma acceptedInterfaces_all (heap : InterfaceHeap)
    (interfaces : list InterfacePtr) :
  Forall (fun iface => Interface_ResolveType (heap iface) <> None) interfaces ->
  acceptedInterfaces heap (Some <$> interfaces) = interfaces.
Proof.
  induction 1 as [|iface l Hiface _ IH]; cbn [acceptedInterfaces fmap list_fmap];
    [reflexivity|].
  cbn. destruct (Interface_ResolveType (heap iface)); [|contradiction].
  f_equal. exact IH.
Qed.

(** The heap after the loop that ends [NewObject]: an interface has been
    written once for each time its pointer occurs in the slice. *)
Lemma NewObject_range_at (objectType : Object) (interfaces : list InterfacePtr)
    (heap : InterfaceHeap) (iface : InterfacePtr) :
  NewObject_range objectType interfaces heap iface
  = Nat.iter (occurrences iface interfaces) (Interface_register objectType)
      (heap iface).
Proof.
  revert heap. unfold NewObject_range, occurrences.
  induction interfaces as [|p l IH]; intros heap; [reflexivity|].
  cbn [fold_left]. rewrite IH, filter_cons. unfold InterfaceHeap_write.
  destruct (decide (p = iface)) as [->|Hne].
  - rewrite decide_True by reflexivity. cbn [length].
    rewrite Nat.iter_succ_r. reflexivity.
  - rewrite decide_False by congruence. reflexivity.
Qed.

Lemma Interface_register_iter (objectType : Object) (iface : Interface)
    (n : nat) :
  Interface_GetPossibleTypes (Nat.iter n (Interface_register objectType) iface)
  = Interface_GetPossibleTypes iface ++ replicate n (Some objectType) /\
  Interface_ResolveType (Nat.iter n (Interface_register objectType) iface)
  = Interface_ResolveType iface.
Proof.
  unfold Interface_GetPossibleTypes.
  induction n as [|n [IHtypes IHresolve]].
  - cbn. rewrite app_nil_r. split; reflexivity.
  - rewrite Nat.iter_succ. cbn [Interface_register Interface_implementations
                                 Interface_ResolveType].
    split; [|exact IHresolve].
    change (map Some ?l) with (Some <$> l) in *.
    rewrite fmap_app, IHtypes, replicate_S_end, app_assoc. reflexivity.
Qed.

Lemma occurrences_elem_of (iface : InterfacePtr)
    (interfaces : list InterfacePtr) :
  iface ∈ interfaces -> exists n, occurrences iface interfaces = S n.
Proof.
  intros Hin. unfold occurrences.
  destruct (filter _ interfaces) as [|p l] eqn:Hfilter; [|cbn; eauto].
  assert (H : iface ∈ filter (fun p => p = iface) interfaces)
    by (apply list_elem_of_filter; auto).
  rewrite Hfilter in H. apply elem_of_nil in H as [].
Qed.

Lemma occurrences_not_elem_of (iface : InterfacePtr)
    (interfaces : list InterfacePtr) :
  iface ∉ interfaces -> occurrences iface interfaces = 0.
Proof.
  intros Hnot. unfold occurrences.
  destruct (filter _ interfaces) as [|p l] eqn:Hfilter; [reflexivity|].
  assert (H : p ∈ filter (fun p => p = iface) interfaces)
    by (rewrite Hfilter; apply list_elem_of_here).
  apply list_elem_of_filter in H as [-> H]. contradiction.
Qed.

(** [NewObject] on a config with a valid name whose [Interfaces] is a
    slice, a thunk or nil. *)
Lemma NewObject_valid (heap : InterfaceHeap) (config : ObjectConfig)
    (interfaces : list (option InterfacePtr)) :
  assertValidName (ObjectConfig_Name config) = None ->
  ObjectConfig_interfaces config = Some interfaces ->
  Object_Name (fst (NewObject heap config)) = ObjectConfig_Name config /\
  Object_IsTypeOf (fst (NewObject heap config)) = ObjectConfig_IsTypeOf config /\
  Object_typeConfig (fst (NewObject heap config)) = config /\
  Object_interfaces (fst (NewObject heap config))
  = Some (acceptedInterfaces heap interfaces) /\
  (Object_GetError (fst (NewObject heap config)) = None <->
   forallb (interface_ok heap) interfaces = true) /\
  snd (NewObject heap config)
  = NewObject_range (fst (NewObject heap config))
      (acceptedInterfaces heap interfaces) heap.
Proof.
  intros Hname Hcfg. unfold NewObject. rewrite Hname.
  destruct (decide _) as [E|_];
    [apply assertValidName_nonempty in Hname; contradiction|].
  unfold Object_GetInterfaces, ObjectConfig_interfaces in *.
  cbn [Object_typeConfig].
  assert (Hrun : forall ttype,
    fst (defineInterfaces heap ttype interfaces)
    = acceptedInterfaces heap interfaces /\
    (snd (defineInterfaces heap ttype interfaces) = None <->
     forallb (interface_ok heap) interfaces = true))
    by (intros ttype; apply defineInterfaces_accepted).
  destruct (ObjectConfig_Interfaces config) as [thunk|l| |typeName];
    try discriminate; injection Hcfg as Hcfg; rewrite Hcfg;
    match goal with
    | |- context [defineInterfaces heap ?o interfaces] =>
        destruct (Hrun o) as [Hifaces Herr];
        destruct (defineInterfaces heap o interfaces) as [ifaces err]
    end; cbn in *; subst ifaces; repeat split; try apply Herr; auto.
Qed.

(** [NewObject] leaves the heap as it is when it refuses the name or does
    not know the dynamic type of [Interfaces]. *)
Lemma NewObject_heap_kept (heap : InterfaceHeap) (config : ObjectConfig) :
  assertValidName (ObjectConfig_Name config) <> None \/
  ObjectConfig_interfaces config = None ->
  Object_GetError (fst (NewObject heap config)) <> None /\
  snd (NewObject heap config) = heap.
Proof.
  intros Hcase. unfold NewObject.
  destruct (decide _); [split; [discriminate | reflexivity]|].
  destruct (assertValidName (ObjectConfig_Name config)) as [err|];
    [split; [discriminate | reflexivity]|].
  destruct Hcase as [Hname|Hcfg]; [congruence|].
  unfold Object_GetInterfaces, ObjectConfig_interfaces in *.
  cbn [Object_typeConfig].
  destruct (ObjectConfig_Interfaces config); try discriminate.
  split; [discriminate | reflexivity].
Qed.

(** X10.  [NewObject] builds an object without error exactly when the
    name is valid and [Interfaces] is nil, a slice or a thunk whose
    entries all point at an interface with a [ResolveType]; the fields play
    no part.  The object then holds the pointers of the config, and each
    interface has been given the object as a possible type once for each
    time its pointer is listed, at the end; an interface that is not
    listed is as it was.  When the name is refused or [Interfaces] has an
    unknown dynamic type, no interface is written to. *)
Theorem NewObject_ok_iff (heap : InterfaceHeap) (config : ObjectConfig) :
  (Object_GetError (fst (NewObject heap config)) = None <->
   assertValidName (ObjectConfig_Name config) = None /\
   exists interfaces,
     ObjectConfig_interfaces config = Some (Some <$> interfaces) /\
     Forall (fun iface => Interface_ResolveType (heap iface) <> None)
       interfaces) /\
  (forall interfaces,
     Object_GetError (fst (NewObject heap config)) = None ->
     ObjectConfig_interfaces config = Some (Some <$> interfaces) ->
     Object_interfaces (fst (NewObject heap config)) = Some interfaces /\
     (forall iface,
        Interface_GetPossibleTypes (snd (NewObject heap config) iface)
        = Interface_GetPossibleTypes (heap iface)
          ++ replicate (occurrences iface interfaces)
               (Some (fst (NewObject heap config)))) /\
     (forall iface,
        iface ∉ interfaces -> snd (NewObject heap config) iface = heap iface)) /\
  (assertValidName (ObjectConfig_Name config) <> None \/
   ObjectConfig_interfaces config = None ->
   snd (NewObject heap config) = heap).
Proof.
  split; [|split].
  - destruct (assertValidName (ObjectConfig_Name config)) as [err|] eqn:Hname.
    { split; [|intros (H & _); discriminate H].
      intros H. destruct (NewObject_heap_kept heap config) as [Herr _];
        [left; congruence | contradiction]. }
    destruct (ObjectConfig_interfaces config) as [l|] eqn:Hcfg.
    + destruct (NewObject_valid heap config l Hname Hcfg)
        as (_ & _ & _ & _ & -> & _).
      destruct (acceptedInterfaces_prefix heap l) as (rest & Hl & Hall & _).
      split.
      * intros Hok. split; [reflexivity|].
        exists (acceptedInterfaces heap l).
        rewrite (proj1 Hall Hok), app_nil_r in Hl.
        split; [congruence | apply acceptedInterfaces_ResolveType].
      * intros (_ & interfaces & [= ->] & Hforall).
        apply interface_ok_Forall. exact Hforall.
    + split; [|intros (_ & interfaces & H & _); discriminate H].
      intros H. destruct (NewObject_heap_kept heap config) as [Herr _];
        [right; exact Hcfg | contradiction].
  - intros interfaces Herr Hcfg.
    assert (Hname : assertValidName (ObjectConfig_Name config) = None).
    { destruct (assertValidName (ObjectConfig_Name config)) eqn:Hname;
        [|reflexivity].
      destruct (NewObject_heap_kept heap config) as [Herr' _];
        [left; congruence | contradiction]. }
    destruct (NewObject_valid heap config _ Hname Hcfg)
      as (_ & _ & _ & Hifaces & Hok & Hreg).
    apply Hok, interface_ok_Forall in Herr.
    rewrite (acceptedInterfaces_all heap interfaces Herr) in Hifaces, Hreg.
    split; [exact Hifaces|]. split.
    + intros iface. rewrite Hreg, NewObject_range_at.
      apply Interface_register_iter.
    + intros iface Hnot. rewrite Hreg, NewObject_range_at.
      rewrite (occurrences_not_elem_of iface interfaces Hnot). reflexivity.
  - intros Hcase. apply (NewObject_heap_kept heap config Hcase).
Qed.

(** X11.  [NewObject] on a config with a valid name registers the object
    with the interfaces at the head of its slice, up to the first entry
    that is nil or points at an interface without [ResolveType], and with
    no other: also when it stops at such an entry and records its error.
    Each of these interfaces is written through its pointer once for each
    time it is listed, so the interfaces that the object holds list the
    object last among their possible types.  An interface without
    [ResolveType] is never given an implementation. *)
Theorem NewObject_registers_accepted (heap : InterfaceHeap)
    (config : ObjectConfig) (interfaces : list (option InterfacePtr)) :
  assertValidName (ObjectConfig_Name config) = None ->
  ObjectConfig_interfaces config = Some interfaces ->
  exists accepted rest,
    interfaces = (Some <$> accepted) ++ rest /\
    Forall (fun iface => Interface_ResolveType (heap iface) <> None) accepted /\
    (forall entry, head rest = Some entry -> interface_ok heap entry = false) /\
    (Object_GetError (fst (NewObject heap config)) = None <-> rest = []) /\
    Object_interfaces (fst (NewObject heap config)) = Some accepted /\
    (forall iface,
       snd (NewObject heap config) iface
       = Nat.iter (occurrences iface accepted)
           (Interface_register (fst (NewObject heap config))) (heap iface)) /\
    (forall iface,
       iface ∈ accepted ->
       last (Interface_GetPossibleTypes (snd (NewObject heap config) iface))
       = Some (Some (fst (NewObject heap config)))) /\
    (forall iface,
       Interface_ResolveType (heap iface) = None ->
       snd (NewObject heap config) iface = heap iface).
Proof.
  intros Hname Hcfg.
  destruct (NewObject_valid heap config _ Hname Hcfg)
    as (_ & _ & _ & Hifaces & Hok & Hreg).
  destruct (acceptedInterfaces_prefix heap interfaces)
    as (rest & Hrest & Hall & Hhead).
  pose proof (acceptedInterfaces_ResolveType heap interfaces) as Haccepted.
  exists (acceptedInterfaces heap interfaces), rest.
  split; [exact Hrest|]. split; [exact Haccepted|]. split; [exact Hhead|].
  split; [rewrite Hok; exact Hall|]. split; [exact Hifaces|].
  assert (Hat : forall iface,
    snd (NewObject heap config) iface
    = Nat.iter (occurrences iface (acceptedInterfaces heap interfaces))
        (Interface_register (fst (NewObject heap config))) (heap iface)).
  { intros iface. rewrite Hreg. apply NewObject_range_at. }
  split; [exact Hat|]. split.
  - intros iface Hin. rewrite Hat.
    destruct (occurrences_elem_of iface _ Hin) as [n ->].
    rewrite (proj1 (Interface_register_iter _ _ _)), replicate_S_end, app_assoc.
    apply last_snoc.
  - intros iface Hiface. rewrite Hat, occurrences_not_elem_of; [reflexivity|].
    intros Hin. rewrite Forall_forall in Haccepted.
    exact (Haccepted iface Hin Hiface).
Qed.

Lemma NewObject_registers_accepted_witness :
  Object_GetError (fst (NewObject Sample.heap Sample.HumanConfig)) <> None /\
  exists accepted rest,
    [Some Sample.LabelledPtr; Some Sample.NodePtr] = (Some <$> accepted) ++ rest /\
    Object_interfaces (fst (NewObject Sample.heap Sample.HumanConfig))
    = Some accepted /\
    (forall iface,
       iface ∈ accepted ->
       last (Interface_GetPossibleTypes
               (snd (NewObject Sample.heap Sample.HumanConfig) iface))
       = Some (Some (fst (NewObject Sample.heap Sample.HumanConfig)))).
Proof.
  split; [discriminate|].
  destruct (NewObject_registers_accepted Sample.heap Sample.HumanConfig
              [Some Sample.LabelledPtr; Some Sample.NodePtr] eq_refl eq_refl)
    as (accepted & rest & Hsplit & _ & _ & _ & Hifaces & _ & Hlast & _).
  exists accepted, rest. auto.
Defined.

(** An interface that is listed twice is given the object twice. *)
Example Twice_registered :
  Interface_GetPossibleTypes
    (snd (NewObject Sample.heap MoreSample.TwiceConfig) Sample.LabelledPtr)
  = [Some (fst (NewObject Sample.heap MoreSample.TwiceConfig));
     Some (fst (NewObject Sample.heap MoreSample.TwiceConfig))].
Proof. reflexivity. Qed.

(** ** Object: the field map *)

Lemma defineFieldMap_args_accepted (ttype : Named) (fieldName : string)
    (Args : FieldConfigArgument Type_) (fieldArgs : list (Argument Type_)) :
  forallb argument_ok Args = true ->
  defineFieldMap_args ttype fieldName Args fieldArgs
  = inl (fieldArgs ++ omap Argument_of Args).
Proof.
  revert fieldArgs. induction Args as [|[argName [arg|]] rest IH];
    intros fieldArgs; cbn [forallb argument_ok defineFieldMap_args].
  - intros _. cbn. rewrite app_nil_r. reflexivity.
  - destruct (assertValidName argName); [discriminate|].
    destruct (ArgumentConfig_Type arg) eqn:Htype; [|discriminate].
    cbn [andb]. intros H. rewrite IH by exact H.
    rewrite <- app_assoc. cbn. rewrite Htype. reflexivity.
  - rewrite andb_false_r || cbn. discriminate.
Qed.

Lemma defineFieldMap_range_accepted (ttype : Named) (k : string)
    (field : FieldConfig Type_) (rest : FieldConfigMap Type_)
    (m : FieldDefinitionMap) :
  field_ok k field = true ->
  defineFieldMap_range ttype ((k, Some field) :: rest) m
  = defineFieldMap_range ttype rest (<[k := FieldDefinition_of k field]> m).
Proof.
  unfold field_ok, FieldDefinition_of. cbn [defineFieldMap_range].
  destruct (FieldConfig_Type field) as [fieldType|]; [|discriminate].
  destruct (Type_GetError fieldType); [discriminate|].
  destruct (assertValidName k); [discriminate|].
  cbn [andb]. intros H.
  rewrite (defineFieldMap_args_accepted ttype k _ [] H). reflexivity.
Qed.

Lemma defineFieldMap_range_lookup (ttype : Named) (l : FieldConfigMap Type_)
    (m : FieldDefinitionMap) (k : string) (fieldDef : FieldDefinition Type_) :
  forallb field_entry_passes l = true ->
  NoDup (fst <$> l) ->
  fst (defineFieldMap_range ttype l m) !! k = Some fieldDef <->
  (exists field, (k, Some field) ∈ l /\ fieldDef = FieldDefinition_of k field) \/
  ((forall field, (k, Some field) ∉ l) /\ m !! k = Some fieldDef).
Proof.
  revert m. induction l as [|[k0 [field0|]] rest IH]; intros m Hpass Hnodup;
    cbn [forallb field_entry_passes] in Hpass;
    [|rewrite fmap_cons in Hnodup; apply NoDup_cons in Hnodup as [Hk0 Hnodup]..].
  - cbn. split.
    + intros H. right. split; [intros field; apply not_elem_of_nil | exact H].
    + intros [(field & H & _)|[_ H]]; [apply elem_of_nil in H as [] | exact H].
  - apply andb_true_iff in Hpass as [Hfield Hpass].
    assert (Hfresh : forall field, (k0, Some field) ∉ rest).
    { intros field Hin. apply Hk0. apply list_elem_of_fmap.
      exists (k0, Some field). split; [reflexivity | exact Hin]. }
    rewrite (defineFieldMap_range_accepted ttype k0 field0 rest m Hfield).
    rewrite (IH _ Hpass Hnodup).
    destruct (decide (k = k0)) as [->|Hne].
    + rewrite lookup_insert_eq. split.
      * intros [(field & Hin & _)|[_ [= <-]]].
        { destruct (Hfresh _ Hin). }
        left. exists field0. split; [apply list_elem_of_here | reflexivity].
      * intros [(field & Hin & ->)|[Hnot _]].
        -- apply elem_of_cons in Hin as [[= <-]|Hin].
           2:{ destruct (Hfresh _ Hin). }
           right. split; [exact Hfresh | reflexivity].
        -- destruct (Hnot field0). apply list_elem_of_here.
    + rewrite lookup_insert_ne by congruence. split.
      * intros [(field & Hin & ->)|[Hnot Hm]].
        -- left. exists field. split; [apply list_elem_of_further, Hin | reflexivity].
        -- right. split; [|exact Hm]. intros field.
           rewrite not_elem_of_cons. split; [congruence | apply Hnot].
      * intros [(field & Hin & ->)|[Hnot Hm]].
        -- apply elem_of_cons in Hin as [[= ? _]|Hin]; [contradiction|].
           left. exists field. split; [exact Hin | reflexivity].
        -- right. split; [|exact Hm]. intros field.
           specialize (Hnot field). apply not_elem_of_cons in Hnot as [_ Hnot].
           exact Hnot.
  - cbn [defineFieldMap_range]. rewrite (IH _ Hpass Hnodup). split.
    + intros [(field & Hin & ->)|[Hnot Hm]].
      * left. exists field. split; [apply list_elem_of_further, Hin | reflexivity].
      * right. split; [|exact Hm]. intros field.
        rewrite not_elem_of_cons. split; [discriminate | apply Hnot].
    + intros [(field & Hin & ->)|[Hnot Hm]].
      * apply elem_of_cons in Hin as [Heq|Hin]; [discriminate Heq|].
        left. exists field. split; [exact Hin | reflexivity].
      * right. split; [|exact Hm]. intros field.
        specialize (Hnot field). apply not_elem_of_cons in Hnot as [_ Hnot].
        exact Hnot.
Qed.

Lemma defineFieldMap_range_from (ttype : Named) (l : FieldConfigMap Type_)
    (m : FieldDefinitionMap) (k : string) (fieldDef : FieldDefinition Type_) :
  fst (defineFieldMap_range ttype l m) !! k = Some fieldDef ->
  m !! k = Some fieldDef \/
  exists field, (k, Some field) ∈ l /\ field_ok k field = true /\
                fieldDef = FieldDefinition_of k field.
Proof.
  revert m. induction l as [|[k0 [field0|]] rest IH]; intros m.
  - cbn. auto.
  - destruct (field_ok k0 field0) eqn:Hok.
    + rewrite (defineFieldMap_range_accepted ttype k0 field0 rest m Hok).
      intros H. apply IH in H as [H|(field & Hin & Hf & ->)].
      * destruct (decide (k = k0)) as [->|Hne].
        -- rewrite lookup_insert_eq in H. injection H as <-.
           right. exists field0. split; [apply list_elem_of_here | auto].
        -- rewrite lookup_insert_ne in H by congruence. auto.
      * right. exists field. split; [apply list_elem_of_further, Hin | auto].
    + destruct (defineFieldMap_range_ko ttype k0 field0 rest m Hok) as [err ->].
      cbn. auto.
  - cbn [defineFieldMap_range]. intros H.
    apply IH in H as [H|(field & Hin & Hf & ->)]; [auto|].
    right. exists field. split; [apply list_elem_of_further, Hin | auto].
Qed.

Lemma defineFieldMap_snd_None (ttype : Named) (fields : FieldConfigMap Type_) :
  snd (defineFieldMap ttype fields) = None <->
  fields <> [] /\ forallb field_entry_passes fields = true.
Proof.
  unfold defineFieldMap. destruct (decide _) as [Hlen|Hlen].
  - apply length_zero_iff_nil in Hlen. subst. cbn.
    split; [discriminate | intros [H _]; contradiction].
  - assert (Hne : fields <> []) by (intros ->; apply Hlen; reflexivity).
    split.
    + intros Herr. split; [exact Hne|].
      destruct (forallb field_entry_passes fields) eqn:Hall; [reflexivity|].
      apply forallb_first_failure in Hall
        as (before & [k [field|]] & after & -> & Hbefore & Hx);
        cbn in Hx; [|discriminate].
      destruct (defineFieldMap_range_stops ttype before k field after ∅
                  Hbefore Hx) as [err Heq].
      rewrite Heq in Herr. discriminate.
    + intros [_ Hall]. apply defineFieldMap_range_passes. exact Hall.
Qed.

(** X12.  [defineFieldMap] returns without error exactly when the field map
    is not empty and no entry stops it: each entry has a nil config, or a
    type that is there and carries no error, a valid name and arguments
    that all have a valid name, a config and a type.  On an empty map the
    error names the type.  Whatever it returns, the result holds only
    definitions made of accepted entries. *)
Theorem defineFieldMap_ok_iff (ttype : Named) (fields : FieldConfigMap Type_) :
  (snd (defineFieldMap ttype fields) = None <->
   fields <> [] /\ forallb field_entry_passes fields = true) /\
  (exists err, defineFieldMap ttype [] = (∅, Some err) /\
               names (Error err) (Type_String ttype)) /\
  (forall k fieldDef,
     fst (defineFieldMap ttype fields) !! k = Some fieldDef ->
     exists field, (k, Some field) ∈ fields /\ field_ok k field = true /\
                   fieldDef = FieldDefinition_of k field).
Proof.
  split; [apply defineFieldMap_snd_None|]. split.
  - eexists. split; [reflexivity|].
    rewrite Error_NewFormattedError. apply names_append_l.
  - intros k fieldDef. unfold defineFieldMap.
    destruct (decide _); cbn [fst].
    + rewrite lookup_empty. discriminate.
    + intros H. apply defineFieldMap_range_from in H as [H|H]; [|exact H].
      rewrite lookup_empty in H. discriminate.
Qed.

Lemma Argument_of_names (Args : FieldConfigArgument Type_) :
  forallb argument_ok Args = true ->
  @Argument_Name Type_ <$> omap Argument_of Args = fst <$> Args.
Proof.
  induction Args as [|[argName [arg|]] rest IH]; cbn [forallb argument_ok];
    [reflexivity| |discriminate].
  intros H. apply andb_true_iff in H as [_ H]. cbn. rewrite IH by exact H.
  reflexivity.
Qed.

(** X13.  When no entry stops it and the keys are those of a map,
    [defineFieldMap] defines exactly the fields whose config is not nil.
    The definition of a field has the key as its name, the type, resolver
    and texts of the config, and one argument for each entry of [Args],
    in ascending order of name. *)
Theorem defineFieldMap_definitions (ttype : Named)
    (fields : FieldConfigMap Type_) :
  forallb field_entry_passes fields = true ->
  NoDup (fst <$> fields) ->
  (forall (k : string) (fieldDef : FieldDefinition Type_),
     fst (defineFieldMap ttype fields) !! k = Some fieldDef ->
     exists field : FieldConfig Type_, (k, Some field) ∈ fields) /\
  (forall (k : string) (field : FieldConfig Type_),
     (k, Some field) ∈ fields ->
     exists fieldDef : FieldDefinition Type_,
       fst (defineFieldMap ttype fields) !! k = Some fieldDef /\
       FieldDefinition_Name fieldDef = k /\
       FieldDefinition_Type fieldDef = FieldConfig_Type field /\
       FieldDefinition_Resolve fieldDef = FieldConfig_Resolve field /\
       FieldDefinition_Description fieldDef = FieldConfig_Description field /\
       FieldDefinition_DeprecationReason fieldDef
       = FieldConfig_DeprecationReason field /\
       FieldDefinition_Args fieldDef ≡ₚ omap Argument_of (FieldConfig_Args field) /\
       @Argument_Name Type_ <$> FieldDefinition_Args fieldDef
       ≡ₚ fst <$> FieldConfig_Args field /\
       (NoDup (fst <$> FieldConfig_Args field) ->
        StronglySorted (nameLess (@Argument_Name Type_))
          (FieldDefinition_Args fieldDef))).
Proof.
  intros Hpass Hnodup.
  assert (Hmap : fst (defineFieldMap ttype fields)
                 = fst (defineFieldMap_range ttype fields ∅)).
  { unfold defineFieldMap. destruct (decide _) as [Hlen|_]; [|reflexivity].
    apply length_zero_iff_nil in Hlen. subst. reflexivity. }
  rewrite Hmap. split.
  - intros k fieldDef H.
    apply (defineFieldMap_range_lookup ttype fields ∅ k fieldDef Hpass Hnodup)
      in H as [(field & Hin & _)|[_ H]]; [eauto|].
    rewrite lookup_empty in H. discriminate.
  - intros k field Hin. exists (FieldDefinition_of k field).
    split.
    { apply (defineFieldMap_range_lookup ttype fields ∅ k _ Hpass Hnodup).
      left. exists field. split; [exact Hin | reflexivity]. }
    assert (Hargs : forallb argument_ok (FieldConfig_Args field) = true).
    { rewrite forallb_forall in Hpass.
      apply list_elem_of_In, Hpass in Hin. cbn in Hin. unfold field_ok in Hin.
      destruct (FieldConfig_Type field); [|discriminate].
      apply andb_true_iff in Hin as [_ Hin]. exact Hin. }
    assert (Hperm : FieldDefinition_Args (FieldDefinition_of k field)
                    ≡ₚ omap Argument_of (FieldConfig_Args field))
      by apply sort_Sort_Permutation.
    repeat split; try reflexivity.
    + exact Hperm.
    + rewrite Hperm, (Argument_of_names _ Hargs). reflexivity.
    + intros Hkeys. apply sort_Sort_sorted.
      rewrite (Argument_of_names _ Hargs). exact Hkeys.
Qed.

Lemma defineFieldMap_definitions_witness :
  exists fieldDef,
    fst (defineFieldMap Sample.StringType MoreSample.QueryFields) !! "user"
    = Some fieldDef /\
    @Argument_Name Type_ <$> FieldDefinition_Args fieldDef = ["id"; "name"].
Proof.
  assert (Hnodup : NoDup (fst <$> MoreSample.QueryFields)).
  { apply (@bool_decide_unpack _ (NoDup_dec _)). vm_compute. exact I. }
  destruct (defineFieldMap_definitions Sample.StringType MoreSample.QueryFields
              eq_refl Hnodup) as [_ H].
  destruct (H "user" MoreSample.userField) as (fieldDef & Hlookup & _);
    [apply list_elem_of_here|].
  exists fieldDef. split; [exact Hlookup|].
  vm_compute in Hlookup. injection Hlookup as <-. reflexivity.
Defined.

(** ** The error a type carries after its accessors have run *)

(** [defineInterfaces] reads the name of the object, and the name and the
    [ResolveType] of the interfaces. *)
Lemma defineInterfaces_name (heap heap' : InterfaceHeap) (gt gt' : Object)
    (interfaces : list (option InterfacePtr)) :
  Object_Name gt = Object_Name gt' ->
  (forall iface,
     Interface_ResolveType (heap' iface) = Interface_ResolveType (heap iface) /\
     Interface_Name (heap' iface) = Interface_Name (heap iface)) ->
  snd (defineInterfaces heap gt interfaces)
  = snd (defineInterfaces heap' gt' interfaces).
Proof.
  intros Hname Hheap. unfold defineInterfaces.
  destruct (decide _) as [|_]; [reflexivity|].
  generalize (@nil InterfacePtr).
  induction interfaces as [|[iface|] rest IH]; intros ifaces;
    cbn [defineInterfaces_range]; unfold Object_String, Interface_String.
  - reflexivity.
  - destruct (Hheap iface) as [-> ->].
    destruct (Interface_ResolveType (heap iface)); [apply IH|].
    rewrite Hname. reflexivity.
  - rewrite Hname. reflexivity.
Qed.

Lemma Object_GetInterfaces_err (heap heap' : InterfaceHeap) (gt gt' : Object) :
  Object_Name gt = Object_Name gt' ->
  Object_typeConfig gt = Object_typeConfig gt' ->
  (forall iface,
     Interface_ResolveType (heap' iface) = Interface_ResolveType (heap iface) /\
     Interface_Name (heap' iface) = Interface_Name (heap iface)) ->
  Object_GetError (snd (Object_GetInterfaces heap gt))
  = Object_GetError (snd (Object_GetInterfaces heap' gt')).
Proof.
  intros Hname Hconfig Hheap. unfold Object_GetInterfaces. rewrite <- Hconfig.
  destruct (ObjectConfig_Interfaces (Object_typeConfig gt))
    as [thunk|l| |typeName]; try reflexivity;
    match goal with
    | |- context [defineInterfaces heap gt ?l] =>
        pose proof (defineInterfaces_name heap heap' gt gt' l Hname Hheap)
          as Herr;
        destruct (defineInterfaces heap gt l), (defineInterfaces heap' gt' l)
    end; exact Herr.
Qed.

Lemma Object_GetInterfaces_keeps (heap : InterfaceHeap) (gt : Object) :
  Object_Name (snd (Object_GetInterfaces heap gt)) = Object_Name gt /\
  Object_typeConfig (snd (Object_GetInterfaces heap gt)) = Object_typeConfig gt.
Proof.
  unfold Object_GetInterfaces.
  destruct (ObjectConfig_Interfaces (Object_typeConfig gt))
    as [thunk|l| |typeName]; try (split; reflexivity);
    match goal with
    | |- context [defineInterfaces heap gt ?l] =>
        destruct (defineInterfaces heap gt l)
    end; split; reflexivity.
Qed.

(** With a valid name, the object that [NewObject] returns is the fresh
    object as its first call of [GetInterfaces] leaves it. *)
Lemma NewObject_fst (heap : InterfaceHeap) (config : ObjectConfig) :
  assertValidName (ObjectConfig_Name config) = None ->
  exists gt : Object,
    Object_Name gt = ObjectConfig_Name config /\
    Object_typeConfig gt = config /\
    fst (NewObject heap config) = snd (Object_GetInterfaces heap gt).
Proof.
  intros Hname. unfold NewObject. rewrite Hname.
  destruct (decide _) as [E|_];
    [apply assertValidName_nonempty in Hname; contradiction|].
  match goal with |- context [Object_GetInterfaces heap ?o] => exists o end.
  split; [reflexivity|]. split; [reflexivity|].
  destruct (Object_GetInterfaces _ _) as [[l|] o]; reflexivity.
Qed.

Lemma NewObject_invalid (heap : InterfaceHeap) (config : ObjectConfig) :
  assertValidName (ObjectConfig_Name config) <> None ->
  exists err, NewObject heap config = (Object_zero (Some err), heap).
Proof.
  intros Hname. unfold NewObject. destruct (decide _); [eauto|].
  destruct (assertValidName (ObjectConfig_Name config)); [eauto|congruence].
Qed.

(** The constructor of objects changes neither the name nor the
    [ResolveType] of an interface. *)
Lemma NewObject_heap_same (heap : InterfaceHeap) (config : ObjectConfig)
    (iface : InterfacePtr) :
  Interface_ResolveType (snd (NewObject heap config) iface)
  = Interface_ResolveType (heap iface) /\
  Interface_Name (snd (NewObject heap config) iface)
  = Interface_Name (heap iface).
Proof.
  destruct (assertValidName (ObjectConfig_Name config)) eqn:Hname.
  { destruct (NewObject_heap_kept heap config) as [_ ->];
      [left; congruence | split; reflexivity]. }
  destruct (ObjectConfig_interfaces config) as [l|] eqn:Hcfg.
  - destruct (NewObject_valid heap config l Hname Hcfg)
      as (_ & _ & _ & _ & _ & ->).
    rewrite NewObject_range_at.
    induction (occurrences iface (acceptedInterfaces heap l)) as [|n IH];
      [split; reflexivity|].
    rewrite Nat.iter_succ. exact IH.
  - destruct (NewObject_heap_kept heap config) as [_ ->];
      [right; exact Hcfg | split; reflexivity].
Qed.

Lemma Object_GetFields_err (gt : Object) :
  Object_GetError (snd (Object_GetFields gt))
  = snd (defineFieldMap (TObject gt) (ObjectConfig_Fields (Object_typeConfig gt))) /\
  Object_Name (snd (Object_GetFields gt)) = Object_Name gt /\
  Object_typeConfig (snd (Object_GetFields gt)) = Object_typeConfig gt.
Proof.
  unfold Object_GetFields. destruct (defineFieldMap _ _).
  repeat split; reflexivity.
Qed.

Lemma Interface_GetFields_err (it : Interface) :
  Interface_GetError (snd (Interface_GetFields it))
  = snd (defineFieldMap (TInterface it)
           (InterfaceConfig_Fields (Interface_typeConfig it))).
Proof. unfold Interface_GetFields. destruct (defineFieldMap _ _). reflexivity. Qed.

(** X14.  Once [GetFields] has run on the result of [NewObject] or of
    [NewInterface], the type carries no error exactly when the name of the
    config is valid, its field map is not empty and no entry stops the
    field-map builder.  For an object this holds whatever its interfaces
    are: the call replaces the error that construction recorded. *)
Theorem GetFields_error_iff (heap : InterfaceHeap) (oc : ObjectConfig)
    (ic : InterfaceConfig) :
  (Object_GetError (snd (Object_GetFields (fst (NewObject heap oc)))) = None <->
   assertValidName (ObjectConfig_Name oc) = None /\
   ObjectConfig_Fields oc <> [] /\
   forallb field_entry_passes (ObjectConfig_Fields oc) = true) /\
  (Interface_GetError (snd (Interface_GetFields (NewInterface ic))) = None <->
   assertValidName (InterfaceConfig_Name ic) = None /\
   InterfaceConfig_Fields ic <> [] /\
   forallb field_entry_passes (InterfaceConfig_Fields ic) = true).
Proof.
  split.
  - destruct (Object_GetFields_err (fst (NewObject heap oc))) as (-> & _ & _).
    destruct (assertValidName (ObjectConfig_Name oc)) as [err|] eqn:Hname.
    + destruct (NewObject_invalid heap oc) as [err' ->]; [congruence|].
      cbn. split; [discriminate | intros (H & _); discriminate H].
    + destruct (NewObject_fst heap oc Hname) as (gt & _ & Hconfig & ->).
      destruct (Object_GetInterfaces_keeps heap gt) as [_ ->]. rewrite Hconfig.
      rewrite defineFieldMap_snd_None. tauto.
  - rewrite Interface_GetFields_err. unfold NewInterface.
    destruct (decide _) as [E|_].
    { cbn. split; [discriminate|]. intros (H & _). rewrite E in H.
      discriminate H. }
    destruct (assertValidName (InterfaceConfig_Name ic)) as [err|].
    + cbn. split; [discriminate | intros (H & _); discriminate H].
    + cbn [Interface_typeConfig]. rewrite defineFieldMap_snd_None. tauto.
Qed.

(** X15.  [GetInterfaces] sets the error of the object anew; it is called
    here on the heap as [NewObject] left it.  On an object built from a
    valid name it brings back the error of construction, also after
    [GetFields] has put its own in its place; on the object that
    [NewObject] returns for an invalid name it clears the error. *)
Theorem Object_GetInterfaces_resets_error (heap : InterfaceHeap)
    (config : ObjectConfig) :
  (assertValidName (ObjectConfig_Name config) = None ->
   Object_GetError
     (snd (Object_GetInterfaces (snd (NewObject heap config))
             (snd (Object_GetFields (fst (NewObject heap config))))))
   = Object_GetError (fst (NewObject heap config))) /\
  (assertValidName (ObjectConfig_Name config) <> None ->
   Object_GetError (fst (NewObject heap config)) <> None /\
   Object_GetError
     (snd (Object_GetInterfaces (snd (NewObject heap config))
             (fst (NewObject heap config))))
   = None).
Proof.
  split; intros Hname.
  - destruct (Object_GetFields_err (fst (NewObject heap config)))
      as (_ & Hn & Hc).
    destruct (NewObject_fst heap config Hname) as (gt & _ & _ & Heq).
    destruct (Object_GetInterfaces_keeps heap gt) as [Hn' Hc'].
    transitivity (Object_GetError (snd (Object_GetInterfaces heap gt)));
      [|rewrite Heq; reflexivity].
    symmetry. apply Object_GetInterfaces_err;
      [congruence | congruence | apply NewObject_heap_same].
  - destruct (NewObject_invalid heap config Hname) as [err ->].
    split; [discriminate | reflexivity].
Qed.

Lemma Object_GetInterfaces_resets_error_witness :
  Object_GetError (fst (NewObject Sample.heap Sample.HumanConfig)) <> None /\
  Object_GetError
    (snd (Object_GetFields (fst (NewObject Sample.heap Sample.HumanConfig))))
  = None /\
  Object_GetError
    (snd (Object_GetInterfaces (snd (NewObject Sample.heap Sample.HumanConfig))
            (snd (Object_GetFields
                    (fst (NewObject Sample.heap Sample.HumanConfig))))))
  = Object_GetError (fst (NewObject Sample.heap Sample.HumanConfig)) /\
  Object_GetError
    (snd (Object_GetInterfaces
            (snd (NewObject Sample.heap Sample.BadNameObjectConfig))
            (fst (NewObject Sample.heap Sample.BadNameObjectConfig))))
  = None.
Proof.
  split; [discriminate|]. split; [reflexivity|]. split.
  - apply (proj1 (Object_GetInterfaces_resets_error Sample.heap
                    Sample.HumanConfig)).
    reflexivity.
  - apply (proj2 (Object_GetInterfaces_resets_error Sample.heap
                    Sample.BadNameObjectConfig)).
    discriminate.
Defined.

(** ** InputObject *)

Lemma NewInputObject_empty (config : InputObjectConfig) :
  InputObjectConfig_Name config <> "" ->
  InputObjectConfig_fieldMap config = [] ->
  InputObject_GetFields (NewInputObject config) = ∅ /\
  InputObject_GetError (NewInputObject config)
  = Some (NewFormattedError
            (defineFieldMap_empty_message (InputObjectConfig_Name config))).
Proof.
  intros Hname Hfields. unfold NewInputObject.
  destruct (decide _) as [E|_]; [contradiction|].
  unfold InputObject_defineFieldMap, InputObjectConfig_fieldMap in *.
  cbn [InputObject_typeConfig InputObject_String InputObject_Name].
  rewrite Hfields. cbn. split; reflexivity.
Qed.

(** X16.  [NewInputObject] builds an input object without error exactly
    when the name is not empty, the field map (given as such or by a
    thunk) is not empty, and every entry has a nil config, an invalid name
    or a type.  A config with a name and no field gives an input object
    without fields whose error names it: unlike [NewObject], the
    constructor runs the field-map builder itself. *)
Theorem NewInputObject_ok_iff (config : InputObjectConfig) :
  (InputObject_GetError (NewInputObject config) = None <->
   InputObjectConfig_Name config <> "" /\
   InputObjectConfig_fieldMap config <> [] /\
   forallb inputField_entry_passes (InputObjectConfig_fieldMap config) = true) /\
  (InputObjectConfig_Name config <> "" ->
   InputObjectConfig_fieldMap config = [] ->
   InputObject_GetFields (NewInputObject config) = ∅ /\
   exists err, InputObject_GetError (NewInputObject config) = Some err /\
               names (Error err) (InputObjectConfig_Name config)).
Proof.
  split.
  - destruct (decide (InputObjectConfig_Name config = "")) as [E|Hname].
    { unfold NewInputObject. rewrite (decide_True _ _ E). cbn.
      split; [discriminate | intros (H & _); contradiction]. }
    destruct (InputObjectConfig_fieldMap config) as [|entry rest] eqn:Hfields.
    { destruct (NewInputObject_empty config Hname Hfields) as [_ ->].
      split; [discriminate | intros (_ & H & _); contradiction]. }
    assert (Hne : InputObjectConfig_fieldMap config <> []) by congruence.
    destruct (NewInputObject_range config Hname Hne) as [_ ->].
    rewrite Hfields. split.
    + intros Herr. split; [exact Hname|]. split; [discriminate|].
      destruct (forallb inputField_entry_passes (entry :: rest)) eqn:Hall;
        [reflexivity|].
      apply forallb_first_failure in Hall
        as (before & [k [fc|]] & after & Heq & Hbefore & Hx);
        cbn in Hx; [|discriminate].
      destruct (assertValidName k) eqn:Hk; [discriminate|].
      destruct (InputObjectFieldConfig_Type fc) eqn:Htype; [discriminate|].
      rewrite Heq in Herr.
      rewrite (InputObject_range_stops (InputObjectConfig_Name config)
                 before k fc after ∅ Hbefore Hk Htype) in Herr.
      discriminate.
    + intros (_ & _ & Hall).
      apply (InputObject_range_passes (InputObjectConfig_Name config)
               (entry :: rest) ∅ Hall).
  - intros Hname Hfields.
    destruct (NewInputObject_empty config Hname Hfields) as [-> ->].
    split; [reflexivity|]. eexists. split; [reflexivity|].
    rewrite Error_NewFormattedError. apply names_append_l.
Qed.

Lemma NewInputObject_ok_iff_witness :
  InputObject_GetFields (NewInputObject MoreSample.EmptyInputConfig) = ∅ /\
  exists err,
    InputObject_GetError (NewInputObject MoreSample.EmptyInputConfig) = Some err /\
    names (Error err) "EmptyInput".
Proof.
  apply (proj2 (NewInputObject_ok_iff MoreSample.EmptyInputConfig));
    [discriminate | reflexivity].
Defined.
